(** * Chain-state synchronisation scripts: a shallow embedding

    The development follows the two scripts of the repository:

    - [syncSeaportOrders.js]: the probe-first endpoint selection, the
      retrying event-log query [safeQueryFilter], the chunked block scanner
      [queryInChunks], the three normalising passes and the POST sink;
    - [syncNFTMetadata.js]: the rotating endpoint pool [getProvider], the
      per-token coroutine [processNFT] and the batched driver [main].

    The repository also keeps an older, single-endpoint copy of the
    ownership sync ([src/unnamed/part_000]); it is modelled last, over
    the same environment, so that the two versions can be compared.

    JavaScript numbers that hold block heights and token ids are modelled
    by [Z] and [nat]: the heights a provider returns and the token ids of
    a collection stay inside the range where IEEE doubles are exact
    integers.  The chunked scanner, which accepts any two numbers as
    bounds, is also given in the arithmetic of doubles ([Number]), where
    it coincides with the exact one on safe integers and differs beyond.
    Network responses are supplied by an environment record, so every
    function below is executable. *)

From Stdlib Require Import ZArith Lia List String Ascii Bool Sorted Finite.
From stdpp Require Import base tactics option list gmap strings pretty.

Open Scope Z_scope.

(** ** Built-ins of the host language and of the ethers library *)

Module Js.

(** [String.prototype.toLowerCase] on the ASCII range (addresses are
    hexadecimal ASCII strings). *)
Definition lower_ascii (c : ascii) : ascii :=
  let n := nat_of_ascii c in
  if ((65 <=? n)%nat && (n <=? 90)%nat)%bool then ascii_of_nat (n + 32) else c.

Fixpoint toLowerCase (s : string) : string :=
  match s with
  | EmptyString => EmptyString
  | String c r => String (lower_ascii c) (toLowerCase r)
  end.

(** Truthiness of a possibly-undefined string: [undefined] and the empty
    string are falsy. *)
Definition truthy (s : option string) : option string :=
  match s with
  | Some EmptyString => None
  | other => other
  end.

(** [x || null] for a possibly-undefined string. *)
Definition or_null (s : option string) : option string := truthy s.

(** [s.startsWith(p)] *)
Definition startsWith (s p : string) : bool := String.prefix p s.

(** [Number.prototype.toString] on a non-negative integer. *)
Definition toString (n : nat) : string := pretty n.

(** Numbers.  A JavaScript number is an IEEE 754 double: an integer is
    representable when it has at most 53 significant bits, and the
    result of an addition is the exact sum rounded to the nearest
    representable value, ties going to the even significand.  Only
    finite integers occur here. *)
Definition MAX_SAFE_INTEGER : Z := 2 ^ 53 - 1.

(** [Number.isSafeInteger] *)
Definition isSafeInteger (z : Z) : bool :=
  ((- MAX_SAFE_INTEGER <=? z) && (z <=? MAX_SAFE_INTEGER))%bool.

(** The double nearest to an integer. *)
Definition nearestDouble (z : Z) : Z :=
  let a := Z.abs z in
  let e := Z.log2 a - 52 in
  if e <=? 0 then z
  else
    let ulp := 2 ^ e in
    let q := a / ulp in
    let r := a mod ulp in
    let q' := if 2 * r <? ulp then q
              else if ulp <? 2 * r then q + 1
              else if Z.even q then q else q + 1 in
    Z.sgn z * (q' * ulp).

(** [a + b] on numbers that hold integers. *)
Definition add (a b : Z) : Z := nearestDouble (a + b).

End Js.

Module Ethers.

(** Modelled from the spec: [ethers.utils.formatUnits] belongs to the
    ethers library, which is not part of the repository sources.  The
    spec describes it as rendering an amount "as a fixed-point decimal
    string" with the given number of decimals; the definition below is
    that rendering as the library performs it: integer part, a dot, the
    fractional digits padded to [decimals] places with trailing zeros
    removed but at least one digit kept. *)

(** [while (fraction.length < width) fraction = "0" + fraction]; at most
    [width] zeros are ever needed, which bounds the loop. *)
Fixpoint pad_loop (fuel width : nat) (s : string) : string :=
  match fuel with
  | O => s
  | S fuel' =>
      if (String.length s <? width)%nat
      then pad_loop fuel' width (String "0" s) else s
  end.

Definition pad_left (width : nat) (s : string) : string := pad_loop width width s.

(** The library keeps the digits up to the last non-zero one, or a
    single zero when every digit is zero. *)
Fixpoint strip_zeros (s : string) : string :=
  match s with
  | EmptyString => EmptyString
  | String c r =>
      match strip_zeros r with
      | EmptyString => if Ascii.eqb c "0" then EmptyString else String c EmptyString
      | kept => String c kept
      end
  end.

Definition fraction_digits (s : string) : string :=
  match strip_zeros s with
  | EmptyString => "0"
  | kept => kept
  end.

Definition formatUnits (value : Z) (decimals : nat) : string :=
  let multiplier := 10 ^ Z.of_nat decimals in
  let negative := value <? 0 in
  let v := Z.abs value in
  let fraction := fraction_digits (pad_left decimals (pretty (v mod multiplier))) in
  let whole := pretty (v / multiplier) in
  let body := match decimals with
              | O => whole
              | _ => whole +:+ "." +:+ fraction
              end in
  if negative then "-" +:+ body else body.

(** [BigNumber.prototype.toString] *)
Definition toString (v : Z) : string := pretty v.

End Ethers.

(** ** syncSeaportOrders.js *)

Module SyncSeaportOrders.

(** *** Decoded logs and the payload sent to the backend *)

Inductive EventName := OrderValidated | OrderFulfilled | OrderCancelled.

(** One offer or consideration item of the Seaport ABI.  The script
    reads [identifier] and [startAmount] through optional chaining, so
    both may be absent. *)
Record Item := mkItem {
  token : string;
  conduit : string;
  identifier : option Z;
  startAmount : option Z;
  endAmount : option Z
}.

(** [ev.args]: every member may be undefined. *)
Record Args := mkArgs {
  a_orderHash : option string;
  a_offerer : option string;
  a_fulfiller : option string;
  a_offer : option (list Item);
  a_consideration : option (list Item)
}.

(** [{}], the default of [ev.args || {}]. *)
Definition noArgs : Args := mkArgs None None None None None.

Record LogEntry := mkLog {
  args : option Args;
  blockNumber : Z
}.

Inductive Status := active | fulfilled | cancelled.

Record Payload := mkPayload {
  tokenId : option string;
  price : option string;
  sellerAddress : option string;
  buyerAddress : option string;
  seaportOrder : option string * option Args;
  orderHash : option string;
  image : option string;
  nftContract : option string;
  marketplaceContract : option string;
  status : Status;
  onChainBlock : Z
}.

(** *** Environment: configuration and the answers of the outside world

    Answers may change over time: every outgoing call (RPC or POST) is
    numbered by the [tick] at which it is made. *)

Inductive Response := Accepted | Rejected (code : nat) | Unreachable.

Record Env := mkEnv {
  BACKEND_URL : option string;
  NFT_CONTRACT_ADDRESS : option string;
  SEAPORT_CONTRACT_ADDRESS : option string;
  (** the starting block, already parsed (0 when the variable is unset) *)
  FROM_BLOCK : Z;
  APECHAIN_RPC : option string;
  (** [provider.getBlockNumber()] on endpoint [rpc] at time [tick] *)
  getBlockNumber : nat -> string -> option Z;
  (** [seaportContract.queryFilter(filter, from, to)] *)
  queryFilter : nat -> string -> EventName -> Z -> Z -> option (list LogEntry);
  (** the library defers the decoding error of an event argument to the
      moment the member is read: whether reading, from the decoded
      arguments of the log, one of the members that the pass for the
      event reads throws *)
  accessThrows : EventName -> LogEntry -> bool;
  (** the backend's answer to [POST /api/order] *)
  backend : nat -> Payload -> Response
}.

(** *** Observable effects and the process state *)

Inductive Effect :=
| MissingEnv                              (* console.error, line 20 *)
| ProbeRpc (rpc : string)                 (* getBlockNumber, line 38 *)
| RpcWorking (rpc : string)               (* line 39 *)
| RpcFailed (rpc : string)                (* line 43 *)
| NoRpcAvailable                          (* line 47 *)
| SyncStarted                             (* line 113 *)
| LatestBlock (rpc : string)              (* getBlockNumber, line 116 *)
| BlockRange (from to : Z)                (* line 117 *)
| ChunkScan (start end_ : Z)              (* line 101 *)
| QueryFilter (ev : EventName) (from to : Z)  (* line 84 *)
| RetryWarn (n : nat)                     (* line 87 *)
| Sleep (ms : Z)                          (* line 88 *)
| ChunkError                              (* line 102 *)
| Post (p : Payload)                      (* line 64 *)
| BackendRejected (code : nat)            (* line 71 *)
| BackendError                            (* line 76 *)
| SyncFinished (nActive nFulfilled nCancelled : nat)  (* lines 204-207 *)
| Fatal.                                  (* line 211 *)

Record World := mkWorld {
  tick : nat;
  trace : list Effect;
  provider : option string;
  totalActive : nat;
  totalFulfilled : nat;
  totalCancelled : nat
}.

Definition initial : World := mkWorld 0 [] None 0 0 0.

(** *** A state-and-exception monad for the script *)

Inductive Outcome (A : Type) :=
| Return (a : A)          (* normal completion *)
| Throw                   (* a rejected promise / thrown error *)
| Exit (code : Z)         (* process.exit(code) *)
| OutOfFuel.              (* the model ran out of loop fuel *)
Arguments Return {A} a.
Arguments Throw {A}.
Arguments Exit {A} code.
Arguments OutOfFuel {A}.

Definition M (A : Type) : Type := World -> Outcome A * World.

Definition ret {A} (a : A) : M A := fun w => (Return a, w).

Definition bind {A B} (m : M A) (k : A -> M B) : M B :=
  fun w =>
    match m w with
    | (Return a, w') => k a w'
    | (Throw, w') => (Throw, w')
    | (Exit c, w') => (Exit c, w')
    | (OutOfFuel, w') => (OutOfFuel, w')
    end.

Definition throw {A} : M A := fun w => (Throw, w).
Definition exit {A} (code : Z) : M A := fun w => (Exit code, w).
Definition out_of_fuel {A} : M A := fun w => (OutOfFuel, w).

(** [try { m } catch (e) { h }] *)
Definition try_catch {A} (m : M A) (h : M A) : M A :=
  fun w =>
    match m w with
    | (Throw, w') => h w'
    | other => other
    end.

Notation "x <- m ;; k" := (bind m (fun x => k))
  (at level 100, m at next level, right associativity).
Notation "m ;;; k" := (bind m (fun _ => k))
  (at level 100, right associativity).

(** Primitive actions. *)
Definition log (e : Effect) : M unit :=
  fun w => (Return tt,
            mkWorld (tick w) (trace w ++ [e]) (provider w)
                    (totalActive w) (totalFulfilled w) (totalCancelled w)).

Definition next_tick : M nat :=
  fun w => (Return (tick w),
            mkWorld (S (tick w)) (trace w) (provider w)
                    (totalActive w) (totalFulfilled w) (totalCancelled w)).

Definition get_provider : M (option string) := fun w => (Return (provider w), w).

Definition set_provider (p : string) : M unit :=
  fun w => (Return tt,
            mkWorld (tick w) (trace w) (Some p)
                    (totalActive w) (totalFulfilled w) (totalCancelled w)).

Definition count (s : Status) : M unit :=
  fun w => (Return tt,
            match s with
            | active => mkWorld (tick w) (trace w) (provider w)
                          (S (totalActive w)) (totalFulfilled w) (totalCancelled w)
            | fulfilled => mkWorld (tick w) (trace w) (provider w)
                          (totalActive w) (S (totalFulfilled w)) (totalCancelled w)
            | cancelled => mkWorld (tick w) (trace w) (provider w)
                          (totalActive w) (totalFulfilled w) (S (totalCancelled w))
            end).

(** Awaiting a promise that resolves to [v] or rejects. *)
Definition await {A} (r : option A) : M A :=
  match r with
  | Some v => ret v
  | None => throw
  end.

Section Script.

Context (E : Env).

(** *** Multi-RPC start-up (lines 25-50) *)

Definition RPC_LIST : list (option string) :=
  [ APECHAIN_RPC E;
    Some "https://rpc.apechain.com/http"%string;
    Some "https://apechain.drpc.org"%string;
    Some "https://33139.rpc.thirdweb.com"%string ].

(** The [for (const rpc of RPC_LIST)] loop of [initProvider]. *)
Fixpoint probe (rpcs : list (option string)) : M unit :=
  match rpcs with
  | [] => ret tt
  | r :: rest =>
      match Js.truthy r with
      | None => probe rest                          (* if (!rpc) continue *)
      | Some rpc =>
          try_catch
            (t <- next_tick ;;
             log (ProbeRpc rpc) ;;;
             _ <- await (getBlockNumber E t rpc) ;;
             log (RpcWorking rpc) ;;;
             set_provider rpc)                      (* break *)
            (log (RpcFailed rpc) ;;; probe rest)
      end
  end.

Definition initProvider : M unit :=
  probe RPC_LIST ;;;
  p <- get_provider ;;
  match p with
  | None => log NoRpcAvailable ;;; exit 1
  | Some _ => ret tt
  end.

(** *** Backend POST (lines 62-79)

    Every failure is caught inside the function, which then answers
    [false]. *)

Definition postOrderEvent (payload : Payload) : M bool :=
  t <- next_tick ;;
  log (Post payload) ;;;
  match backend E t payload with
  | Accepted => ret true
  | Rejected code => log (BackendRejected code) ;;; ret false
  | Unreachable => log BackendError ;;; ret false
  end.

(** *** Retrying query (lines 82-93)

    [retry] counts the retries made so far; the recursion stops once
    [retry] reaches 3, so a budget of three recursive calls is exact. *)

Fixpoint safeQueryFilter_rec (budget : nat) (filter : EventName) (from to : Z)
         (retry : nat) : M (list LogEntry) :=
  try_catch
    (p <- get_provider ;;
     t <- next_tick ;;
     log (QueryFilter filter from to) ;;;
     match p with
     | Some rpc => await (queryFilter E t rpc filter from to)
     | None => throw
     end)
    (if (retry <? 3)%nat then
       match budget with
       | O => out_of_fuel
       | S budget' =>
           log (RetryWarn (retry + 1)) ;;;
           log (Sleep (2000 * Z.of_nat (retry + 1))) ;;;
           safeQueryFilter_rec budget' filter from to (retry + 1)
       end
     else throw).

Definition safeQueryFilter (filter : EventName) (from to : Z) : M (list LogEntry) :=
  safeQueryFilter_rec 3 filter from to 0.

(** *** Chunked scan (lines 96-105)

    The bounds are taken as exact integers here, which is what the
    additions of the loop compute as long as the bounds are safe
    integers; [Number.queryInChunks] below is the same loop in the
    arithmetic of doubles. *)

Definition CHUNK : Z := 5000.

Fixpoint queryInChunks_loop (fuel : nat) (callback : Z -> Z -> M unit)
         (start to : Z) : M unit :=
  if start <=? to then
    match fuel with
    | O => out_of_fuel
    | S fuel' =>
        let end_ := Z.min (start + CHUNK) to in
        log (ChunkScan start end_) ;;;
        try_catch (callback start end_) (log ChunkError) ;;;
        queryInChunks_loop fuel' callback (end_ + 1) to
    end
  else ret tt.

(** Every iteration moves [start] forward by at least one block, so
    [to - from + 1] iterations always suffice. *)
Definition queryInChunks (callback : Z -> Z -> M unit) (from to : Z) : M unit :=
  queryInChunks_loop (Z.to_nat (to - from + 1)) callback from to.

(** *** Normalisation (lines 124-143, 154-173, 184-198) *)

Definition first {A} (l : option (list A)) : option A :=
  match l with
  | Some (x :: _) => Some x
  | _ => None
  end.

Definition tokenIdOf (a : Args) : option string :=
  Js.or_null
    (match first (a_offer a) with
     | Some item => option_map Ethers.toString (identifier item)
     | None => None
     end).

Definition priceOf (a : Args) : option string :=
  match first (a_consideration a) with
  | Some item =>
      match startAmount item with
      | Some amount => Some (Ethers.formatUnits amount 18)
      | None => None
      end
  | None => None
  end.

Definition lowered (s : option string) : option string :=
  Js.or_null (option_map Js.toLowerCase s).

Definition payloadOf (kind : EventName) (ev : LogEntry) : Payload :=
  let a := match args ev with Some a => a | None => noArgs end in
  match kind with
  | OrderValidated =>
      {| tokenId := tokenIdOf a;
         price := priceOf a;
         sellerAddress := lowered (a_offerer a);
         buyerAddress := None;
         seaportOrder := (a_orderHash a, Some a);
         orderHash := a_orderHash a;
         image := None;
         nftContract := NFT_CONTRACT_ADDRESS E;
         marketplaceContract := SEAPORT_CONTRACT_ADDRESS E;
         status := active;
         onChainBlock := blockNumber ev |}
  | OrderFulfilled =>
      {| tokenId := tokenIdOf a;
         price := priceOf a;
         sellerAddress := lowered (a_offerer a);
         buyerAddress := lowered (a_fulfiller a);
         seaportOrder := (a_orderHash a, Some a);
         orderHash := a_orderHash a;
         image := None;
         nftContract := NFT_CONTRACT_ADDRESS E;
         marketplaceContract := SEAPORT_CONTRACT_ADDRESS E;
         status := fulfilled;
         onChainBlock := blockNumber ev |}
  | OrderCancelled =>
      {| tokenId := None;
         price := None;
         sellerAddress := lowered (a_offerer a);
         buyerAddress := None;
         seaportOrder := (a_orderHash a, None);
         orderHash := a_orderHash a;
         image := None;
         nftContract := NFT_CONTRACT_ADDRESS E;
         marketplaceContract := SEAPORT_CONTRACT_ADDRESS E;
         status := cancelled;
         onChainBlock := blockNumber ev |}
  end.

(** Building the payload reads members of [ev.args]; the optional
    chaining guards a member that is absent, not one whose getter
    throws.  With [ev.args || {}] there is nothing to read when the
    arguments are missing altogether. *)
Definition throws (kind : EventName) (ev : LogEntry) : bool :=
  match args ev with
  | Some _ => accessThrows E kind ev
  | None => false
  end.

(** The [for (const ev of events)] loop of a pass: an event whose
    payload cannot be built throws out of the loop, before its POST. *)
Fixpoint forEvents (kind : EventName) (events : list LogEntry) : M unit :=
  match events with
  | [] => ret tt
  | ev :: rest =>
      if throws kind ev then throw
      else
        ok <- postOrderEvent (payloadOf kind ev) ;;
        (if ok then count (status (payloadOf kind ev)) else ret tt) ;;;
        forEvents kind rest
  end.

(** No event of the list throws. *)
Definition allRead (kind : EventName) (events : list LogEntry) : bool :=
  forallb (fun ev => negb (throws kind ev)) events.

(** The events of a list that the loop reaches: those before the first
    one that throws. *)
Fixpoint reached (kind : EventName) (events : list LogEntry) : list LogEntry :=
  match events with
  | [] => []
  | ev :: rest => if throws kind ev then [] else ev :: reached kind rest
  end.

(** The callback handed to [queryInChunks] by each of the three passes. *)
Definition scanCallback (kind : EventName) (start end_ : Z) : M unit :=
  events <- safeQueryFilter kind start end_ ;;
  forEvents kind events.

(** *** Orchestration (lines 19-22, 112-213) *)

Definition main : M unit :=
  log SyncStarted ;;;
  initProvider ;;;
  p <- get_provider ;;
  t <- next_tick ;;
  latestBlock <-
    match p with
    | Some rpc => log (LatestBlock rpc) ;;; await (getBlockNumber E t rpc)
    | None => throw
    end ;;
  log (BlockRange (FROM_BLOCK E) latestBlock) ;;;
  queryInChunks (scanCallback OrderValidated) (FROM_BLOCK E) latestBlock ;;;
  queryInChunks (scanCallback OrderFulfilled) (FROM_BLOCK E) latestBlock ;;;
  queryInChunks (scanCallback OrderCancelled) (FROM_BLOCK E) latestBlock ;;;
  w <- (fun w => (Return w, w)) ;;
  log (SyncFinished (totalActive w) (totalFulfilled w) (totalCancelled w)).

Definition missing (v : option string) : bool :=
  match Js.truthy v with
  | None => true
  | Some _ => false
  end.

(** The whole module: the configuration guard, then
    [main().catch(err => process.exit(1))]. *)
Definition script : M unit :=
  if (missing (BACKEND_URL E) || missing (NFT_CONTRACT_ADDRESS E)
      || missing (SEAPORT_CONTRACT_ADDRESS E))%bool
  then log MissingEnv ;;; exit 1
  else try_catch main (log Fatal ;;; exit 1).

(** The exit status of the process: 0 when the script runs to its
    end, the argument of [process.exit] otherwise. *)
Definition exitCode (o : Outcome unit) : option Z :=
  match o with
  | Return _ => Some 0
  | Exit c => Some c
  | Throw => Some 1
  | OutOfFuel => None
  end.

(** *** The start-up conditions, read off the environment

    [probed t rpcs] is the endpoint selected by the probing loop started
    at time [t], with the time at which the loop ends. *)
Fixpoint probed (t : nat) (rpcs : list (option string)) : option string * nat :=
  match rpcs with
  | [] => (None, t)
  | r :: rest =>
      match Js.truthy r with
      | None => probed t rest
      | Some rpc =>
          match getBlockNumber E t rpc with
          | Some _ => (Some rpc, S t)
          | None => probed (S t) rest
          end
      end
  end.

Definition configured : bool :=
  negb (missing (BACKEND_URL E) || missing (NFT_CONTRACT_ADDRESS E)
        || missing (SEAPORT_CONTRACT_ADDRESS E)).


(** The selected endpoint also answers the read of the latest block
    height that follows the probe. *)
Definition latestBlockRead : bool :=
  match probed 0 RPC_LIST with
  | (Some rpc, t) =>
      match getBlockNumber E t rpc with
      | Some _ => true
      | None => false
      end
  | (None, _) => false
  end.

(** *** Reading the trace *)

Definition chunkScans (tr : list Effect) : list (Z * Z) :=
  omap (fun e => match e with ChunkScan s e' => Some (s, e') | _ => None end) tr.

Definition posts (tr : list Effect) : list Payload :=
  omap (fun e => match e with Post p => Some p | _ => None end) tr.

Definition queries (tr : list Effect) : list (EventName * Z * Z) :=
  omap (fun e => match e with QueryFilter k f t => Some (k, f, t) | _ => None end) tr.

Definition sleeps (tr : list Effect) : list Z :=
  omap (fun e => match e with Sleep ms => Some ms | _ => None end) tr.

(** A trace segment without per-item work: no sub-range announcement,
    no log query, no POST. *)
Definition noItemWork (d : list Effect) : Prop :=
  chunkScans d = [] /\ queries d = [] /\ posts d = [].

(** What a computation appended to the trace. *)
Definition since (w w' : World) : list Effect :=
  drop (length (trace w)) (trace w').

(** The world after [ticks] more outgoing calls that left [d] in the
    trace. *)
Definition after (w : World) (ticks : nat) (d : list Effect) : World :=
  mkWorld (tick w + ticks) (trace w ++ d) (provider w)
          (totalActive w) (totalFulfilled w) (totalCancelled w).

(** The sub-ranges visited by the loop, as a list. *)
Fixpoint chunks (fuel : nat) (start to : Z) : list (Z * Z) :=
  if start <=? to then
    match fuel with
    | O => []
    | S fuel' =>
        let end_ := Z.min (start + CHUNK) to in
        (start, end_) :: chunks fuel' (end_ + 1) to
    end
  else [].

Definition subRanges (from to : Z) : list (Z * Z) :=
  chunks (Z.to_nat (to - from + 1)) from to.

(** [tiles from to l]: the ranges of [l] follow one another without gap
    or overlap, start at [from], end at [to], are non-empty and span at
    most [CHUNK] beyond their first block. *)
Fixpoint tiles (from to : Z) (l : list (Z * Z)) : Prop :=
  match l with
  | [] => from = to + 1
  | (s, e) :: rest => s = from /\ s <= e /\ e - s <= CHUNK /\ tiles (e + 1) to rest
  end.

(** Ceiling of [a / b] for positive [b]. *)
Definition ceilDiv (a b : Z) : Z := (a + b - 1) / b.

(** A callback that returns or throws, leaving in the trace a segment
    that satisfies [P]. *)
Definition settles (P : Z -> Z -> list Effect -> Prop) (cb : Z -> Z -> M unit) : Prop :=
  forall s e w, exists w' d,
    (cb s e w = (Return tt, w') \/ cb s e w = (Throw, w'))
    /\ trace w' = trace w ++ d /\ P s e d.

(** The shape of the trace of a chunked scan: for each sub-range in
    turn, the announcement, what the callback did, and the warning when
    the callback threw. *)
Inductive scanTrace (P : Z -> Z -> list Effect -> Prop)
  : list (Z * Z) -> list Effect -> Prop :=
| scan_done : scanTrace P [] []
| scan_chunk s e d (threw : bool) rest tail :
    P s e d ->
    scanTrace P rest tail ->
    scanTrace P ((s, e) :: rest)
              (ChunkScan s e :: d ++ (if threw then [ChunkError] else []) ++ tail).

(** What one pass leaves in the trace for one sub-range: no chunk
    announcement; between one and four queries, all for that sub-range;
    and either no POST at all or the POSTs of the logs that some attempt
    returned, up to the first log whose arguments throw. *)
Definition passSegment (kind : EventName) (s e : Z) (d : list Effect) : Prop :=
  chunkScans d = []
  /\ (posts d = []
      \/ exists t rpc logs,
           queryFilter E t rpc kind s e = Some logs
           /\ posts d = List.map (payloadOf kind) (reached kind logs))
  /\ (exists n, (n <= 3)%nat /\ queries d = List.repeat (kind, s, e) (S n)).

(** The queries of a scan over the sub-ranges [cs], the [i]-th of which
    is attempted [attempts[i]] times. *)
Definition retried (kind : EventName) (cs : list (Z * Z)) (attempts : list nat)
  : list (EventName * Z * Z) :=
  List.concat (zip_with (fun c a => List.repeat (kind, fst c, snd c) a) cs attempts).

(** A provider that answers a range query with logs of that range, in
    block order. *)
Definition orderedProvider : Prop :=
  forall t rpc kind from to logs,
    queryFilter E t rpc kind from to = Some logs ->
    Forall (fun l => from <= blockNumber l <= to) logs
    /\ StronglySorted Z.le (List.map blockNumber logs).

(** The trace of a retried query whose first [n] attempts failed. *)
Definition retryTrace (filter : EventName) (from to : Z) (n : nat) : list Effect :=
  QueryFilter filter from to ::
  List.concat (List.map (fun j => [RetryWarn j; Sleep (2000 * Z.of_nat j);
                                   QueryFilter filter from to])
                        (seq 1 n)).

(** The provider's answer to the [i]-th attempt made from world [w]. *)
Definition answerAt (w : World) (filter : EventName) (from to : Z) (i : nat)
  : option (list LogEntry) :=
  match provider w with
  | Some rpc => queryFilter E (tick w + i) rpc filter from to
  | None => None
  end.

End Script.

(** *** The chunked scan in the arithmetic of numbers (lines 96-105)

    [start + CHUNK] and [end + 1] are additions of doubles;
    [Math.min] and [<=] are exact.  Beyond the safe integers an
    addition may return one of its arguments, and the loop then stops
    advancing: the fuel runs out whatever its amount. *)

Module Number.

Fixpoint queryInChunks_loop (fuel : nat) (callback : Z -> Z -> M unit)
         (start to : Z) : M unit :=
  if start <=? to then
    match fuel with
    | O => out_of_fuel
    | S fuel' =>
        let end_ := Z.min (Js.add start CHUNK) to in
        log (ChunkScan start end_) ;;;
        try_catch (callback start end_) (log ChunkError) ;;;
        queryInChunks_loop fuel' callback (Js.add end_ 1) to
    end
  else ret tt.

Definition queryInChunks (callback : Z -> Z -> M unit) (from to : Z) : M unit :=
  queryInChunks_loop (Z.to_nat (to - from + 1)) callback from to.

(** The bounds between which every addition of the loop is exact. *)
Definition exactBounds (from to : Z) : Prop := - 2 ^ 53 <= from /\ to < 2 ^ 53.

End Number.

(** *** Sample environments *)

(** A chain whose provider answers every range query with one log at
    each end of the range, and a backend that accepts everything. *)
Definition steadyChain : Env :=
  {| BACKEND_URL := Some "https://backend.example"%string;
     NFT_CONTRACT_ADDRESS := Some "0x1111"%string;
     SEAPORT_CONTRACT_ADDRESS := Some "0x2222"%string;
     FROM_BLOCK := 0;
     APECHAIN_RPC := None;
     getBlockNumber := fun _ _ => Some 10001;
     queryFilter := fun _ _ _ from to =>
       if from <=? to then Some [mkLog None from; mkLog None to] else Some [];
     accessThrows := fun _ _ => false;
     backend := fun _ _ => Accepted |}.

(** The same chain with a provider that rejects every log query. *)
Definition silentChain : Env :=
  {| BACKEND_URL := Some "https://backend.example"%string;
     NFT_CONTRACT_ADDRESS := Some "0x1111"%string;
     SEAPORT_CONTRACT_ADDRESS := Some "0x2222"%string;
     FROM_BLOCK := 0;
     APECHAIN_RPC := None;
     getBlockNumber := fun _ _ => Some 10001;
     queryFilter := fun _ _ _ _ _ => None;
     accessThrows := fun _ _ => false;
     backend := fun _ _ => Accepted |}.

(** A validated order with nothing on offer, priced at one ether, and a
    chain that reports it for every range. *)
Definition oneEther : Item :=
  mkItem "0x0000" "0xFEE5" (Some 0) (Some 1000000000000000000) (Some 1000000000000000000).

Definition emptyOffer : LogEntry :=
  mkLog (Some (mkArgs (Some "0xabc1"%string) (Some "0xSeLLer"%string) (Some "0xBuYer"%string)
                      (Some []) (Some [oneEther])))
        7.

Definition emptyOfferChain : Env :=
  {| BACKEND_URL := Some "https://backend.example"%string;
     NFT_CONTRACT_ADDRESS := Some "0x1111"%string;
     SEAPORT_CONTRACT_ADDRESS := Some "0x2222"%string;
     FROM_BLOCK := 0;
     APECHAIN_RPC := None;
     getBlockNumber := fun _ _ => Some 10;
     queryFilter := fun _ _ _ _ _ => Some [emptyOffer];
     accessThrows := fun _ _ => false;
     backend := fun _ _ => Accepted |}.


(** The world right after a successful start-up on the first public
    endpoint. *)
Definition ready : World :=
  mkWorld 0 [] (Some "https://rpc.apechain.com/http"%string) 0 0 0.

(** A chain none of whose endpoints answers, with the operator's own
    endpoint configured. *)
Definition offlineChain : Env :=
  {| BACKEND_URL := Some "https://backend.example"%string;
     NFT_CONTRACT_ADDRESS := Some "0x1111"%string;
     SEAPORT_CONTRACT_ADDRESS := Some "0x2222"%string;
     FROM_BLOCK := 0;
     APECHAIN_RPC := Some "https://primary.example"%string;
     getBlockNumber := fun _ _ => None;
     queryFilter := fun _ _ _ _ _ => None;
     accessThrows := fun _ _ => false;
     backend := fun _ _ => Unreachable |}.

(** A chain whose own endpoint is down while the public ones answer,
    and whose backend rejects every order. *)
Definition strictBackend : Env :=
  {| BACKEND_URL := Some "https://backend.example"%string;
     NFT_CONTRACT_ADDRESS := Some "0x1111"%string;
     SEAPORT_CONTRACT_ADDRESS := Some "0x2222"%string;
     FROM_BLOCK := 0;
     APECHAIN_RPC := Some "https://primary.example"%string;
     getBlockNumber := fun _ rpc =>
       if String.eqb rpc "https://primary.example" then None else Some 6000;
     queryFilter := fun t _ _ from to =>
       match t with
       | 3%nat => None
       | _ => Some [mkLog None from; mkLog None to]
       end;
     accessThrows := fun _ _ => false;
     backend := fun _ _ => Rejected 400 |}.

(** A configuration whose starting block lies beyond the head of the
    chain. *)
Definition aheadOfChain : Env :=
  {| BACKEND_URL := Some "https://backend.example"%string;
     NFT_CONTRACT_ADDRESS := Some "0x1111"%string;
     SEAPORT_CONTRACT_ADDRESS := Some "0x2222"%string;
     FROM_BLOCK := 20000;
     APECHAIN_RPC := None;
     getBlockNumber := fun _ _ => Some 10001;
     queryFilter := fun _ _ _ from to => Some [mkLog None from; mkLog None to];
     accessThrows := fun _ _ => false;
     backend := fun _ _ => Accepted |}.

(** A chain whose provider fails the first log query and then reports
    the validated order with nothing on offer. *)
Definition retriedOffer : Env :=
  {| BACKEND_URL := Some "https://backend.example"%string;
     NFT_CONTRACT_ADDRESS := Some "0x1111"%string;
     SEAPORT_CONTRACT_ADDRESS := Some "0x2222"%string;
     FROM_BLOCK := 0;
     APECHAIN_RPC := None;
     getBlockNumber := fun _ _ => Some 10;
     queryFilter := fun t _ _ _ _ =>
       match t with
       | O => None
       | _ => Some [emptyOffer; mkLog None 9]
       end;
     accessThrows := fun _ _ => false;
     backend := fun _ _ => Rejected 500 |}.

(** A chain that reports three logs for every range, the second of
    which carries an argument that fails to decode. *)
Definition brokenLog : Env :=
  {| BACKEND_URL := Some "https://backend.example"%string;
     NFT_CONTRACT_ADDRESS := Some "0x1111"%string;
     SEAPORT_CONTRACT_ADDRESS := Some "0x2222"%string;
     FROM_BLOCK := 0;
     APECHAIN_RPC := None;
     getBlockNumber := fun _ _ => Some 10;
     queryFilter := fun _ _ _ from to =>
       Some [emptyOffer; mkLog (Some noArgs) 8; mkLog None 9];
     accessThrows := fun _ ev => blockNumber ev =? 8;
     backend := fun _ _ => Accepted |}.

(** *** Further readings of the trace and of the counters *)

(** The endpoints probed at start-up, in order. *)
Definition probes (tr : list Effect) : list string :=
  omap (fun e => match e with ProbeRpc rpc => Some rpc | _ => None end) tr.

(** The POSTs that the backend did not accept (lines 71 and 76). *)
Definition failures (tr : list Effect) : list Effect :=
  List.filter (fun e => match e with
                        | BackendRejected _ | BackendError => true
                        | _ => false
                        end) tr.

(** The status each pass gives to its events. *)
Definition statusOf (kind : EventName) : Status :=
  match kind with
  | OrderValidated => active
  | OrderFulfilled => fulfilled
  | OrderCancelled => cancelled
  end.

(** The position of a status in the order of the passes. *)
Definition rank (s : Status) : nat :=
  match s with
  | active => 0
  | fulfilled => 1
  | cancelled => 2
  end.

Definition postsOf (s : Status) (tr : list Effect) : list Payload :=
  List.filter (fun p => (rank (status p) =? rank s)%nat) (posts tr).

(** What the counters account for: the three totals, the POSTs made and
    the POSTs that failed. *)
Definition ledger (w : World) : nat * nat * nat * list Payload * list Effect :=
  (totalActive w, totalFulfilled w, totalCancelled w,
   posts (trace w), failures (trace w)).

(** Every POST either bumped exactly one counter or left a failure line,
    and a counter never exceeds the POSTs of its status. *)
Definition balanced (w : World) : Prop :=
  (totalActive w + totalFulfilled w + totalCancelled w + length (failures (trace w))
   = length (posts (trace w)))%nat
  /\ (totalActive w <= length (postsOf active (trace w)))%nat
  /\ (totalFulfilled w <= length (postsOf fulfilled (trace w)))%nat
  /\ (totalCancelled w <= length (postsOf cancelled (trace w)))%nat.

(** A computation keeps a property of the world. *)
Definition preserves {A} (I : World -> Prop) (m : M A) : Prop :=
  forall w, I w -> I (snd (m w)).

(** A computation leaves the ledger as it found it. *)
Definition keepsLedger {A} (m : M A) : Prop :=
  forall w, ledger (snd (m w)) = ledger w.



(** Block [b] lies in the sub-range [c]. *)
Definition holdsBlock (b : Z) (c : Z * Z) : bool :=
  ((fst c <=? b) && (b <=? snd c))%bool.

End SyncSeaportOrders.


(** ** syncNFTMetadata.js *)

Module SyncNFTMetadata.

(** The URL handed to [JsonRpcProvider]; [None] when [APECHAIN_RPC] is
    not set. *)
Definition Rpc : Type := option string.

(** The row written into the [nfts] table. *)
Record OwnershipRecord := mkRecord {
  token_id : string;
  nft_contract : string;
  owner_address : string;
  name : option string
}.

(** The chain as seen through each endpoint, and the metadata host.
    [fetchMetadata url] is [None] when the fetch or the JSON decoding
    fails and [Some n] when it yields a document whose [name] member is
    [n]. *)
Record Env := mkEnv {
  NFT_CONTRACT_ADDRESS : string;
  APECHAIN_RPC : option string;
  totalSupply : Rpc -> option nat;
  ownerOf : Rpc -> nat -> option string;
  tokenURI : Rpc -> nat -> option string;
  fetchMetadata : string -> option (option string)
}.

(** Contract calls sent over the network, with the endpoint they go to. *)
Inductive Call :=
| CallTotalSupply (rpc : Rpc)
| CallOwnerOf (rpc : Rpc) (tokenId : nat)
| CallTokenURI (rpc : Rpc) (tokenId : nat).

(** Module-level mutable state: the rotation index and the contract
    binding (identified by the endpoint of its provider); and what the
    process has sent out so far: the contract calls and the rows handed
    to the store. *)
Record State := mkState {
  providerIndex : nat;
  nftContract : Rpc;
  calls : list Call;
  upserts : list OwnershipRecord
}.

(** One call of [processNFT], suspended at one of its [await]s or
    finished.  The contract object is read from the module state at the
    moment a call is issued, so a pending call remembers its endpoint. *)
Inductive Task :=
| AwaitOwnerOf (i : nat) (contract : Rpc)                  (* line 66 *)
| AwaitTokenURI (i : nat) (contract : Rpc) (owner : string) (* line 67 *)
| AwaitFetch (owner : string) (url : string)               (* lines 88-89, both awaits *)
| AwaitUpsert                                              (* line 96 *)
| Saved                                                    (* line 103 *)
| Failed.                                                  (* line 105 *)

Inductive Outcome :=
| Completed (st : State)       (* main ran to its end *)
| FatalError (st : State)      (* process.exit(1), line 126 *)
| OutOfFuel (st : State).      (* the model ran out of loop fuel *)

Definition exitCode (o : Outcome) : option Z :=
  match o with
  | Completed _ => Some 0
  | FatalError _ => Some 1
  | OutOfFuel _ => None
  end.

Definition finalState (o : Outcome) : State :=
  match o with
  | Completed st | FatalError st | OutOfFuel st => st
  end.

Definition settled (t : Task) : bool :=
  match t with
  | Saved | Failed => true
  | _ => false
  end.

Definition BATCH_SIZE : nat := 20.

(** [tokenURI.replace("ipfs://", "https://ipfs.io/ipfs/")] under the
    guard [tokenURI.startsWith("ipfs://")]: the first occurrence is the
    prefix. *)
Definition toHttp (uri : string) : string :=
  if Js.startsWith uri "ipfs://"
  then "https://ipfs.io/ipfs/" +:+ substring 7 (String.length uri - 7) uri
  else uri.

(** [Array.from({length: BATCH_SIZE}, (_, j) => i + j).filter(id => id < totalSupply)] *)
Definition batchOf (i total : nat) : list nat :=
  List.filter (fun id => (id <? total)%nat)
              (List.map (fun j => (i + j)%nat) (seq 0 BATCH_SIZE)).

(** The external store: [upsert(row, {onConflict: "token_id"})]. *)
Definition upsert (store : gmap string OwnershipRecord) (r : OwnershipRecord)
  : gmap string OwnershipRecord :=
  <[token_id r := r]> store.

Definition applyUpserts (store : gmap string OwnershipRecord)
           (rs : list OwnershipRecord) : gmap string OwnershipRecord :=
  foldl upsert store rs.

(** The rows of a token among those written. *)
Definition rowsOf (tokenId : nat) (rs : list OwnershipRecord) : list OwnershipRecord :=
  List.filter (fun r => String.eqb (token_id r) (Js.toString tokenId)) rs.

(** The endpoints to which the calls about a token were sent. *)
Definition endpointsTried (tokenId : nat) (cs : list Call) : list Rpc :=
  omap (fun c => match c with
                 | CallOwnerOf rpc t | CallTokenURI rpc t =>
                     if (t =? tokenId)%nat then Some rpc else None
                 | CallTotalSupply _ => None
                 end) cs.

Definition issue (c : Call) (st : State) : State :=
  mkState (providerIndex st) (nftContract st) (calls st ++ [c]) (upserts st).

Section Script.

Context (E : Env).

Definition RPC_LIST : list Rpc :=
  [ APECHAIN_RPC E;
    Some "https://rpc.apechain.com/http"%string;
    Some "https://apechain.drpc.org"%string;
    Some "https://33139.rpc.thirdweb.com"%string ].

(** Lines 35-39. *)
Definition getProvider (st : State) : Rpc * State :=
  let rpc := nth (providerIndex st mod length RPC_LIST) RPC_LIST None in
  (rpc, mkState (S (providerIndex st)) (nftContract st) (calls st) (upserts st)).

(** Lines 72-73 (and 44, 52): take the next endpoint and rebind the
    shared contract to it. *)
Definition switchProvider (st : State) : State :=
  let (rpc, st') := getProvider st in
  mkState (providerIndex st') rpc (calls st') (upserts st').

(** Module initialisation, lines 32-52. *)
Definition boot : State := switchProvider (mkState 0 None [] []).

(** The [catch] of the fallback loop followed by the loop test: either
    the next iteration issues [ownerOf] on the new binding, or the loop
    is exhausted and line 77 throws into the [catch] of line 104. *)
Definition rpcFailed (tokenId i : nat) (st : State) : Task * State :=
  let st' := switchProvider st in
  if (i + 1 <? length RPC_LIST)%nat
  then (AwaitOwnerOf (i + 1) (nftContract st'),
        issue (CallOwnerOf (nftContract st') tokenId) st')
  else (Failed, st').

Definition nameOf (url : string) : option string :=
  match fetchMetadata E url with
  | Some n => Js.or_null n
  | None => None
  end.

Definition rowOf (tokenId : nat) (owner : string) (url : string) : OwnershipRecord :=
  {| token_id := Js.toString tokenId;
     nft_contract := NFT_CONTRACT_ADDRESS E;
     owner_address := Js.toLowerCase owner;
     name := nameOf url |}.

(** The pending promise of a task resolves and the task runs up to its
    next [await]. *)
Definition resume (tokenId : nat) (task : Task) (st : State) : Task * State :=
  match task with
  | AwaitOwnerOf i c =>
      match ownerOf E c tokenId with
      | Some owner =>
          (AwaitTokenURI i (nftContract st) owner,
           issue (CallTokenURI (nftContract st) tokenId) st)
      | None => rpcFailed tokenId i st
      end
  | AwaitTokenURI i c owner =>
      match tokenURI E c tokenId with
      | Some uri => (AwaitFetch owner (toHttp uri), st)
      | None => rpcFailed tokenId i st
      end
  | AwaitFetch owner url =>
      (AwaitUpsert,
       mkState (providerIndex st) (nftContract st) (calls st)
               (upserts st ++ [rowOf tokenId owner url]))
  | AwaitUpsert => (Saved, st)
  | Saved => (Saved, st)
  | Failed => (Failed, st)
  end.

(** [processNFT(tokenId)] up to its first [await]. *)
Definition processNFT (tokenId : nat) (st : State) : (nat * Task) * State :=
  ((tokenId, AwaitOwnerOf 0 (nftContract st)),
   issue (CallOwnerOf (nftContract st) tokenId) st).

(** [batch.map(tokenId => processNFT(tokenId))] *)
Fixpoint startAll (batch : list nat) (st : State) : list (nat * Task) * State :=
  match batch with
  | [] => ([], st)
  | t :: rest =>
      let (task, st1) := processNFT t st in
      let (tasks, st2) := startAll rest st1 in
      (task :: tasks, st2)
  end.

(** The promise awaited on behalf of token [c] resolves next. *)
Fixpoint resumeToken (c : nat) (tasks : list (nat * Task)) (st : State)
  : list (nat * Task) * State :=
  match tasks with
  | [] => ([], st)
  | (t, task) :: rest =>
      if (t =? c)%nat then
        let (task', st') := resume t task st in ((t, task') :: rest, st')
      else
        let (rest', st') := resumeToken c rest st in ((t, task) :: rest', st')
  end.

(** Every pending promise resolves once, in token order. *)
Fixpoint resumeAll (tasks : list (nat * Task)) (st : State)
  : list (nat * Task) * State :=
  match tasks with
  | [] => ([], st)
  | (t, task) :: rest =>
      let (task', st1) := resume t task st in
      let (rest', st2) := resumeAll rest st1 in
      ((t, task') :: rest', st2)
  end.

Definition round (p : list (nat * Task) * State) : list (nat * Task) * State :=
  resumeAll (fst p) (snd p).

(** [await Promise.allSettled(...)].  The schedule lists, in order, the
    tokens whose pending promise resolves next; once it is used up the
    remaining promises resolve in token order, round after round.  A
    task needs at most twelve resumptions, so twelve rounds settle
    everything. *)
Fixpoint allSettled (sched : list nat) (tasks : list (nat * Task)) (st : State)
  : list nat * (list (nat * Task) * State) :=
  if forallb (fun p => settled (snd p)) tasks then (sched, (tasks, st))
  else
    match sched with
    | [] => ([], Nat.iter 12 round (tasks, st))
    | c :: sched' =>
        let (tasks', st') := resumeToken c tasks st in
        allSettled sched' tasks' st'
    end.

(** The [for] loop of [main], lines 118-121. *)
Fixpoint batches (fuel i total : nat) (sched : list nat) (st : State) : Outcome :=
  if (i <? total)%nat then
    match fuel with
    | O => OutOfFuel st
    | S fuel' =>
        let (tasks, st1) := startAll (batchOf i total) st in
        let (sched', done) := allSettled sched tasks st1 in
        batches fuel' (i + BATCH_SIZE) total sched' (snd done)
    end
  else Completed st.

(** Lines 112-128; the loop advances by [BATCH_SIZE] each time, so
    [totalSupply] iterations always suffice. *)
Definition main (sched : list nat) : Outcome :=
  let st := issue (CallTotalSupply (nftContract boot)) boot in
  match totalSupply E (nftContract boot) with
  | None => FatalError st
  | Some total => batches total 0 total sched st
  end.

(** The endpoint at position [k] of the round robin. *)
Definition endpoint (k : nat) : Rpc := nth (k mod length RPC_LIST) RPC_LIST None.

(** [n] successive rotations, with the endpoints they return. *)
Fixpoint rotations (n : nat) (st : State) : list Rpc * State :=
  match n with
  | O => ([], st)
  | S n' =>
      let (rpc, st1) := getProvider st in
      let (rest, st2) := rotations n' st1 in
      (rpc :: rest, st2)
  end.

(** *** Predicates used to state the properties *)

(** Both reads of the token succeed on every listed endpoint. *)
Definition readable (t : nat) : Prop :=
  forall c, In c RPC_LIST ->
            (exists o, ownerOf E c t = Some o) /\ (exists u, tokenURI E c t = Some u).

(** One of the two reads of the token fails on every listed endpoint. *)
Definition unreadable (t : nat) : Prop :=
  (forall c, In c RPC_LIST -> ownerOf E c t = None)
  \/ (forall c, In c RPC_LIST -> tokenURI E c t = None).

(** A row built from answers that listed endpoints give for the token. *)
Definition validRow (t : nat) (r : OwnershipRecord) : Prop :=
  exists c1 c2 o u,
    In c1 RPC_LIST /\ In c2 RPC_LIST
    /\ ownerOf E c1 t = Some o /\ tokenURI E c2 t = Some u
    /\ r = rowOf t o (toHttp u).

(** What holds of the rows of a token once its task has settled. *)
Definition settledRows (t : nat) (rows : list OwnershipRecord) : Prop :=
  (rows = [] \/ exists r, rows = [r] /\ validRow t r)
  /\ (readable t -> rows <> [])
  /\ (unreadable t -> rows = []).

(** The rows of a token, given where its task stands. *)
Definition taskInv (t : nat) (task : Task) (rows : list OwnershipRecord) : Prop :=
  match task with
  | AwaitOwnerOf _ c => In c RPC_LIST /\ rows = []
  | AwaitTokenURI _ c o =>
      In c RPC_LIST /\ rows = []
      /\ (exists c1, In c1 RPC_LIST /\ ownerOf E c1 t = Some o)
  | AwaitFetch o url =>
      rows = [] /\ validRow t (rowOf t o url)
  | AwaitUpsert | Saved =>
      (exists r, rows = [r] /\ validRow t r) /\ ~ unreadable t
  | Failed => rows = [] /\ ~ readable t
  end.

(** The module state is well formed: the contract is bound to a listed
    endpoint, the one returned by the latest rotation, and every row
    written belongs to some token. *)
Definition validState (st : State) : Prop :=
  (0 < providerIndex st)%nat
  /\ nftContract st = nth ((providerIndex st - 1) mod length RPC_LIST) RPC_LIST None
  /\ Forall (fun r => exists t, token_id r = Js.toString t) (upserts st).

(** A batch in flight: one task per token, each in step with the rows
    of its token. *)
Definition batchInv (tasks : list (nat * Task)) (st : State) : Prop :=
  validState st
  /\ List.NoDup (List.map fst tasks)
  /\ Forall (fun p => taskInv (fst p) (snd p) (rowsOf (fst p) (upserts st))) tasks.

(** An upper bound on the resumptions a task still needs. *)
Definition stepsLeft (task : Task) : nat :=
  match task with
  | AwaitOwnerOf i _ => 2 * (4 - i) + 4
  | AwaitTokenURI i _ _ => 2 * (4 - i) + 3
  | AwaitFetch _ _ => 2
  | AwaitUpsert => 1
  | Saved | Failed => 0
  end.

(** Executions of a batch: any number of resumptions of any of its
    tasks, in any order. *)
Inductive reaches : list (nat * Task) -> State -> list (nat * Task) -> State -> Prop :=
| reaches_refl tasks st : reaches tasks st tasks st
| reaches_step pre t task post st tasks' st' :
    reaches (pre ++ (t, fst (resume t task st)) :: post) (snd (resume t task st)) tasks' st' ->
    reaches (pre ++ (t, task) :: post) st tasks' st'.

(** The row that the chain state, read through the first listed
    endpoint, prescribes for a token: none when a read fails. *)
Definition expectedRows (t : nat) : list OwnershipRecord :=
  match ownerOf E (APECHAIN_RPC E) t, tokenURI E (APECHAIN_RPC E) t with
  | Some o, Some u => [rowOf t o (toHttp u)]
  | _, _ => []
  end.

(** All listed endpoints serve the same chain state: they give the same
    answer for every token. *)
Definition uniform : Prop :=
  forall c c' t, In c RPC_LIST -> In c' RPC_LIST ->
                 ownerOf E c t = ownerOf E c' t /\ tokenURI E c t = tokenURI E c' t.

End Script.

(** The endpoint configured in the sample environments. *)
Definition isPrimary (rpc : Rpc) : bool :=
  match rpc with
  | Some url => String.eqb url "https://primary.example"
  | None => false
  end.

(** A chain with three tokens: endpoint 0 (the configured one) serves
    tokens 0 and 2, token 1 is unreadable, every fallback endpoint is
    down. *)
Definition primaryOnly : Env :=
  {| NFT_CONTRACT_ADDRESS := "0xC0FFEE";
     APECHAIN_RPC := Some "https://primary.example"%string;
     totalSupply := fun _ => Some 3%nat;
     ownerOf := fun rpc t =>
       match t with
       | 0%nat => if isPrimary rpc then Some "0xAAA1"%string else None
       | 2%nat => if isPrimary rpc then Some "0xBBB2"%string else None
       | _ => None
       end;
     tokenURI := fun rpc t =>
       match t with
       | 0%nat => if isPrimary rpc then Some "ipfs://meta/0"%string else None
       | 2%nat => if isPrimary rpc then Some "ipfs://meta/2"%string else None
       | _ => None
       end;
     fetchMetadata := fun _ => None |}.

(** A chain whose configured endpoint is down while the public fallback
    endpoints answer every call. *)
Definition primaryDown : Env :=
  {| NFT_CONTRACT_ADDRESS := "0xC0FFEE";
     APECHAIN_RPC := Some "https://primary.example"%string;
     totalSupply := fun rpc => if isPrimary rpc then None else Some 3%nat;
     ownerOf := fun rpc t => if isPrimary rpc then None else Some "0xAAA1"%string;
     tokenURI := fun rpc t => if isPrimary rpc then None else Some "ipfs://meta"%string;
     fetchMetadata := fun _ => Some (Some "Ape"%string) |}.

(** A healthy chain with forty-five tokens, every endpoint agreeing;
    token 7 has been burnt and the metadata of odd tokens is missing. *)
Definition healthy : Env :=
  {| NFT_CONTRACT_ADDRESS := "0xC0FFEE";
     APECHAIN_RPC := None;
     totalSupply := fun _ => Some 45%nat;
     ownerOf := fun _ t => if (t =? 7)%nat then None else Some "0xAbC"%string;
     tokenURI := fun _ t => Some ("ipfs://meta/" +:+ Js.toString t);
     fetchMetadata := fun url =>
       if String.eqb url "https://ipfs.io/ipfs/meta/2" then Some (Some "Ape #2"%string)
       else None |}.

(** A chain with twenty-five tokens whose URIs are plain HTTP links,
    every endpoint agreeing; token 4 has been burnt. *)
Definition plainLinks : Env :=
  {| NFT_CONTRACT_ADDRESS := "0xC0FFEE";
     APECHAIN_RPC := Some "https://primary.example"%string;
     totalSupply := fun _ => Some 25%nat;
     ownerOf := fun _ t => if (t =? 4)%nat then None else Some "0xAbC"%string;
     tokenURI := fun _ t => Some ("https://meta.example/" +:+ Js.toString t);
     fetchMetadata := fun url =>
       if String.eqb url "https://meta.example/2" then Some (Some "Ape #2"%string)
       else None |}.

(** *** Further readings of the calls *)

(** The [ownerOf] and the [tokenURI] calls sent for a token. *)
Definition ownerOfCalls (t : nat) (cs : list Call) : nat :=
  length (List.filter (fun c => match c with
                                | CallOwnerOf _ t' => (t' =? t)%nat
                                | _ => false
                                end) cs).

Definition tokenURICalls (t : nat) (cs : list Call) : nat :=
  length (List.filter (fun c => match c with
                                | CallTokenURI _ t' => (t' =? t)%nat
                                | _ => false
                                end) cs).

(** The calls sent for a token, given where its task stands: [o] calls
    of [ownerOf] and [u] calls of [tokenURI], with [n] listed
    endpoints. *)
Definition callInv (n : nat) (task : Task) (o u : nat) : Prop :=
  match task with
  | AwaitOwnerOf i _ => (i < n /\ o = i + 1 /\ u <= i)%nat
  | AwaitTokenURI i _ _ => (i < n /\ o = i + 1 /\ u <= i + 1)%nat
  | _ => (1 <= o <= n /\ u <= o)%nat
  end.

(** A batch in flight, seen from the calls it has sent. *)
Definition callsInFlight (n : nat) (tasks : list (nat * Task)) (st : State) : Prop :=
  List.NoDup (List.map fst tasks)
  /\ Forall (fun p => callInv n (snd p) (ownerOfCalls (fst p) (calls st))
                               (tokenURICalls (fst p) (calls st))) tasks.

End SyncNFTMetadata.


(** ** The single-endpoint ownership sync (src/unnamed/part_000)

    The older copy of the script binds the contract once, to the
    endpoint of [APECHAIN_RPC], and never rebinds it: there is no
    fallback loop and no state shared between the calls of [processNFT]
    other than what they send out.  The metadata is fetched from the
    token URI as it is, without the gateway rewriting. *)

Module SyncNFTMetadataLegacy.

Definition Env := SyncNFTMetadata.Env.
Definition OwnershipRecord := SyncNFTMetadata.OwnershipRecord.
Definition Call := SyncNFTMetadata.Call.

(** What the process has sent out so far: the contract calls and the
    rows handed to the store. *)
Record State := mkState {
  calls : list Call;
  upserts : list OwnershipRecord
}.

(** One call of [processNFT], suspended at one of its [await]s or
    finished. *)
Inductive Task :=
| AwaitOwnerOf                                  (* line 41 *)
| AwaitTokenURI (owner : string)                (* line 42 *)
| AwaitFetch (owner : string) (uri : string)    (* lines 46-47, both awaits *)
| AwaitUpsert                                   (* line 53 *)
| Saved                                         (* line 60 *)
| Failed.                                       (* line 62 *)

Inductive Outcome :=
| Completed (st : State)       (* main ran to its end *)
| FatalError (st : State)      (* process.exit(1), line 83 *)
| OutOfFuel (st : State).      (* the model ran out of loop fuel *)

Definition exitCode (o : Outcome) : option Z :=
  match o with
  | Completed _ => Some 0
  | FatalError _ => Some 1
  | OutOfFuel _ => None
  end.

Definition finalState (o : Outcome) : State :=
  match o with
  | Completed st | FatalError st | OutOfFuel st => st
  end.

Definition settled (t : Task) : bool :=
  match t with
  | Saved | Failed => true
  | _ => false
  end.

Definition issue (c : Call) (st : State) : State :=
  mkState (calls st ++ [c]) (upserts st).

Section Script.

Context (E : Env).

(** Lines 26-34: the one contract binding of the script. *)
Definition nftContract : SyncNFTMetadata.Rpc := SyncNFTMetadata.APECHAIN_RPC E.

(** Lines 44-58: the row, with the name read from the token URI. *)
Definition rowOf (tokenId : nat) (owner uri : string) : OwnershipRecord :=
  SyncNFTMetadata.rowOf E tokenId owner uri.

(** The pending promise of a task resolves and the task runs up to its
    next [await]; a rejected read goes to the [catch] of line 61. *)
Definition resume (tokenId : nat) (task : Task) (st : State) : Task * State :=
  match task with
  | AwaitOwnerOf =>
      match SyncNFTMetadata.ownerOf E nftContract tokenId with
      | Some owner =>
          (AwaitTokenURI owner, issue (SyncNFTMetadata.CallTokenURI nftContract tokenId) st)
      | None => (Failed, st)
      end
  | AwaitTokenURI owner =>
      match SyncNFTMetadata.tokenURI E nftContract tokenId with
      | Some uri => (AwaitFetch owner uri, st)
      | None => (Failed, st)
      end
  | AwaitFetch owner uri =>
      (AwaitUpsert, mkState (calls st) (upserts st ++ [rowOf tokenId owner uri]))
  | AwaitUpsert => (Saved, st)
  | Saved => (Saved, st)
  | Failed => (Failed, st)
  end.

(** [processNFT(tokenId)] up to its first [await]. *)
Definition processNFT (tokenId : nat) (st : State) : (nat * Task) * State :=
  ((tokenId, AwaitOwnerOf), issue (SyncNFTMetadata.CallOwnerOf nftContract tokenId) st).

(** [batch.map(tokenId => processNFT(tokenId))] *)
Fixpoint startAll (batch : list nat) (st : State) : list (nat * Task) * State :=
  match batch with
  | [] => ([], st)
  | t :: rest =>
      let (task, st1) := processNFT t st in
      let (tasks, st2) := startAll rest st1 in
      (task :: tasks, st2)
  end.

(** The promise awaited on behalf of token [c] resolves next. *)
Fixpoint resumeToken (c : nat) (tasks : list (nat * Task)) (st : State)
  : list (nat * Task) * State :=
  match tasks with
  | [] => ([], st)
  | (t, task) :: rest =>
      if (t =? c)%nat then
        let (task', st') := resume t task st in ((t, task') :: rest, st')
      else
        let (rest', st') := resumeToken c rest st in ((t, task) :: rest', st')
  end.

(** Every pending promise resolves once, in token order. *)
Fixpoint resumeAll (tasks : list (nat * Task)) (st : State)
  : list (nat * Task) * State :=
  match tasks with
  | [] => ([], st)
  | (t, task) :: rest =>
      let (task', st1) := resume t task st in
      let (rest', st2) := resumeAll rest st1 in
      ((t, task') :: rest', st2)
  end.

Definition round (p : list (nat * Task) * State) : list (nat * Task) * State :=
  resumeAll (fst p) (snd p).

(** [await Promise.allSettled(...)], with the schedule read as in the
    fallback version.  A task needs at most four resumptions. *)
Fixpoint allSettled (sched : list nat) (tasks : list (nat * Task)) (st : State)
  : list nat * (list (nat * Task) * State) :=
  if forallb (fun p => settled (snd p)) tasks then (sched, (tasks, st))
  else
    match sched with
    | [] => ([], Nat.iter 4 round (tasks, st))
    | c :: sched' =>
        let (tasks', st') := resumeToken c tasks st in
        allSettled sched' tasks' st'
    end.

(** The [for] loop of [main], lines 75-78. *)
Fixpoint batches (fuel i total : nat) (sched : list nat) (st : State) : Outcome :=
  if (i <? total)%nat then
    match fuel with
    | O => OutOfFuel st
    | S fuel' =>
        let (tasks, st1) := startAll (SyncNFTMetadata.batchOf i total) st in
        let (sched', done) := allSettled sched tasks st1 in
        batches fuel' (i + SyncNFTMetadata.BATCH_SIZE) total sched' (snd done)
    end
  else Completed st.

(** Lines 69-85. *)
Definition main (sched : list nat) : Outcome :=
  let st := issue (SyncNFTMetadata.CallTotalSupply nftContract) (mkState [] []) in
  match SyncNFTMetadata.totalSupply E nftContract with
  | None => FatalError st
  | Some total => batches total 0 total sched st
  end.

(** *** Predicates used to state the properties *)

(** The row that the answers of the endpoint prescribe for a token:
    none when a read fails. *)
Definition expectedRows (t : nat) : list OwnershipRecord :=
  match SyncNFTMetadata.ownerOf E nftContract t, SyncNFTMetadata.tokenURI E nftContract t with
  | Some o, Some u => [rowOf t o u]
  | _, _ => []
  end.

(** The rows of a token, given where its task stands. *)
Definition taskInv (t : nat) (task : Task) (rows : list OwnershipRecord) : Prop :=
  match task with
  | AwaitOwnerOf => rows = []
  | AwaitTokenURI o => rows = [] /\ SyncNFTMetadata.ownerOf E nftContract t = Some o
  | AwaitFetch o u =>
      rows = [] /\ SyncNFTMetadata.ownerOf E nftContract t = Some o
      /\ SyncNFTMetadata.tokenURI E nftContract t = Some u
  | AwaitUpsert | Saved => rows = expectedRows t
  | Failed => rows = [] /\ expectedRows t = []
  end.

(** A batch in flight: one task per token, each in step with the rows
    of its token. *)
Definition batchInv (tasks : list (nat * Task)) (st : State) : Prop :=
  List.NoDup (List.map fst tasks)
  /\ Forall (fun p => taskInv (fst p) (snd p)
                               (SyncNFTMetadata.rowsOf (fst p) (upserts st))) tasks.

(** An upper bound on the resumptions a task still needs. *)
Definition stepsLeft (task : Task) : nat :=
  match task with
  | AwaitOwnerOf => 4
  | AwaitTokenURI _ => 3
  | AwaitFetch _ _ => 2
  | AwaitUpsert => 1
  | Saved | Failed => 0
  end.

(** Executions of a batch: any number of resumptions of any of its
    tasks, in any order. *)
Inductive reaches : list (nat * Task) -> State -> list (nat * Task) -> State -> Prop :=
| reaches_refl tasks st : reaches tasks st tasks st
| reaches_step pre t task post st tasks' st' :
    reaches (pre ++ (t, fst (resume t task st)) :: post) (snd (resume t task st)) tasks' st' ->
    reaches (pre ++ (t, task) :: post) st tasks' st'.

End Script.

End SyncNFTMetadataLegacy.


(** * Properties *)

(** ** Library models *)

Example formatUnits_one_ether :
  Ethers.formatUnits 1000000000000000000 18 = "1.0"%string.
Proof. vm_compute. reflexivity. Qed.

Example formatUnits_mixed :
  Ethers.formatUnits 1234500000000000000 18 = "1.2345"%string
  /\ Ethers.formatUnits 5 18 = "0.000000000000000005"%string
  /\ Ethers.formatUnits 0 18 = "0.0"%string
  /\ Ethers.formatUnits 42 0 = "42"%string.
Proof. vm_compute. repeat split; reflexivity. Qed.

Example toLowerCase_address :
  Js.toLowerCase "0xAbCdEF0123" = "0xabcdef0123"%string.
Proof. reflexivity. Qed.

(** ** syncSeaportOrders.js: the event loop of a pass *)

Section SeaportRuns.

Import SyncSeaportOrders.

Context (E : Env).

Lemma chunkScans_app (a b : list Effect) :
  chunkScans (a ++ b) = chunkScans a ++ chunkScans b.
Proof. apply omap_app. Qed.

Lemma posts_app (a b : list Effect) : posts (a ++ b) = posts a ++ posts b.
Proof. apply omap_app. Qed.

Lemma queries_app (a b : list Effect) : queries (a ++ b) = queries a ++ queries b.
Proof. apply omap_app. Qed.

Lemma sleeps_app (a b : list Effect) : sleeps (a ++ b) = sleeps a ++ sleeps b.
Proof. apply omap_app. Qed.

Lemma since_app (w w' : World) (d : list Effect) :
  trace w' = trace w ++ d -> since w w' = d.
Proof. intros H. unfold since. rewrite H. apply drop_app_length. Qed.

(** One iteration of the loop over events: a POST that never throws,
    exactly one [Post] in the trace, a counter bumped on success. *)
Lemma forEvents_step (kind : EventName) (ev : LogEntry) (rest : list LogEntry) (w : World) :
  throws E kind ev = false ->
  exists w1 d,
    forEvents E kind (ev :: rest) w = forEvents E kind rest w1
    /\ trace w1 = trace w ++ Post (payloadOf E kind ev) :: d
    /\ provider w1 = provider w
    /\ posts d = [] /\ chunkScans d = [] /\ queries d = [].
Proof.
  intros Hread. cbn [forEvents]. rewrite Hread.
  unfold postOrderEvent, bind, next_tick, log, ret, count.
  destruct kind; cbn;
    destruct (backend E (tick w) _); cbn;
    eexists; eexists; (split; [reflexivity|]); cbn; rewrite <- ?app_assoc; cbn;
    (split; [reflexivity|]); auto.
Qed.

(** The loop over the events of one sub-range posts the normalised
    events in order, up to the first one whose arguments throw; it
    returns when none does and throws otherwise. *)
Lemma forEvents_run (kind : EventName) (events : list LogEntry) :
  forall w, exists w' d,
    forEvents E kind events w
    = ((if allRead E kind events then Return tt else Throw), w')
    /\ trace w' = trace w ++ d
    /\ provider w' = provider w
    /\ posts d = List.map (payloadOf E kind) (reached E kind events)
    /\ chunkScans d = [] /\ queries d = [].
Proof.
  induction events as [|ev rest IH]; intros w.
  - exists w, []. cbn. rewrite app_nil_r. repeat split; reflexivity.
  - destruct (throws E kind ev) eqn:Hread.
    + exists w, []. cbn [forEvents allRead forallb reached]. rewrite Hread.
      cbn. rewrite app_nil_r. repeat split; reflexivity.
    + destruct (forEvents_step kind ev rest w Hread)
        as (w1 & d0 & Heq & Ht & Hp & Hp1 & Hp2 & Hp3).
      destruct (IH w1) as (w' & d & Hrun & Htr & Hpr & Hpo & Hcs & Hq).
      exists w', (Post (payloadOf E kind ev) :: d0 ++ d).
      rewrite Heq, Hrun. cbn [allRead forallb reached]. rewrite Hread.
      split; [reflexivity|].
      change (Post ?p :: ?l) with ([Post p] ++ l).
      rewrite !posts_app, !chunkScans_app, !queries_app, Hp1, Hp2, Hp3, Hpo, Hcs, Hq.
      repeat split; try reflexivity.
      * rewrite Htr, Ht. change (Post ?p :: ?l) with ([Post p] ++ l).
        rewrite <- !app_assoc. reflexivity.
      * congruence.
Qed.

(** The retried query, case by case: [n] failed attempts, then either an
    answer or, after the fourth failure, the exception. *)
Lemma safeQueryFilter_run (kind : EventName) (from to : Z) (w : World) :
  exists n, (n <= 3)%nat
    /\ (forall i, (i < n)%nat -> answerAt E w kind from to i = None)
    /\ ((exists logs, answerAt E w kind from to n = Some logs
           /\ safeQueryFilter E kind from to w
              = (Return logs, after w (n + 1) (retryTrace kind from to n)))
        \/ (n = 3%nat /\ answerAt E w kind from to 3 = None
            /\ safeQueryFilter E kind from to w
               = (Throw, after w 4 (retryTrace kind from to 3)))).
Proof.
  unfold answerAt, after, safeQueryFilter.
  destruct w as [t tr p a f c]; cbn [tick trace provider totalActive totalFulfilled totalCancelled].
  assert (Hlt : forall (n : nat) (P : nat -> Prop),
             (forall i, (i < n)%nat -> P i) <-> Forall P (seq 0 n)).
  { intros n P. rewrite List.Forall_forall. split; intros H i Hi.
    - apply H. apply in_seq in Hi. lia.
    - apply H. apply in_seq. lia. }
  destruct p as [rpc|].
  - destruct (queryFilter E (t + 0) rpc kind from to) as [l0|] eqn:H0.
    { exists 0%nat. split; [lia|]. split; [intros; lia|]. left. exists l0.
      split; [exact H0|].
      rewrite Nat.add_0_r in H0.
      unfold safeQueryFilter_rec, try_catch, bind, get_provider, next_tick, log, await, ret; cbn.
      rewrite H0. cbn. rewrite Nat.add_1_r. reflexivity. }
    destruct (queryFilter E (t + 1) rpc kind from to) as [l1|] eqn:H1.
    { exists 1%nat. split; [lia|]. split.
      { apply Hlt. repeat constructor; assumption. }
      left. exists l1. split; [exact H1|].
      rewrite Nat.add_0_r in H0. rewrite Nat.add_1_r in H1.
      unfold safeQueryFilter_rec, try_catch, bind, get_provider, next_tick, log, await, ret, throw; cbn.
      rewrite H0. cbn. rewrite H1. cbn.
      rewrite <- !app_assoc. cbn. do 2 f_equal. f_equal. lia. }
    destruct (queryFilter E (t + 2) rpc kind from to) as [l2|] eqn:H2.
    { exists 2%nat. split; [lia|]. split.
      { apply Hlt. repeat constructor; assumption. }
      left. exists l2. split; [exact H2|].
      rewrite Nat.add_0_r in H0. rewrite Nat.add_1_r in H1.
      replace (t + 2)%nat with (S (S t)) in H2 by lia.
      unfold safeQueryFilter_rec, try_catch, bind, get_provider, next_tick, log, await, ret, throw; cbn.
      rewrite H0. cbn. rewrite H1. cbn. rewrite H2. cbn.
      rewrite <- !app_assoc. cbn. do 2 f_equal. f_equal. lia. }
    destruct (queryFilter E (t + 3) rpc kind from to) as [l3|] eqn:H3.
    { exists 3%nat. split; [lia|]. split.
      { apply Hlt. repeat constructor; assumption. }
      left. exists l3. split; [exact H3|].
      rewrite Nat.add_0_r in H0. rewrite Nat.add_1_r in H1.
      replace (t + 2)%nat with (S (S t)) in H2 by lia.
      replace (t + 3)%nat with (S (S (S t))) in H3 by lia.
      unfold safeQueryFilter_rec, try_catch, bind, get_provider, next_tick, log, await, ret, throw; cbn.
      rewrite H0. cbn. rewrite H1. cbn. rewrite H2. cbn. rewrite H3. cbn.
      rewrite <- !app_assoc. cbn. do 2 f_equal. f_equal. lia. }
    exists 3%nat. split; [lia|]. split.
    { apply Hlt. repeat constructor; assumption. }
    right. split; [reflexivity|]. split; [first [exact H3 | reflexivity]|].
    rewrite Nat.add_0_r in H0. rewrite Nat.add_1_r in H1.
    replace (t + 2)%nat with (S (S t)) in H2 by lia.
    replace (t + 3)%nat with (S (S (S t))) in H3 by lia.
    unfold safeQueryFilter_rec, try_catch, bind, get_provider, next_tick, log, await, ret, throw; cbn.
    rewrite H0. cbn. rewrite H1. cbn. rewrite H2. cbn. rewrite H3. cbn.
    rewrite <- !app_assoc. cbn. do 2 f_equal. f_equal. lia.
  - exists 3%nat. split; [lia|]. split; [reflexivity|].
    right. split; [reflexivity|]. split; [reflexivity|].
    unfold safeQueryFilter_rec, try_catch, bind, get_provider, next_tick, log, await, ret, throw; cbn.
    rewrite <- !app_assoc. cbn. do 2 f_equal. f_equal. lia.
Qed.

Lemma retryTrace_quiet (kind : EventName) (from to : Z) (n : nat) :
  chunkScans (retryTrace kind from to n) = []
  /\ posts (retryTrace kind from to n) = [].
Proof.
  unfold retryTrace. generalize (seq 1 n) as js.
  induction js as [|j js [IH1 IH2]]; [split; reflexivity|].
  cbn in *. split; assumption.
Qed.

(** A retried query leaves [n + 1] attempts and [n] sleeps of
    2000, 4000, ... milliseconds in the trace. *)
Lemma retryTrace_attempts (kind : EventName) (from to : Z) (n : nat) :
  queries (retryTrace kind from to n) = List.repeat (kind, from, to) (S n)
  /\ sleeps (retryTrace kind from to n)
     = List.map (fun j => 2000 * Z.of_nat j) (seq 1 n).
Proof.
  unfold retryTrace.
  change (QueryFilter kind from to :: ?l) with ([QueryFilter kind from to] ++ l).
  rewrite queries_app, sleeps_app.
  assert (H : forall js,
             queries (List.concat (List.map (fun j => [RetryWarn j; Sleep (2000 * Z.of_nat j);
                                       QueryFilter kind from to]) js))
             = List.repeat (kind, from, to) (length js)
             /\ sleeps (List.concat (List.map (fun j => [RetryWarn j; Sleep (2000 * Z.of_nat j);
                                       QueryFilter kind from to]) js))
               = List.map (fun j => 2000 * Z.of_nat j) js).
  { induction js as [|j js [IH1 IH2]]; [split; reflexivity|].
    cbn [List.map List.concat length].
    rewrite !queries_app, !sleeps_app, IH1, IH2. split; reflexivity. }
  destruct (H (seq 1 n)) as [H1 H2]. rewrite H1, H2, length_seq.
  split; reflexivity.
Qed.

(** One pass over one sub-range: either some attempt answered and its
    logs were posted, up to the first one whose arguments throw, or all
    four attempts failed and the callback threw without posting. *)
Lemma scanCallback_run (kind : EventName) (s e : Z) (w : World) :
  (exists n logs w' d,
      (n <= 3)%nat
      /\ answerAt E w kind s e n = Some logs
      /\ scanCallback E kind s e w
         = ((if allRead E kind logs then Return tt else Throw), w')
      /\ trace w' = trace w ++ retryTrace kind s e n ++ d
      /\ provider w' = provider w
      /\ chunkScans d = [] /\ queries d = []
      /\ posts d = List.map (payloadOf E kind) (reached E kind logs))
  \/ ((forall i, (i <= 3)%nat -> answerAt E w kind s e i = None)
      /\ scanCallback E kind s e w = (Throw, after w 4 (retryTrace kind s e 3))).
Proof.
  destruct (safeQueryFilter_run kind s e w) as (n & Hn & Hfail & [(logs & Hans & Hrun)|(-> & Hans & Hrun)]).
  - left.
    destruct (forEvents_run kind logs (after w (n + 1) (retryTrace kind s e n)))
      as (w' & d & Hfor & Htr & Hpr & Hpo & Hcs & Hq).
    exists n, logs, w', d.
    unfold scanCallback, bind. rewrite Hrun, Hfor.
    repeat split; auto.
    rewrite Htr. cbn. rewrite <- app_assoc. reflexivity.
  - right. split.
    + intros i Hi. destruct (decide (i = 3%nat)) as [->|]; [assumption|].
      apply Hfail. lia.
    + unfold scanCallback, bind. rewrite Hrun. reflexivity.
Qed.

Lemma scanCallback_settles (kind : EventName) :
  settles (passSegment E kind) (scanCallback E kind).
Proof.
  intros s e w.
  destruct (scanCallback_run kind s e w)
    as [(n & logs & w' & d & Hn & Hans & Hrun & Htr & Hpr & Hcs & Hq & Hpo)|(Hfail & Hrun)].
  - exists w', (retryTrace kind s e n ++ d).
    split; [rewrite Hrun; destruct (allRead E kind logs); [left|right]; reflexivity|].
    split; [exact Htr|].
    destruct (retryTrace_quiet kind s e n) as [Hc Hp].
    destruct (retryTrace_attempts kind s e n) as [Hqs _].
    split; [|split].
    + rewrite chunkScans_app, Hc, Hcs. reflexivity.
    + right. unfold answerAt in Hans. destruct (provider w) as [rpc|]; [|discriminate].
      exists (tick w + n)%nat, rpc, logs. split; [exact Hans|].
      rewrite posts_app, Hp, Hpo. reflexivity.
    + exists n. split; [exact Hn|]. rewrite queries_app, Hqs, Hq. apply app_nil_r.
  - exists (after w 4 (retryTrace kind s e 3)), (retryTrace kind s e 3).
    split; [right; exact Hrun|]. split; [reflexivity|].
    destruct (retryTrace_quiet kind s e 3) as [Hc Hp].
    destruct (retryTrace_attempts kind s e 3) as [Hqs _].
    split; [exact Hc|]. split; [left; exact Hp|].
    exists 3%nat. split; [lia|exact Hqs].
Qed.

(** One pass over one sub-range whose query is answered at the attempt
    numbered [n]. *)
Lemma scanCallback_answered (kind : EventName) (s e : Z) (w : World)
      (n : nat) (logs : list LogEntry) :
  (n <= 3)%nat ->
  (forall i, (i < n)%nat -> answerAt E w kind s e i = None) ->
  answerAt E w kind s e n = Some logs ->
  exists w' d,
    scanCallback E kind s e w = ((if allRead E kind logs then Return tt else Throw), w')
    /\ trace w' = trace w ++ retryTrace kind s e n ++ d
    /\ posts d = List.map (payloadOf E kind) (reached E kind logs)
    /\ chunkScans d = [] /\ queries d = [].
Proof.
  intros Hn Hfail Hans.
  destruct (safeQueryFilter_run kind s e w) as (m & Hm & Hfm & Hcase).
  assert (Hmn : m = n).
  { destruct (lt_eq_lt_dec m n) as [[Hlt|Heq]|Hgt]; [|exact Heq|].
    - destruct Hcase as [(l & Hl & _)|(-> & _)]; [|lia].
      rewrite (Hfail m Hlt) in Hl. discriminate.
    - rewrite (Hfm n Hgt) in Hans. discriminate. }
  subst m.
  destruct Hcase as [(l & Hl & Hsq)|(Heq & Hnone & _)].
  2:{ rewrite <- Heq, Hans in Hnone. discriminate. }
  rewrite Hans in Hl. injection Hl as <-.
  destruct (forEvents_run kind logs (after w (n + 1) (retryTrace kind s e n)))
    as (w2 & d2 & Hfe & Htr2 & _ & Hpo2 & Hcs2 & Hq2).
  exists w2, d2. split; [unfold scanCallback, bind; rewrite Hsq; exact Hfe|].
  split; [rewrite Htr2; cbn; rewrite <- app_assoc; reflexivity|].
  split; [exact Hpo2|]. split; assumption.
Qed.

(** *** The chunked loop *)

Lemma chunks_fuel_irrelevant (fuel : nat) :
  forall fuel' start to,
    (Z.to_nat (to - start + 1) <= fuel)%nat ->
    (Z.to_nat (to - start + 1) <= fuel')%nat ->
    chunks fuel start to = chunks fuel' start to.
Proof.
  induction fuel as [|fuel IH]; intros fuel' start to Hf Hf'.
  - assert (Hlt : to < start) by lia. apply Z.leb_gt in Hlt.
    destruct fuel'; cbn; rewrite Hlt; reflexivity.
  - cbn [chunks]. destruct (start <=? to) eqn:Hle.
    2:{ destruct fuel'; cbn; rewrite Hle; reflexivity. }
    apply Z.leb_le in Hle.
    destruct fuel' as [|fuel']; [lia|].
    cbn [chunks]. apply Z.leb_le in Hle as Hle'. rewrite Hle'. f_equal.
    apply IH; unfold CHUNK; lia.
Qed.

Lemma chunks_fuel_enough (fuel : nat) (start to : Z) :
  (Z.to_nat (to - start + 1) <= fuel)%nat ->
  chunks fuel start to = subRanges start to.
Proof. intros Hf. unfold subRanges. apply chunks_fuel_irrelevant; lia. Qed.

(** The loop with enough fuel: it completes, and its trace is the
    concatenation of the per-chunk segments in range order. *)
Lemma queryInChunks_loop_run (P : Z -> Z -> list Effect -> Prop)
      (cb : Z -> Z -> M unit) (Hcb : settles P cb) (fuel : nat) :
  forall start to w,
    (Z.to_nat (to - start + 1) <= fuel)%nat ->
    exists w' d,
      queryInChunks_loop fuel cb start to w = (Return tt, w')
      /\ trace w' = trace w ++ d
      /\ scanTrace P (subRanges start to) d.
Proof.
  induction fuel as [|fuel IH]; intros start to w Hf.
  - assert (Hlt : to < start) by lia.
    exists w, []. cbn. apply Z.leb_gt in Hlt as Hlt'. rewrite Hlt'.
    rewrite app_nil_r. repeat split; try reflexivity.
    unfold subRanges. replace (Z.to_nat (to - start + 1)) with 0%nat by lia.
    cbn. rewrite Hlt'. constructor.
  - rewrite <- (chunks_fuel_enough (S fuel)) by exact Hf.
    cbn [queryInChunks_loop chunks].
    destruct (start <=? to) eqn:Hle.
    2:{ exists w, []. rewrite app_nil_r. repeat split; try reflexivity. constructor. }
    apply Z.leb_le in Hle.
    set (end_ := Z.min (start + CHUNK) to).
    assert (Hb : (Z.to_nat (to - (end_ + 1) + 1) <= fuel)%nat).
    { subst end_. unfold CHUNK. lia. }
    rewrite (chunks_fuel_enough fuel) by exact Hb.
    destruct (Hcb start end_ (snd (log (ChunkScan start end_) w)))
      as (w1 & d1 & Hrun & Htr1 & HP).
    cbn in Hrun, Htr1.
    destruct Hrun as [Hrun|Hrun].
    + destruct (IH (end_ + 1) to w1 Hb) as (w' & d & Hloop & Htr & Hscan).
      exists w', (ChunkScan start end_ :: d1 ++ [] ++ d).
      unfold bind, try_catch, log. cbn. rewrite Hrun, Hloop.
      split; [reflexivity|]. split.
      * rewrite Htr, Htr1. rewrite <- !app_assoc. reflexivity.
      * apply (scan_chunk P start end_ d1 false); assumption.
    + destruct (IH (end_ + 1) to (snd (log ChunkError w1)) Hb) as (w' & d & Hloop & Htr & Hscan).
      exists w', (ChunkScan start end_ :: d1 ++ [ChunkError] ++ d).
      unfold bind, try_catch. cbn. rewrite Hrun. cbn in Hloop |- *. rewrite Hloop.
      split; [reflexivity|]. split.
      * rewrite Htr. cbn. rewrite Htr1. rewrite <- !app_assoc. reflexivity.
      * apply (scan_chunk P start end_ d1 true); assumption.
Qed.

(** *** The sub-ranges *)

Lemma subRanges_empty (from to : Z) : to < from -> subRanges from to = [].
Proof.
  intros H. unfold subRanges. apply Z.leb_gt in H.
  destruct (Z.to_nat (to - from + 1)); cbn; rewrite H; reflexivity.
Qed.

Lemma subRanges_unfold (from to : Z) :
  from <= to ->
  subRanges from to
  = (from, Z.min (from + CHUNK) to) :: subRanges (Z.min (from + CHUNK) to + 1) to.
Proof.
  intros H. rewrite <- (chunks_fuel_enough (S (Z.to_nat (to - from + 1)))) by lia.
  cbn [chunks]. apply Z.leb_le in H as H'. rewrite H'. f_equal.
  apply chunks_fuel_enough. unfold CHUNK. lia.
Qed.

(** Induction over the sub-ranges of [from, to]. *)
Lemma subRanges_ind (to : Z) (P : Z -> list (Z * Z) -> Prop) :
  (forall from, to < from -> P from []) ->
  (forall from, from <= to ->
     P (Z.min (from + CHUNK) to + 1) (subRanges (Z.min (from + CHUNK) to + 1) to) ->
     P from ((from, Z.min (from + CHUNK) to) :: subRanges (Z.min (from + CHUNK) to + 1) to)) ->
  forall from, P from (subRanges from to).
Proof.
  intros Hnil Hcons from.
  remember (Z.to_nat (to - from + 1)) as n eqn:Hn.
  revert from Hn. induction n as [n IH] using lt_wf_ind. intros from Hn.
  destruct (Z_lt_le_dec to from) as [Hlt|Hle].
  - rewrite subRanges_empty by exact Hlt. apply Hnil, Hlt.
  - rewrite subRanges_unfold by exact Hle. apply Hcons; [exact Hle|].
    apply (IH (Z.to_nat (to - (Z.min (from + CHUNK) to + 1) + 1))); [|reflexivity].
    unfold CHUNK. lia.
Qed.

Lemma subRanges_tiles (to from : Z) : from <= to + 1 -> tiles from to (subRanges from to).
Proof.
  revert from. apply (subRanges_ind to (fun from l => from <= to + 1 -> tiles from to l)).
  - intros from Hlt Hle. cbn. lia.
  - intros from Hle IH _. cbn [tiles]. unfold CHUNK in *.
    repeat split; try lia. apply IH. lia.
Qed.

Lemma subRanges_length (to from : Z) :
  from <= to + 1 ->
  Z.of_nat (length (subRanges from to)) = ceilDiv (to - from + 1) (CHUNK + 1).
Proof.
  revert from.
  apply (subRanges_ind to (fun from l =>
           from <= to + 1 -> Z.of_nat (length l) = ceilDiv (to - from + 1) (CHUNK + 1))).
  - intros from Hlt Hle. assert (from = to + 1) as -> by lia.
    unfold ceilDiv, CHUNK. replace (to - (to + 1) + 1 + (5000 + 1) - 1) with 5000 by lia.
    reflexivity.
  - intros from Hle IH _. cbn [length]. rewrite Nat2Z.inj_succ, IH by lia.
    unfold ceilDiv, CHUNK.
    destruct (Z_le_gt_dec to (from + 5000)) as [Hnear|Hfar].
    + rewrite Z.min_r by lia.
      replace (to - (to + 1) + 1 + (5000 + 1) - 1) with 5000 by lia.
      change (Z.succ (5000 `div` (5000 + 1))) with 1.
      apply Z.div_unique with (r := to - from); lia.
    + rewrite Z.min_l by lia.
      replace (to - from + 1 + (5000 + 1) - 1) with ((to - from) + 1 * 5001) by lia.
      change (5000 + 1) with 5001.
      rewrite Z.div_add by lia.
      replace (to - (from + 5000 + 1) + 1 + 5001 - 1) with (to - from) by lia.
      lia.
Qed.

(** *** Reading a scan trace *)

Lemma scanTrace_chunkScans (P : Z -> Z -> list Effect -> Prop) cs d :
  (forall s e d', P s e d' -> chunkScans d' = []) ->
  scanTrace P cs d -> chunkScans d = cs.
Proof.
  intros HP H. induction H as [|s e d threw rest tail Hd Hrest IH]; [reflexivity|].
  change (ChunkScan s e :: ?l) with ([ChunkScan s e] ++ l).
  rewrite !chunkScans_app, (HP _ _ _ Hd), IH. destruct threw; reflexivity.
Qed.

Lemma StronglySorted_app_le (l1 l2 : list Z) :
  StronglySorted Z.le l1 -> StronglySorted Z.le l2 ->
  (forall x y, In x l1 -> In y l2 -> x <= y) ->
  StronglySorted Z.le (l1 ++ l2).
Proof.
  intros H1 H2 Hle. induction H1 as [|a l Hl IH Ha]; [exact H2|].
  cbn. constructor.
  - apply IH. intros x y Hx Hy. apply Hle; [right; exact Hx|exact Hy].
  - apply List.Forall_forall. intros y Hy. apply in_app_or in Hy as [Hy|Hy].
    + rewrite List.Forall_forall in Ha. apply Ha, Hy.
    + apply Hle; [left; reflexivity|exact Hy].
Qed.

Lemma onChainBlock_payloadOf (kind : EventName) (logs : list LogEntry) :
  List.map onChainBlock (List.map (payloadOf E kind) logs) = List.map blockNumber logs.
Proof.
  rewrite List.map_map. apply List.map_ext. intros ev. destruct kind; reflexivity.
Qed.

(** The events reached by the loop are a prefix of the list. *)
Lemma reached_prefix (kind : EventName) (logs : list LogEntry) :
  exists rest, logs = reached E kind logs ++ rest.
Proof.
  induction logs as [|ev logs [rest IH]]; [exists []; reflexivity|].
  cbn [reached]. destruct (throws E kind ev).
  - exists (ev :: logs). reflexivity.
  - exists rest. cbn. rewrite <- IH. reflexivity.
Qed.

Lemma reached_Forall (kind : EventName) (P : LogEntry -> Prop) (logs : list LogEntry) :
  Forall P logs -> Forall P (reached E kind logs).
Proof.
  destruct (reached_prefix kind logs) as [rest Hrest]. intros H.
  rewrite Hrest in H. apply Forall_app in H as [H _]. exact H.
Qed.

Lemma reached_sorted (kind : EventName) (logs : list LogEntry) :
  StronglySorted Z.le (List.map blockNumber logs) ->
  StronglySorted Z.le (List.map blockNumber (reached E kind logs)).
Proof.
  induction logs as [|ev logs IH]; intros H; [constructor|].
  cbn [reached]. destruct (throws E kind ev); [constructor|].
  cbn [List.map] in *. apply StronglySorted_inv in H as [Hs Hall].
  constructor; [apply IH, Hs|].
  apply List.Forall_forall. intros b Hb. rewrite List.Forall_forall in Hall. apply Hall.
  apply in_map_iff in Hb as (l & <- & Hl). apply in_map.
  destruct (reached_prefix kind logs) as [rest Hrest]. rewrite Hrest.
  apply in_or_app. left. exact Hl.
Qed.

Lemma reached_all (kind : EventName) (logs : list LogEntry) :
  allRead E kind logs = true -> reached E kind logs = logs.
Proof.
  induction logs as [|ev logs IH]; [reflexivity|].
  cbn [allRead forallb reached]. destruct (throws E kind ev); [discriminate|].
  cbn. intros H. rewrite IH by exact H. reflexivity.
Qed.

(** The queries of a scan are those of its sub-ranges, in order, each
    attempted between one and four times. *)
Lemma scanTrace_queries (kind : EventName) cs d :
  scanTrace (passSegment E kind) cs d ->
  exists attempts,
    length attempts = length cs
    /\ Forall (fun a => (1 <= a <= 4)%nat) attempts
    /\ queries d = retried kind cs attempts.
Proof.
  intros H.
  induction H as [|s e d threw rest tail (_ & _ & n & Hn & Hq) Hrest (attempts & Hlen & Hall & IH)].
  - exists []. repeat split; constructor.
  - exists (S n :: attempts). split; [cbn; lia|]. split; [constructor; [lia|exact Hall]|].
    change (ChunkScan s e :: ?l) with ([ChunkScan s e] ++ l).
    rewrite !queries_app, Hq, IH.
    assert (Hthrew : queries (if threw then [ChunkError] else []) = []) by (destruct threw; reflexivity).
    rewrite Hthrew. reflexivity.
Qed.

(** With an ordered provider, the POSTs of a scan whose sub-ranges tile
    [from, to] are in non-decreasing block order. *)
Lemma scanTrace_sorted (kind : EventName) (to : Z) cs d :
  orderedProvider E ->
  scanTrace (passSegment E kind) cs d ->
  forall from, tiles from to cs ->
    StronglySorted Z.le (List.map onChainBlock (posts d))
    /\ Forall (fun b => from <= b) (List.map onChainBlock (posts d)).
Proof.
  intros Hord H.
  induction H as [|s e d threw rest tail (Hcs & Hd & _) Hrest IH]; intros from Ht.
  - cbn. split; constructor.
  - cbn [tiles] in Ht. destruct Ht as (-> & Hse & Hw & Ht).
    destruct (IH _ Ht) as [IHs IHf].
    change (ChunkScan from e :: ?l) with ([ChunkScan from e] ++ l).
    rewrite !posts_app.
    assert (Hthrew : posts (if threw then [ChunkError] else []) = []) by (destruct threw; reflexivity).
    rewrite Hthrew. change (posts [ChunkScan from e]) with (@nil Payload).
    rewrite !app_nil_l, List.map_app.
    assert (Hseg : StronglySorted Z.le (List.map onChainBlock (posts d))
                   /\ Forall (fun b => from <= b <= e) (List.map onChainBlock (posts d))).
    { destruct Hd as [->|(t & rpc & logs & Hq & ->)]; [split; constructor|].
      rewrite onChainBlock_payloadOf.
      destruct (Hord _ _ _ _ _ _ Hq) as [Hin Hs].
      split; [apply reached_sorted, Hs|].
      apply List.Forall_map, reached_Forall. exact Hin. }
    destruct Hseg as [Hs1 Hf1]. rewrite List.Forall_forall in Hf1, IHf. split.
    + apply StronglySorted_app_le; [exact Hs1|exact IHs|].
      intros x y Hx Hy. specialize (Hf1 _ Hx). specialize (IHf _ Hy). lia.
    + apply List.Forall_forall. intros b Hb. apply in_app_or in Hb as [Hb|Hb].
      * specialize (Hf1 _ Hb). lia.
      * specialize (IHf _ Hb). lia.
Qed.

(** The loop does not depend on the fuel once there is enough of it. *)
Lemma queryInChunks_loop_fuel (cb : Z -> Z -> M unit) (fuel : nat) :
  forall fuel' start to w,
    (Z.to_nat (to - start + 1) <= fuel)%nat ->
    (Z.to_nat (to - start + 1) <= fuel')%nat ->
    queryInChunks_loop fuel cb start to w = queryInChunks_loop fuel' cb start to w.
Proof.
  induction fuel as [|fuel IH]; intros fuel' start to w Hf Hf'.
  - assert (Hlt : to < start) by lia. apply Z.leb_gt in Hlt.
    destruct fuel'; cbn; rewrite Hlt; reflexivity.
  - cbn [queryInChunks_loop]. destruct (start <=? to) eqn:Hle.
    2:{ destruct fuel'; cbn; rewrite Hle; reflexivity. }
    apply Z.leb_le in Hle.
    destruct fuel' as [|fuel']; [lia|].
    cbn [queryInChunks_loop]. apply Z.leb_le in Hle as Hle'. rewrite Hle'.
    unfold bind.
    destruct (log (ChunkScan start (Z.min (start + CHUNK) to)) w) as [[[]| | |] w1]; try reflexivity.
    destruct (try_catch _ _ w1) as [[[]| | |] w2]; try reflexivity.
    apply IH; unfold CHUNK; lia.
Qed.

(** One iteration of the loop: the sub-range is announced, the callback
    runs, and the loop resumes strictly further on. *)
Lemma queryInChunks_loop_step (P : Z -> Z -> list Effect -> Prop)
      (cb : Z -> Z -> M unit) (Hcb : settles P cb) (fuel : nat) (start to : Z) (w : World) :
  start <= to ->
  exists w1,
    queryInChunks_loop (S fuel) cb start to w
    = queryInChunks_loop fuel cb (Z.min (start + CHUNK) to + 1) to w1
    /\ start < Z.min (start + CHUNK) to + 1.
Proof.
  intros Hle. cbn [queryInChunks_loop]. apply Z.leb_le in Hle as Hle'. rewrite Hle'.
  destruct (Hcb start (Z.min (start + CHUNK) to)
                (snd (log (ChunkScan start (Z.min (start + CHUNK) to)) w)))
    as (w1 & d1 & Hrun & _).
  unfold bind, try_catch. cbn in Hrun |- *.
  destruct Hrun as [Hrun|Hrun]; rewrite Hrun; cbn.
  - exists w1. split; [reflexivity|]. unfold CHUNK. lia.
  - eexists. split; [reflexivity|]. unfold CHUNK. lia.
Qed.

End SeaportRuns.

(** ** The arithmetic of numbers *)

Section NumberArithmetic.

Import SyncSeaportOrders.

(** Integers of magnitude up to [2 ^ 53] are doubles. *)
Lemma nearestDouble_exact (z : Z) : Z.abs z <= 2 ^ 53 -> Js.nearestDouble z = z.
Proof.
  intros H. unfold Js.nearestDouble.
  destruct (Z.eq_dec (Z.abs z) (2 ^ 53)) as [Heq|Hne].
  - destruct (Z.abs_spec z) as [[_ Ha]|[_ Ha]]; rewrite Ha in Heq.
    + subst z. reflexivity.
    + assert (z = - 2 ^ 53) as -> by lia. reflexivity.
  - assert (Hlt : Z.abs z < 2 ^ 53) by lia.
    destruct (Z.eq_dec (Z.abs z) 0) as [H0|H0].
    + rewrite H0. reflexivity.
    + assert (Hpos : 0 < Z.abs z) by lia.
      apply (Z.log2_lt_pow2 _ 53 Hpos) in Hlt.
      destruct (Z.leb_spec (Z.log2 (Z.abs z) - 52) 0); [reflexivity|lia].
Qed.

(** Rounding never takes a number from above [2 ^ 53] to below it. *)
Lemma nearestDouble_ge (z : Z) : 2 ^ 53 <= z -> 2 ^ 53 <= Js.nearestDouble z.
Proof.
  intros H. unfold Js.nearestDouble.
  destruct (Z.leb_spec (Z.log2 (Z.abs z) - 52) 0) as [_|He]; [exact H|].
  rewrite Z.abs_eq by lia. rewrite Z.abs_eq in He by lia.
  assert (Hz : 0 < z) by lia.
  destruct (Z.log2_spec z Hz) as [Hlo Hhi].
  set (e := Z.log2 z - 52) in *.
  assert (Hl : Z.log2 z = e + 52) by (subst e; lia).
  rewrite Hl in Hlo.
  rewrite Z.pow_add_r in Hlo by lia.
  assert (Hu : 0 < 2 ^ e) by (apply Z.pow_pos_nonneg; lia).
  assert (Hq : 2 ^ 52 <= z / 2 ^ e).
  { apply Z.div_le_lower_bound; [exact Hu|]. lia. }
  rewrite Z.sgn_pos by exact Hz.
  assert (He2 : 2 <= 2 ^ e).
  { change 2 with (2 ^ 1) at 1. apply Z.pow_le_mono_r; lia. }
  set (q := z / 2 ^ e) in *.
  assert (Hq' : q <= (if 2 * (z mod 2 ^ e) <? 2 ^ e then q
                      else if 2 ^ e <? 2 * (z mod 2 ^ e) then q + 1
                      else if Z.even q then q else q + 1)).
  { destruct (_ <? _); [lia|]. destruct (_ <? _); [lia|]. destruct (Z.even q); lia. }
  change (2 ^ 53) with (2 ^ 52 * 2). nia.
Qed.

(** The two additions of an iteration that starts between exact bounds. *)
Lemma iteration_exact (start to : Z) :
  - 2 ^ 53 <= start -> start <= to -> to < 2 ^ 53 ->
  Z.min (Js.add start CHUNK) to = Z.min (start + CHUNK) to
  /\ Js.add (Z.min (start + CHUNK) to) 1 = Z.min (start + CHUNK) to + 1.
Proof.
  intros Hlo Hle Hhi. unfold Js.add, CHUNK. split.
  - destruct (Z_le_gt_dec (start + 5000) (2 ^ 53)) as [Hin|Hout].
    + rewrite nearestDouble_exact by lia. reflexivity.
    + pose proof (nearestDouble_ge (start + 5000) ltac:(lia)). lia.
  - apply nearestDouble_exact. lia.
Qed.

(** Between exact bounds the loop in the arithmetic of numbers is the
    loop on exact integers. *)
Lemma number_loop_exact (cb : Z -> Z -> M unit) (fuel : nat) :
  forall start to w,
    - 2 ^ 53 <= start -> to < 2 ^ 53 ->
    Number.queryInChunks_loop fuel cb start to w = queryInChunks_loop fuel cb start to w.
Proof.
  induction fuel as [|fuel IH]; intros start to w Hlo Hhi; [reflexivity|].
  cbn [Number.queryInChunks_loop queryInChunks_loop].
  destruct (Z.leb_spec start to) as [Hle|Hgt]; [|reflexivity].
  destruct (iteration_exact start to Hlo Hle Hhi) as [-> ->].
  unfold bind.
  destruct (log (ChunkScan start (Z.min (start + CHUNK) to)) w) as [[[]| | |] w1]; try reflexivity.
  destruct (try_catch _ _ w1) as [[[]| | |] w2]; try reflexivity.
  apply IH; unfold CHUNK; lia.
Qed.

Lemma number_scan_exact (cb : Z -> Z -> M unit) (from to : Z) (w : World) :
  Number.exactBounds from to ->
  Number.queryInChunks cb from to w = queryInChunks cb from to w.
Proof. intros [Hlo Hhi]. apply number_loop_exact; assumption. Qed.

(** With the start beyond the end the loop returns at once, whatever
    the numbers. *)
Lemma number_loop_empty (cb : Z -> Z -> M unit) (fuel : nat) (start to : Z) (w : World) :
  to < start -> Number.queryInChunks_loop fuel cb start to w = (Return tt, w).
Proof.
  intros H. apply Z.leb_gt in H. destruct fuel; cbn; rewrite H; reflexivity.
Qed.

End NumberArithmetic.

(** ** syncSeaportOrders.js: scanning, retrying, normalising *)

Section SeaportClaims.

Import SyncSeaportOrders.

(** C2, counterexample.  The range [0, 10001] is wider than [CHUNK], yet
    the scanner issues two sub-queries, [0, 5000] and [5001, 10001],
    whereas the ceiling of range / CHUNK is three whether the range is
    counted as [to - from] or as the number of blocks.  Beyond the safe
    integers the sub-ranges are no partition either: from [2 ^ 53] the
    addition [end + 1] returns [end], so each sub-range starts on the
    last block of the one before. *)
Lemma C2_counterexample :
  CHUNK < 10001 - 0
  /\ chunkScans (since ready
        (snd (Number.queryInChunks (scanCallback steadyChain OrderValidated) 0 10001 ready)))
     = [(0, 5000); (5001, 10001)]
  /\ ceilDiv (10001 - 0) CHUNK = 3
  /\ ceilDiv (10001 - 0 + 1) CHUNK = 3
  /\ chunkScans (since ready
        (snd (Number.queryInChunks (scanCallback steadyChain OrderValidated)
                (2 ^ 53) (2 ^ 53 + 10002) ready)))
     = [(2 ^ 53, 2 ^ 53 + 5000); (2 ^ 53 + 5000, 2 ^ 53 + 10000);
        (2 ^ 53 + 10000, 2 ^ 53 + 10002)].
Proof. vm_compute. repeat split; reflexivity. Qed.

(** C2 (amended).  For every block range [from <= to] between exact
    bounds (in particular of safe integers) and every pass, the
    sub-ranges announced by the scanner tile the range: they start at
    [from], end at [to], follow one another without gap or overlap and
    each spans at most [CHUNK] beyond its first block (so at most
    [CHUNK + 1] blocks); their number is the ceiling of
    [(to - from + 1) / (CHUNK + 1)]; the log queries sent are those of
    the sub-ranges, in order, each attempted between one and four times;
    and, when the provider answers each range query with logs of that
    range in block order, the events are posted in non-decreasing block
    order. *)
Theorem C2_chunked_scan (E : Env) (kind : EventName) (from to : Z) (w : World) :
  from <= to ->
  Number.exactBounds from to ->
  let w' := snd (Number.queryInChunks (scanCallback E kind) from to w) in
  tiles from to (chunkScans (since w w'))
  /\ Z.of_nat (length (chunkScans (since w w'))) = ceilDiv (to - from + 1) (CHUNK + 1)
  /\ (exists attempts,
        length attempts = length (chunkScans (since w w'))
        /\ Forall (fun a => (1 <= a <= 4)%nat) attempts
        /\ queries (since w w') = retried kind (chunkScans (since w w')) attempts)
  /\ (orderedProvider E ->
      StronglySorted Z.le (List.map onChainBlock (posts (since w w')))).
Proof.
  intros Hle Hexact w'. subst w'. rewrite (number_scan_exact _ from to w Hexact).
  destruct (queryInChunks_loop_run (passSegment E kind) (scanCallback E kind)
              (scanCallback_settles E kind) (Z.to_nat (to - from + 1)) from to w
              ltac:(lia)) as (w1 & d & Hrun & Htr & Hscan).
  unfold queryInChunks. rewrite Hrun. cbn [snd]. rewrite (since_app w w1 d Htr).
  assert (Hcs : chunkScans d = subRanges from to).
  { apply (scanTrace_chunkScans (passSegment E kind)); [|exact Hscan].
    intros s e d' [H _]. exact H. }
  rewrite Hcs. split; [apply subRanges_tiles; lia|].
  split; [apply subRanges_length; lia|].
  split; [apply (scanTrace_queries E kind _ _ Hscan)|].
  intros Hord.
  apply (scanTrace_sorted E kind to (subRanges from to) d Hord Hscan from).
  apply subRanges_tiles. lia.
Qed.

Lemma steadyChain_ordered : orderedProvider steadyChain.
Proof.
  intros t rpc kind from to logs H. cbn in H.
  destruct (from <=? to) eqn:Hle; injection H as <-.
  - apply Z.leb_le in Hle. split.
    + repeat constructor; cbn; lia.
    + cbn. repeat constructor; lia.
  - split; constructor.
Qed.

Lemma C2_witness :
  let w' := snd (Number.queryInChunks (scanCallback steadyChain OrderValidated)
                                      0 10001 ready) in
  tiles 0 10001 (chunkScans (since ready w'))
  /\ Z.of_nat (length (chunkScans (since ready w'))) = ceilDiv (10001 - 0 + 1) (CHUNK + 1)
  /\ (exists attempts,
        length attempts = length (chunkScans (since ready w'))
        /\ Forall (fun a => (1 <= a <= 4)%nat) attempts
        /\ queries (since ready w')
           = retried OrderValidated (chunkScans (since ready w')) attempts)
  /\ (orderedProvider steadyChain ->
      StronglySorted Z.le (List.map onChainBlock (posts (since ready w')))).
Proof.
  apply (C2_chunked_scan steadyChain OrderValidated 0 10001 ready).
  - lia.
  - unfold Number.exactBounds. lia.
Defined.



(** C4, counterexample.  Against a provider that rejects every query the
    wrapper issues four attempts, not three. *)
Lemma C4_counterexample :
  queries (since ready (snd (safeQueryFilter silentChain OrderValidated 0 100 ready)))
  = [(OrderValidated, 0, 100); (OrderValidated, 0, 100);
     (OrderValidated, 0, 100); (OrderValidated, 0, 100)]
  /\ ~ (length (queries (since ready
                   (snd (safeQueryFilter silentChain OrderValidated 0 100 ready)))) <= 3)%nat.
Proof. vm_compute. split; [reflexivity|]. intros H. repeat (apply le_S_n in H). inversion H. Qed.

(** C4 (amended).  The retrying wrapper makes at most four attempts for
    one sub-range (the first one and up to three retries).  If [n]
    attempts fail before the last one, the trace holds [n + 1] queries
    separated by sleeps of 2000 x 1, ..., 2000 x n milliseconds; the
    result is the answer of the first successful attempt, after which no
    further attempt is made, and the failure is propagated only when all
    four attempts have failed. *)
Theorem C4_retry_policy (E : Env) (kind : EventName) (from to : Z) (w : World) :
  let r := fst (safeQueryFilter E kind from to w) in
  let w' := snd (safeQueryFilter E kind from to w) in
  exists n,
    (n <= 3)%nat
    /\ (forall i, (i < n)%nat -> answerAt E w kind from to i = None)
    /\ since w w' = retryTrace kind from to n
    /\ queries (since w w') = List.repeat (kind, from, to) (S n)
    /\ sleeps (since w w') = List.map (fun j => 2000 * Z.of_nat j) (seq 1 n)
    /\ ((exists logs, answerAt E w kind from to n = Some logs /\ r = Return logs)
        \/ (n = 3%nat /\ answerAt E w kind from to 3 = None /\ r = Throw)).
Proof.
  intros r w'. subst r w'.
  destruct (safeQueryFilter_run E kind from to w)
    as (n & Hn & Hfail & [(logs & Hans & Hrun)|(-> & Hans & Hrun)]).
  - exists n. rewrite Hrun. cbn [fst snd].
    rewrite (since_app w _ (retryTrace kind from to n)) by reflexivity.
    destruct (retryTrace_attempts kind from to n) as [Hq Hs].
    repeat split; try assumption. left. exists logs. split; [assumption|reflexivity].
  - exists 3%nat. rewrite Hrun. cbn [fst snd].
    rewrite (since_app w _ (retryTrace kind from to 3)) by reflexivity.
    destruct (retryTrace_attempts kind from to 3) as [Hq Hs].
    repeat split; try assumption. right. repeat split; assumption.
Qed.



(** The payload posted for the sample log, evaluated. *)
Example emptyOffer_payload :
  let p := payloadOf emptyOfferChain OrderValidated emptyOffer in
  tokenId p = None /\ price p = Some "1.0"%string
  /\ sellerAddress p = Some "0xseller"%string.
Proof. vm_compute. repeat split; reflexivity. Qed.

(** C8.  An [OrderFulfilled] log whose first consideration item has a
    start amount of 1000000000000000000 normalises, with the 18 decimals
    the script passes to [formatUnits], to the price ["1.0"]. *)
Theorem C8_price_one_ether (E : Env) (ev : LogEntry) (a : Args)
        (item : Item) (others : list Item) :
  args ev = Some a ->
  a_consideration a = Some (item :: others) ->
  startAmount item = Some 1000000000000000000 ->
  price (payloadOf E OrderFulfilled ev) = Some "1.0"%string
  /\ status (payloadOf E OrderFulfilled ev) = fulfilled.
Proof.
  intros Ha Hc Hamount. unfold payloadOf. rewrite Ha.
  cbn [price status]. unfold priceOf. rewrite Hc. cbn [first]. rewrite Hamount.
  rewrite formatUnits_one_ether. split; reflexivity.
Qed.

Lemma C8_witness :
  price (payloadOf emptyOfferChain OrderFulfilled emptyOffer) = Some "1.0"%string
  /\ status (payloadOf emptyOfferChain OrderFulfilled emptyOffer) = fulfilled.
Proof.
  apply (C8_price_one_ether emptyOfferChain emptyOffer
           (mkArgs (Some "0xabc1"%string) (Some "0xSeLLer"%string)
                   (Some "0xBuYer"%string) (Some []) (Some [oneEther]))
           oneEther []); reflexivity.
Defined.

(** The loop is stuck on a one-block range whose bound the additions
    give back. *)
Lemma number_loop_stuck (b : Z) :
  Js.add (Z.min (Js.add b CHUNK) b) 1 = b ->
  forall fuel w,
    fst (Number.queryInChunks_loop fuel (fun _ _ => ret tt) b b w) = OutOfFuel.
Proof.
  intros Hback fuel. induction fuel as [|fuel IH]; intros w.
  - cbn. rewrite Z.leb_refl. reflexivity.
  - cbn [Number.queryInChunks_loop]. rewrite Z.leb_refl, Hback.
    unfold bind, try_catch, log, ret. cbv beta iota. apply IH.
Qed.

(** C10, counterexample.  At [from = to = 2 ^ 53], the first integer
    beyond the safe ones, the addition [end + 1] returns [end]: the
    start bound never advances and the loop never ends, whatever the
    callback does (here it does nothing); the scan runs out of every
    amount of fuel.  The same happens far below the safe integers, at
    [from = to = - 2 ^ 70]. *)
Lemma C10_counterexample :
  Js.isSafeInteger (2 ^ 53) = false
  /\ Js.add (Z.min (Js.add (2 ^ 53) CHUNK) (2 ^ 53)) 1 = 2 ^ 53
  /\ fst (Number.queryInChunks (fun _ _ => ret tt) (2 ^ 53) (2 ^ 53) initial) = OutOfFuel
  /\ (forall fuel,
        fst (Number.queryInChunks_loop fuel (fun _ _ => ret tt) (2 ^ 53) (2 ^ 53) initial)
        = OutOfFuel)
  /\ (forall fuel,
        fst (Number.queryInChunks_loop fuel (fun _ _ => ret tt) (- 2 ^ 70) (- 2 ^ 70) initial)
        = OutOfFuel).
Proof.
  split; [reflexivity|]. split; [reflexivity|]. split; [reflexivity|].
  split; intros fuel; apply number_loop_stuck; reflexivity.
Qed.

(** C10 (amended).  For every callback that returns or throws, the
    chunked scan completes whenever its bounds are exact ([- 2 ^ 53 <=
    from] and [to < 2 ^ 53], which holds of all safe integers) or [from
    > to]: the fuel the model gives it is never exhausted and more fuel
    changes nothing; every iteration resumes the loop at a start bound
    strictly beyond the current one; and when [from > to] the loop
    returns at once, whatever the two numbers, leaving the world
    untouched (no sub-query). *)
Theorem C10_scan_terminates (P : Z -> Z -> list Effect -> Prop)
        (cb : Z -> Z -> M unit) (from to : Z) (w : World) :
  settles P cb ->
  to < from \/ Number.exactBounds from to ->
  fst (Number.queryInChunks cb from to w) = Return tt
  /\ (forall fuel, (Z.to_nat (to - from + 1) <= fuel)%nat ->
                   Number.queryInChunks_loop fuel cb from to w
                   = Number.queryInChunks cb from to w)
  /\ (forall fuel start w0, from <= start <= to ->
         exists w1,
           Number.queryInChunks_loop (S fuel) cb start to w0
           = Number.queryInChunks_loop fuel cb
               (Js.add (Z.min (Js.add start CHUNK) to) 1) to w1
           /\ start < Js.add (Z.min (Js.add start CHUNK) to) 1)
  /\ (to < from -> Number.queryInChunks cb from to w = (Return tt, w)).
Proof.
  intros Hcb Hbounds.
  assert (Hempty : to < from -> forall fuel,
             Number.queryInChunks_loop fuel cb from to w = (Return tt, w)).
  { intros Hlt fuel. apply number_loop_empty, Hlt. }
  destruct (Z_lt_le_dec to from) as [Hlt|Hle].
  - unfold Number.queryInChunks. split; [rewrite Hempty by exact Hlt; reflexivity|].
    split; [intros fuel _; rewrite !Hempty by exact Hlt; reflexivity|].
    split; [intros fuel start w0 Hs; lia|].
    intros _. apply Hempty, Hlt.
  - destruct Hbounds as [Hlt|[Hlo Hhi]]; [lia|].
    split; [|split; [|split]].
    + rewrite number_scan_exact by (split; assumption).
      destruct (queryInChunks_loop_run P cb Hcb (Z.to_nat (to - from + 1)) from to w
                  ltac:(lia)) as (w1 & d & Hrun & _).
      unfold queryInChunks. rewrite Hrun. reflexivity.
    + intros fuel Hf. unfold Number.queryInChunks.
      rewrite !number_loop_exact by assumption.
      apply queryInChunks_loop_fuel; lia.
    + intros fuel start w0 [Hs1 Hs2].
      destruct (iteration_exact start to ltac:(lia) Hs2 Hhi) as [He1 He2].
      rewrite He1, He2.
      destruct (queryInChunks_loop_step P cb Hcb fuel start to w0 Hs2) as (w1 & Hstep & Hadv).
      exists w1. split; [|exact Hadv].
      rewrite !number_loop_exact; [exact Hstep| |exact Hhi|lia|exact Hhi].
      unfold CHUNK. lia.
    + intros Hlt. lia.
Qed.

Lemma C10_witness :
  let cb := scanCallback steadyChain OrderCancelled in
  fst (Number.queryInChunks cb 0 10001 ready) = Return tt
  /\ (forall fuel, (Z.to_nat (10001 - 0 + 1) <= fuel)%nat ->
                   Number.queryInChunks_loop fuel cb 0 10001 ready
                   = Number.queryInChunks cb 0 10001 ready)
  /\ (forall fuel start w0, 0 <= start <= 10001 ->
         exists w1,
           Number.queryInChunks_loop (S fuel) cb start 10001 w0
           = Number.queryInChunks_loop fuel cb
               (Js.add (Z.min (Js.add start CHUNK) 10001) 1) 10001 w1
           /\ start < Js.add (Z.min (Js.add start CHUNK) 10001) 1)
  /\ (10001 < 0 -> Number.queryInChunks cb 0 10001 ready = (Return tt, ready)).
Proof.
  apply (C10_scan_terminates (passSegment steadyChain OrderCancelled)
           (scanCallback steadyChain OrderCancelled) 0 10001 ready).
  - apply scanCallback_settles.
  - right. unfold Number.exactBounds. lia.
Defined.

End SeaportClaims.

(** ** syncSeaportOrders.js: the exit status *)

Section SeaportExit.

Import SyncSeaportOrders.

Context (E : Env).

Lemma noItemWork_app (a b : list Effect) : noItemWork a -> noItemWork b -> noItemWork (a ++ b).
Proof.
  intros (H1 & H2 & H3) (H4 & H5 & H6). unfold noItemWork.
  rewrite chunkScans_app, queries_app, posts_app, H1, H2, H3, H4, H5, H6. auto.
Qed.

(** The probing loop always returns; it selects the endpoint computed by
    [probed] and does no per-item work. *)
Lemma probe_run (rpcs : list (option string)) :
  forall w, exists w' d,
    probe E rpcs w = (Return tt, w')
    /\ trace w' = trace w ++ d /\ noItemWork d
    /\ tick w' = snd (probed E (tick w) rpcs)
    /\ provider w' = match fst (probed E (tick w) rpcs) with
                     | Some rpc => Some rpc
                     | None => provider w
                     end.
Proof.
  induction rpcs as [|r rest IH]; intros w.
  - exists w, []. cbn. rewrite app_nil_r. repeat split; reflexivity.
  - cbn [probe probed]. destruct (Js.truthy r) as [rpc|]; [|apply IH].
    unfold try_catch, bind, next_tick, log, await, set_provider; cbn.
    destruct (getBlockNumber E (tick w) rpc) as [b|]; cbn.
    + eexists. exists [ProbeRpc rpc; RpcWorking rpc]. split; [reflexivity|]. cbn.
      rewrite <- app_assoc. repeat split; reflexivity.
    + match goal with |- context [probe E rest ?w1] => destruct (IH w1) as (w' & d & Hrun & Htr & Hd & Htick & Hprov) end.
      exists w', ([ProbeRpc rpc; RpcFailed rpc] ++ d).
      rewrite Hrun. split; [reflexivity|]. cbn in Htr, Htick, Hprov.
      split; [rewrite Htr, <- !app_assoc; reflexivity|].
      split; [apply noItemWork_app; [repeat split; reflexivity|exact Hd]|].
      split; assumption.
Qed.

Lemma queryInChunks_returns (kind : EventName) (from to : Z) (w : World) :
  exists w', queryInChunks (scanCallback E kind) from to w = (Return tt, w').
Proof.
  destruct (queryInChunks_loop_run (passSegment E kind) (scanCallback E kind)
              (scanCallback_settles E kind) (Z.to_nat (to - from + 1)) from to w
              ltac:(lia)) as (w' & d & Hrun & _).
  exists w'. exact Hrun.
Qed.

(** [main], by the outcome of the start-up. *)
Lemma seaport_main_run :
  match probed E 0 (RPC_LIST E) with
  | (None, _) =>
      exists w', main E initial = (Exit 1, w') /\ noItemWork (trace w')
  | (Some rpc, t) =>
      match getBlockNumber E t rpc with
      | None => exists w', main E initial = (Throw, w') /\ noItemWork (trace w')
      | Some _ => exists w', main E initial = (Return tt, w')
      end
  end.
Proof.
  set (w0 := snd (log SyncStarted initial)).
  destruct (probe_run (RPC_LIST E) w0) as (w1 & d & Hrun & Htr & Hd & Htick & Hprov).
  change (tick w0) with 0%nat in Htick, Hprov. change (provider w0) with (@None string) in Hprov.
  change (trace w0) with [SyncStarted] in Htr.
  assert (Hmain : main E initial
            = match probe E (RPC_LIST E) w0 with
              | (Return _, w1) =>
                  match provider w1 with
                  | None => (Exit 1, snd (log NoRpcAvailable w1))
                  | Some rpc =>
                      match getBlockNumber E (tick w1) rpc with
                      | None => (Throw, snd (log (LatestBlock rpc) (snd (next_tick w1))))
                      | Some latestBlock =>
                          (log (BlockRange (FROM_BLOCK E) latestBlock) ;;;
                           queryInChunks (scanCallback E OrderValidated) (FROM_BLOCK E) latestBlock ;;;
                           queryInChunks (scanCallback E OrderFulfilled) (FROM_BLOCK E) latestBlock ;;;
                           queryInChunks (scanCallback E OrderCancelled) (FROM_BLOCK E) latestBlock ;;;
                           w <- (fun w => (Return w, w)) ;;
                           log (SyncFinished (totalActive w) (totalFulfilled w) (totalCancelled w)))
                            (snd (log (LatestBlock rpc) (snd (next_tick w1))))
                      end
                  end
              | (Throw, w1) => (Throw, w1)
              | (Exit c, w1) => (Exit c, w1)
              | (OutOfFuel, w1) => (OutOfFuel, w1)
              end).
  { subst w0.
    unfold main, initProvider, bind, log, get_provider, next_tick, ret, await, throw, exit.
    cbn [initial tick trace provider totalActive totalFulfilled totalCancelled app fst snd].
    destruct (probe E (RPC_LIST E) _) as [[[]| | |] w1']; try reflexivity.
    destruct w1' as [t1 tr1 [rpc|] a1 f1 c1]; cbn; [|reflexivity].
    destruct (getBlockNumber E t1 rpc); reflexivity. }
  rewrite Hmain, Hrun, Hprov, Htick.
  destruct (probed E 0 (RPC_LIST E)) as [[rpc|] t]; cbn [fst snd].
  - destruct (getBlockNumber E t rpc) as [latestBlock|].
    + unfold bind at 1. unfold log at 1. cbv beta iota.
      unfold bind at 1.
      match goal with |- context [queryInChunks _ _ _ ?w] =>
        destruct (queryInChunks_returns OrderValidated (FROM_BLOCK E) latestBlock w) as (wa & Ha)
      end.
      rewrite Ha.
      destruct (queryInChunks_returns OrderFulfilled (FROM_BLOCK E) latestBlock wa) as (wb & Hb).
      unfold bind at 1. rewrite Hb.
      destruct (queryInChunks_returns OrderCancelled (FROM_BLOCK E) latestBlock wb) as (wc & Hc).
      unfold bind at 1. rewrite Hc.
      eexists. reflexivity.
    + eexists. split; [reflexivity|]. cbn. rewrite Htr.
      rewrite <- app_assoc.
      apply (noItemWork_app [SyncStarted] (d ++ [LatestBlock rpc])); [repeat split; reflexivity|].
      apply noItemWork_app; [exact Hd|repeat split; reflexivity].
  - eexists. split; [reflexivity|]. cbn. rewrite Htr.
    rewrite <- app_assoc.
    apply (noItemWork_app [SyncStarted] (d ++ [NoRpcAvailable])); [repeat split; reflexivity|].
    apply noItemWork_app; [exact Hd|repeat split; reflexivity].
Qed.

(** The process status of the order sync: 0 exactly when the
    configuration is complete, an endpoint passes the probe and the
    latest block height is read; 1 otherwise, and then before any
    per-item work. *)
Lemma script_exit :
  exitCode (fst (script E initial))
  = Some (if (configured E && latestBlockRead E)%bool then 0 else 1)
  /\ ((configured E && latestBlockRead E)%bool = false ->
      noItemWork (trace (snd (script E initial)))).
Proof.
  unfold script, configured, latestBlockRead.
  destruct (missing (BACKEND_URL E) || missing (NFT_CONTRACT_ADDRESS E)
            || missing (SEAPORT_CONTRACT_ADDRESS E))%bool.
  - cbn. split; [reflexivity|]. intros _. repeat split; reflexivity.
  - cbn [negb andb]. unfold try_catch.
    pose proof seaport_main_run as Hmain.
    destruct (probed E 0 (RPC_LIST E)) as [[rpc|] t].
    + destruct (getBlockNumber E t rpc) as [latestBlock|].
      * destruct Hmain as (w' & ->). cbn. split; [reflexivity|discriminate].
      * destruct Hmain as (w' & -> & Hquiet). cbn. split; [reflexivity|]. intros _.
        apply noItemWork_app; [exact Hquiet|repeat split; reflexivity].
    + destruct Hmain as (w' & -> & Hquiet). cbn. split; [reflexivity|]. intros _.
      exact Hquiet.
Qed.

End SeaportExit.

(** The order sync on the samples: a healthy chain (two sub-ranges with
    two logs each, in each of the three passes) and a chain whose
    provider rejects every log query (every sub-range is skipped, the
    process still ends with status 0). *)
Example order_sync_runs :
  let ok := SyncSeaportOrders.script SyncSeaportOrders.steadyChain
              SyncSeaportOrders.initial in
  let dead := SyncSeaportOrders.script SyncSeaportOrders.silentChain
                SyncSeaportOrders.initial in
  SyncSeaportOrders.exitCode (fst ok) = Some 0
  /\ (SyncSeaportOrders.totalActive (snd ok),
      SyncSeaportOrders.totalFulfilled (snd ok),
      SyncSeaportOrders.totalCancelled (snd ok)) = (4, 4, 4)%nat
  /\ SyncSeaportOrders.exitCode (fst dead) = Some 0
  /\ SyncSeaportOrders.posts (SyncSeaportOrders.trace (snd dead)) = []
  /\ length (SyncSeaportOrders.queries (SyncSeaportOrders.trace (snd dead))) = 24%nat.
Proof. vm_compute. repeat split; reflexivity. Qed.

(** ** syncNFTMetadata.js: executions of a batch *)

Section NftRuns.

Import SyncNFTMetadata.

Context (E : Env).

Lemma length_RPC_LIST : length (RPC_LIST E) = 4%nat.
Proof. reflexivity. Qed.

Lemma reaches_trans tasks1 st1 tasks2 st2 tasks3 st3 :
  reaches E tasks1 st1 tasks2 st2 -> reaches E tasks2 st2 tasks3 st3 ->
  reaches E tasks1 st1 tasks3 st3.
Proof.
  intros H12 H23. induction H12 as [|pre t task post st tasks' st' _ IH]; [exact H23|].
  apply reaches_step. apply IH. exact H23.
Qed.

Lemma reaches_one pre t task post st :
  reaches E (pre ++ (t, task) :: post) st
          (pre ++ (t, fst (resume E t task st)) :: post) (snd (resume E t task st)).
Proof. apply reaches_step. apply reaches_refl. Qed.

(** The three ways the driver advances a batch are executions. *)
Lemma resumeToken_reaches (c : nat) (tasks : list (nat * Task)) :
  forall pre st,
    reaches E (pre ++ tasks) st
            (pre ++ fst (resumeToken E c tasks st)) (snd (resumeToken E c tasks st)).
Proof.
  induction tasks as [|[t task] rest IH]; intros pre st.
  - apply reaches_refl.
  - cbn [resumeToken]. destruct (t =? c)%nat.
    + destruct (resume E t task st) as [task' st'] eqn:Hr. cbn [fst snd].
      replace task' with (fst (resume E t task st)) by (rewrite Hr; reflexivity).
      replace st' with (snd (resume E t task st)) by (rewrite Hr; reflexivity).
      apply reaches_one.
    + specialize (IH (pre ++ [(t, task)]) st).
      destruct (resumeToken E c rest st) as [rest' st'].
      cbn [fst snd] in *. rewrite <- !app_assoc in IH. exact IH.
Qed.

Lemma resumeAll_reaches (tasks : list (nat * Task)) :
  forall pre st,
    reaches E (pre ++ tasks) st
            (pre ++ fst (resumeAll E tasks st)) (snd (resumeAll E tasks st)).
Proof.
  induction tasks as [|[t task] rest IH]; intros pre st.
  - apply reaches_refl.
  - cbn [resumeAll]. destruct (resume E t task st) as [task' st1] eqn:Hr.
    specialize (IH (pre ++ [(t, task')]) st1).
    destruct (resumeAll E rest st1) as [rest' st2]. cbn [fst snd] in *.
    rewrite <- !app_assoc in IH. cbn in IH.
    eapply reaches_trans; [|exact IH].
    replace task' with (fst (resume E t task st)) by (rewrite Hr; reflexivity).
    replace st1 with (snd (resume E t task st)) by (rewrite Hr; reflexivity).
    apply reaches_one.
Qed.

Lemma rounds_reach (n : nat) (tasks : list (nat * Task)) (st : State) :
  reaches E tasks st (fst (Nat.iter n (round E) (tasks, st)))
          (snd (Nat.iter n (round E) (tasks, st))).
Proof.
  induction n as [|n IH]; [apply reaches_refl|].
  cbn [Nat.iter]. eapply reaches_trans; [exact IH|].
  unfold round at 1 3. apply (resumeAll_reaches _ []).
Qed.

Lemma allSettled_reaches (sched : list nat) :
  forall tasks st,
    reaches E tasks st (fst (snd (allSettled E sched tasks st)))
            (snd (snd (allSettled E sched tasks st))).
Proof.
  induction sched as [|c sched IH]; intros tasks st; cbn [allSettled];
    destruct (forallb _ tasks); try apply reaches_refl.
  - apply rounds_reach.
  - pose proof (resumeToken_reaches c tasks [] st) as H. cbn [app] in H.
    destruct (resumeToken E c tasks st) as [tasks' st']. cbn [fst snd] in H.
    eapply reaches_trans; [exact H|apply IH].
Qed.

(** *** Rows and tokens *)

Lemma toString_eqb (a b : nat) :
  String.eqb (Js.toString a) (Js.toString b) = (a =? b)%nat.
Proof.
  destruct (Nat.eqb_spec a b) as [->|Hne].
  - apply String.eqb_refl.
  - apply String.eqb_neq. intros H. apply Hne.
    unfold Js.toString in H. exact (pretty_nat_inj _ _ H).
Qed.

Lemma rowsOf_app (t : nat) (a b : list OwnershipRecord) :
  rowsOf t (a ++ b) = rowsOf t a ++ rowsOf t b.
Proof. apply List.filter_app. Qed.

Lemma rowsOf_rowOf (t c : nat) (o url : string) :
  rowsOf t [rowOf E c o url] = if (c =? t)%nat then [rowOf E c o url] else [].
Proof. unfold rowsOf. cbn. rewrite toString_eqb. reflexivity. Qed.

(** *** Well-formed states *)

Lemma validState_contract (st : State) :
  validState E st -> In (nftContract st) (RPC_LIST E).
Proof.
  intros (_ & -> & _). apply nth_In. rewrite length_RPC_LIST.
  apply Nat.mod_upper_bound. discriminate.
Qed.

Lemma validState_switchProvider (st : State) :
  validState E st -> validState E (switchProvider E st).
Proof.
  intros (Hp & Hc & Hrows). unfold switchProvider, getProvider, validState. cbn.
  rewrite Nat.sub_0_r. repeat split; [lia|exact Hrows].
Qed.

Lemma validState_issue (c : Call) (st : State) :
  validState E st -> validState E (issue c st).
Proof. intros H. exact H. Qed.

Lemma validState_boot : validState E (boot E).
Proof. unfold validState. cbn. repeat split; [lia|constructor]. Qed.

(** *** One resumption *)

Lemma resume_validState (t : nat) (task : Task) (st : State) :
  validState E st -> validState E (snd (resume E t task st)).
Proof.
  intros H. destruct task as [i c|i c o|o url| | |]; cbn [resume]; try exact H.
  - destruct (ownerOf E c t); [exact H|].
    unfold rpcFailed. destruct (_ <? _)%nat; cbn [snd];
      apply validState_switchProvider, H.
  - destruct (tokenURI E c t); [exact H|].
    unfold rpcFailed. destruct (_ <? _)%nat; cbn [snd];
      apply validState_switchProvider, H.
  - destruct H as (Hp & Hc & Hrows). unfold validState. cbn.
    repeat split; try assumption.
    apply Forall_app. split; [exact Hrows|].
    constructor; [|constructor]. exists t. reflexivity.
Qed.

Lemma resume_upserts_rpcFailed (t i : nat) (st : State) :
  upserts (snd (rpcFailed E t i st)) = upserts st.
Proof. unfold rpcFailed. destruct (_ <? _)%nat; reflexivity. Qed.

(** Resuming the task of another token leaves the rows of [t] alone. *)
Lemma resume_other (t c : nat) (task : Task) (st : State) :
  c <> t ->
  rowsOf t (upserts (snd (resume E c task st))) = rowsOf t (upserts st).
Proof.
  intros Hne. destruct task as [i r|i r o|o url| | |]; cbn [resume]; try reflexivity.
  - destruct (ownerOf E r c); [reflexivity|]. rewrite resume_upserts_rpcFailed. reflexivity.
  - destruct (tokenURI E r c); [reflexivity|]. rewrite resume_upserts_rpcFailed. reflexivity.
  - cbn [snd upserts]. rewrite rowsOf_app, rowsOf_rowOf.
    apply Nat.eqb_neq in Hne. rewrite Hne. apply app_nil_r.
Qed.

(** Resuming the task of [t] keeps its rows in step with its state. *)
Lemma resume_own (t : nat) (task : Task) (st : State) :
  validState E st ->
  taskInv E t task (rowsOf t (upserts st)) ->
  taskInv E t (fst (resume E t task st)) (rowsOf t (upserts (snd (resume E t task st)))).
Proof.
  intros Hst Hinv.
  pose proof (validState_contract st Hst) as Hin.
  pose proof (validState_contract _ (validState_switchProvider st Hst)) as Hin'.
  destruct task as [i c|i c o|o url| | |]; cbn [resume taskInv] in *.
  - destruct Hinv as [Hc Hrows].
    destruct (ownerOf E c t) as [o|] eqn:Ho; cbn [fst snd taskInv].
    + repeat split; try assumption. exists c. split; assumption.
    + unfold rpcFailed. destruct (_ <? _)%nat; cbn [fst snd taskInv issue upserts].
      * split; [exact Hin'|exact Hrows].
      * split; [exact Hrows|]. intros Hr. destruct (Hr c Hc) as [[o Ho'] _]. congruence.
  - destruct Hinv as (Hc & Hrows & c1 & Hc1 & Ho).
    destruct (tokenURI E c t) as [u|] eqn:Hu; cbn [fst snd taskInv].
    + split; [exact Hrows|]. exists c1, c, o, u. repeat split; assumption.
    + unfold rpcFailed. destruct (_ <? _)%nat; cbn [fst snd taskInv issue upserts].
      * split; [exact Hin'|exact Hrows].
      * split; [exact Hrows|]. intros Hr. destruct (Hr c Hc) as [_ [u Hu']]. congruence.
  - destruct Hinv as [Hrows Hvalid]. cbn [fst snd upserts taskInv].
    rewrite rowsOf_app, rowsOf_rowOf, Nat.eqb_refl, Hrows.
    split; [exists (rowOf E t o url); split; [reflexivity|exact Hvalid]|].
    destruct Hvalid as (c1 & c2 & o' & u & Hc1 & Hc2 & Ho & Hu & _).
    intros [Hd|Hd]; [rewrite (Hd c1 Hc1) in Ho|rewrite (Hd c2 Hc2) in Hu]; discriminate.
  - exact Hinv.
  - exact Hinv.
  - exact Hinv.
Qed.

(** *** Executions preserve the batch invariant *)

Lemma batchInv_step pre t task post st :
  batchInv E (pre ++ (t, task) :: post) st ->
  batchInv E (pre ++ (t, fst (resume E t task st)) :: post) (snd (resume E t task st)).
Proof.
  intros (Hst & Hnd & Hall).
  assert (Hkeys : List.map fst (pre ++ (t, fst (resume E t task st)) :: post)
                  = List.map fst (pre ++ (t, task) :: post)).
  { rewrite !List.map_app. reflexivity. }
  split; [apply resume_validState, Hst|]. split; [rewrite Hkeys; exact Hnd|].
  rewrite List.map_app in Hnd. cbn [List.map fst] in Hnd.
  pose proof (NoDup_remove_2 _ _ _ Hnd) as Hfresh.
  apply Forall_app in Hall as [Hpre Hpost]. apply Forall_cons in Hpost as [Hown Hpost].
  assert (Hothers : forall l, (forall p, In p l -> In (fst p) (List.map fst pre ++ List.map fst post)) ->
            Forall (fun p => taskInv E (fst p) (snd p) (rowsOf (fst p) (upserts st))) l ->
            Forall (fun p => taskInv E (fst p) (snd p)
                               (rowsOf (fst p) (upserts (snd (resume E t task st))))) l).
  { intros l Hl Hf. rewrite List.Forall_forall in Hf |- *. intros p Hp.
    rewrite resume_other; [apply Hf, Hp|].
    intros ->. apply Hfresh, Hl, Hp. }
  apply Forall_app. split.
  - apply Hothers; [|exact Hpre]. intros p Hp. apply in_or_app. left. apply in_map, Hp.
  - apply Forall_cons. split.
    + cbn [fst snd] in *. apply resume_own; assumption.
    + apply Hothers; [|exact Hpost]. intros p Hp. apply in_or_app. right. apply in_map, Hp.
Qed.

Lemma batchInv_reaches tasks st tasks' st' :
  reaches E tasks st tasks' st' ->
  batchInv E tasks st ->
  batchInv E tasks' st'
  /\ List.map fst tasks' = List.map fst tasks
  /\ (forall t, ~ In t (List.map fst tasks) ->
                rowsOf t (upserts st') = rowsOf t (upserts st)).
Proof.
  intros H. induction H as [|pre t task post st tasks' st' _ IH]; intros Hinv.
  - split; [exact Hinv|]. split; reflexivity.
  - destruct (IH (batchInv_step _ _ _ _ _ Hinv)) as (Hinv' & Hkeys & Hrows).
    assert (Hk : List.map fst (pre ++ (t, fst (resume E t task st)) :: post)
                 = List.map fst (pre ++ (t, task) :: post)).
    { rewrite !List.map_app. reflexivity. }
    split; [exact Hinv'|]. split; [congruence|].
    intros x Hx. rewrite Hrows by (rewrite Hk; exact Hx).
    apply resume_other. intros ->. apply Hx.
    rewrite List.map_app. apply in_or_app. right. left. reflexivity.
Qed.

(** *** Every batch settles *)

Lemma stepsLeft_bound (task : Task) : (stepsLeft task <= 12)%nat.
Proof. destruct task; cbn; lia. Qed.

Lemma stepsLeft_settled (task : Task) : stepsLeft task = 0%nat -> settled task = true.
Proof. destruct task; cbn; (reflexivity || lia). Qed.

Lemma resume_stepsLeft (t : nat) (task : Task) (st : State) :
  (stepsLeft (fst (resume E t task st)) <= stepsLeft task - 1)%nat.
Proof.
  destruct task as [i c|i c o|o url| | |]; cbn [resume].
  - destruct (ownerOf E c t); [cbn; lia|].
    unfold rpcFailed. rewrite length_RPC_LIST.
    destruct (Nat.ltb_spec (i + 1) 4); cbn; lia.
  - destruct (tokenURI E c t); [cbn; lia|].
    unfold rpcFailed. rewrite length_RPC_LIST.
    destruct (Nat.ltb_spec (i + 1) 4); cbn; lia.
  - cbn. lia.
  - cbn. lia.
  - cbn. lia.
  - cbn. lia.
Qed.

Lemma resumeAll_stepsLeft (n : nat) (tasks : list (nat * Task)) :
  forall st,
    Forall (fun p => (stepsLeft (snd p) <= n)%nat) tasks ->
    Forall (fun p => (stepsLeft (snd p) <= n - 1)%nat) (fst (resumeAll E tasks st)).
Proof.
  induction tasks as [|[t task] rest IH]; intros st Hall; [constructor|].
  apply Forall_cons in Hall as [Hhd Htl]. cbn [resumeAll].
  pose proof (resume_stepsLeft t task st) as Hstep.
  destruct (resume E t task st) as [task' st1]. specialize (IH st1 Htl).
  destruct (resumeAll E rest st1) as [rest' st2]. cbn [fst snd] in *.
  constructor; [cbn; lia|exact IH].
Qed.

Lemma rounds_stepsLeft (n : nat) (tasks : list (nat * Task)) (st : State) :
  Forall (fun p => (stepsLeft (snd p) <= 12 - n)%nat) (fst (Nat.iter n (round E) (tasks, st))).
Proof.
  induction n as [|n IH]; cbn [Nat.iter].
  - apply List.Forall_forall. intros p _. apply stepsLeft_bound.
  - unfold round at 1.
    replace (12 - S n)%nat with (12 - n - 1)%nat by lia.
    apply resumeAll_stepsLeft, IH.
Qed.

Lemma allSettled_settled (sched : list nat) :
  forall tasks st,
    forallb (fun p => settled (snd p)) (fst (snd (allSettled E sched tasks st))) = true.
Proof.
  induction sched as [|c sched IH]; intros tasks st; cbn [allSettled];
    destruct (forallb _ tasks) eqn:Hdone; try exact Hdone.
  - apply forallb_forall. intros p Hp.
    pose proof (rounds_stepsLeft 12 tasks st) as H.
    rewrite List.Forall_forall in H. specialize (H p Hp).
    apply stepsLeft_settled. cbn in H. lia.
  - destruct (resumeToken E c tasks st) as [tasks' st']. apply IH.
Qed.

(** *** One batch *)

Lemma startAll_spec (batch : list nat) :
  forall st,
    fst (startAll batch st)
    = List.map (fun t => (t, AwaitOwnerOf 0 (nftContract st))) batch
    /\ providerIndex (snd (startAll batch st)) = providerIndex st
    /\ nftContract (snd (startAll batch st)) = nftContract st
    /\ upserts (snd (startAll batch st)) = upserts st
    /\ calls (snd (startAll batch st))
       = calls st ++ List.map (CallOwnerOf (nftContract st)) batch.
Proof.
  induction batch as [|t rest IH]; intros st.
  - cbn. rewrite app_nil_r. repeat split; reflexivity.
  - cbn [startAll processNFT].
    destruct (IH (issue (CallOwnerOf (nftContract st) t) st)) as (H1 & H2 & H3 & H4 & H5).
    destruct (startAll rest _) as [tasks st2]. cbn [fst snd] in *.
    cbn [issue nftContract providerIndex upserts calls] in *.
    rewrite H1, H2, H3, H4, H5, <- app_assoc. repeat split; reflexivity.
Qed.

Lemma batchOf_In (i total t : nat) :
  In t (batchOf i total) <-> (i <= t < i + BATCH_SIZE /\ t < total)%nat.
Proof.
  unfold batchOf. rewrite filter_In, in_map_iff. split.
  - intros [(j & <- & Hj) Hlt]. apply in_seq in Hj. apply Nat.ltb_lt in Hlt. lia.
  - intros [Hr Hlt]. split; [|apply Nat.ltb_lt; exact Hlt].
    exists (t - i)%nat. split; [lia|]. apply in_seq. lia.
Qed.

Lemma batchOf_NoDup (i total : nat) : List.NoDup (batchOf i total).
Proof.
  unfold batchOf. apply List.NoDup_filter.
  apply Stdlib.Lists.Finite.Injective_map_NoDup; [|apply List.seq_NoDup].
  intros a b H. lia.
Qed.

Lemma settled_taskInv (t : nat) (task : Task) (rows : list OwnershipRecord) :
  settled task = true -> taskInv E t task rows -> settledRows E t rows.
Proof.
  destruct task; cbn; try discriminate; intros _.
  - intros [(r & -> & Hr) Hnot]. split; [right; exists r; split; [reflexivity|exact Hr]|].
    split; [discriminate|]. intros Hu. destruct (Hnot Hu).
  - intros [-> Hnot]. split; [left; reflexivity|].
    split; [intros Hr; destruct (Hnot Hr)|reflexivity].
Qed.

(** A batch started in a well-formed state, for tokens that have no row
    yet: whatever the schedule, it ends with the rows of each of its
    tokens settled and the rows of every other token untouched. *)
Lemma batch_run (sched : list nat) (batch : list nat) (st : State) :
  validState E st ->
  List.NoDup batch ->
  (forall t, In t batch -> rowsOf t (upserts st) = []) ->
  let started := startAll batch st in
  let st' := snd (snd (allSettled E sched (fst started) (snd started))) in
  validState E st'
  /\ (forall t, In t batch -> settledRows E t (rowsOf t (upserts st')))
  /\ (forall t, ~ In t batch -> rowsOf t (upserts st') = rowsOf t (upserts st)).
Proof.
  intros Hst Hnd Hfresh started st'.
  destruct (startAll_spec batch st) as (Htasks & Hp & Hc & Hu & _).
  fold started in Htasks, Hp, Hc, Hu.
  assert (Hkeys : List.map fst (fst started) = batch).
  { rewrite Htasks, List.map_map. cbn. apply List.map_id. }
  assert (Hinv : batchInv E (fst started) (snd started)).
  { split; [|split].
    - destruct Hst as (H1 & H2 & H3). unfold validState. rewrite Hp, Hc, Hu. auto.
    - rewrite Hkeys. exact Hnd.
    - rewrite Htasks. apply List.Forall_forall. intros p Hp'.
      apply in_map_iff in Hp' as (t & <- & Ht). cbn [fst snd taskInv].
      split; [apply validState_contract, Hst|]. rewrite Hu. apply Hfresh, Ht. }
  destruct (batchInv_reaches _ _ _ _ (allSettled_reaches sched (fst started) (snd started)) Hinv)
    as ((Hst' & _ & Hall) & Hkeys' & Hrows).
  fold st' in Hst', Hall, Hrows.
  split; [exact Hst'|]. split.
  - intros t Ht.
    assert (Hin : In t (List.map fst (fst (snd (allSettled E sched (fst started) (snd started)))))).
    { rewrite Hkeys', Hkeys. exact Ht. }
    apply in_map_iff in Hin as ([t' task] & Heq & Hin). cbn in Heq. subst t'.
    rewrite List.Forall_forall in Hall. specialize (Hall _ Hin). cbn [fst snd] in Hall.
    pose proof (allSettled_settled sched (fst started) (snd started)) as Hdone.
    rewrite forallb_forall in Hdone. specialize (Hdone _ Hin). cbn [snd] in Hdone.
    apply (settled_taskInv t task); assumption.
  - intros t Ht. rewrite Hrows by (rewrite Hkeys; exact Ht). rewrite Hu. reflexivity.
Qed.

(** *** The loop over batches *)

Lemma batches_run (fuel : nat) :
  forall i total sched st,
    (total - i <= fuel)%nat ->
    validState E st ->
    (forall t, (i <= t)%nat -> rowsOf t (upserts st) = []) ->
    exists st',
      batches E fuel i total sched st = Completed st'
      /\ validState E st'
      /\ (forall t, (t < i)%nat -> rowsOf t (upserts st') = rowsOf t (upserts st))
      /\ (forall t, (i <= t < total)%nat -> settledRows E t (rowsOf t (upserts st')))
      /\ (forall t, (i <= t)%nat -> (total <= t)%nat -> rowsOf t (upserts st') = []).
Proof.
  induction fuel as [|fuel IH]; intros i total sched st Hfuel Hst Hfresh.
  - assert (Hge : (total <= i)%nat) by lia. apply Nat.ltb_ge in Hge as Hge'.
    exists st. cbn [batches]. rewrite Hge'.
    split; [reflexivity|]. split; [exact Hst|]. split; [reflexivity|].
    split; [intros; lia|intros; apply Hfresh; assumption].
  - cbn [batches]. destruct (Nat.ltb_spec i total) as [Hlt|Hge].
    2:{ exists st. split; [reflexivity|]. split; [exact Hst|]. split; [reflexivity|].
        split; [intros; lia|intros; apply Hfresh; assumption]. }
    destruct (batch_run sched (batchOf i total) st Hst (batchOf_NoDup i total))
      as (Hst1 & Hin & Hout).
    { intros t Ht. apply batchOf_In in Ht. apply Hfresh. lia. }
    destruct (startAll (batchOf i total) st) as [tasks st1]. cbn [fst snd] in *.
    destruct (allSettled E sched tasks st1) as [sched' [tasks' st2]]. cbn [fst snd] in *.
    destruct (IH (i + BATCH_SIZE)%nat total sched' st2) as (st' & Hrun & Hst' & Hlow & Hmid & Hhigh).
    + unfold BATCH_SIZE. lia.
    + exact Hst1.
    + intros t Ht. rewrite Hout; [apply Hfresh; lia|].
      rewrite batchOf_In. lia.
    + exists st'. split; [exact Hrun|]. split; [exact Hst'|]. split; [|split].
      * intros t Ht. rewrite Hlow by lia. apply Hout. rewrite batchOf_In. lia.
      * intros t Ht. destruct (Nat.lt_ge_cases t (i + BATCH_SIZE)) as [Hnear|Hfar].
        -- rewrite Hlow by exact Hnear. apply Hin. apply batchOf_In. lia.
        -- apply Hmid. lia.
      * intros t Hi Ht. destruct (Nat.lt_ge_cases t (i + BATCH_SIZE)) as [Hnear|Hfar].
        -- rewrite Hlow by exact Hnear. rewrite Hout; [apply Hfresh, Hi|].
           rewrite batchOf_In. lia.
        -- apply Hhigh; assumption.
Qed.

(** [main], once [totalSupply] has been read: it completes, and the rows
    of every token are settled. *)
Lemma nft_main_run (sched : list nat) (total : nat) :
  totalSupply E (nftContract (boot E)) = Some total ->
  exists st,
    main E sched = Completed st
    /\ validState E st
    /\ (forall t, (t < total)%nat -> settledRows E t (rowsOf t (upserts st)))
    /\ (forall t, (total <= t)%nat -> rowsOf t (upserts st) = []).
Proof.
  intros Htotal. unfold main. rewrite Htotal.
  destruct (batches_run total 0 total sched
              (issue (CallTotalSupply (nftContract (boot E))) (boot E)))
    as (st & Hrun & Hst & _ & Hmid & Hhigh).
  - lia.
  - apply validState_issue, validState_boot.
  - intros t _. reflexivity.
  - exists st. split; [exact Hrun|]. split; [exact Hst|]. split.
    + intros t Ht. apply Hmid. lia.
    + intros t Ht. apply Hhigh; lia.
Qed.

(** *** The round robin *)

Lemma getProvider_endpoint (st : State) :
  getProvider E st
  = (endpoint E (providerIndex st),
     mkState (S (providerIndex st)) (nftContract st) (calls st) (upserts st)).
Proof. reflexivity. Qed.

Lemma rotations_spec (n : nat) :
  forall st,
    fst (rotations E n st)
    = List.map (fun j => endpoint E (providerIndex st + j)) (seq 0 n)
    /\ snd (rotations E n st)
       = mkState (providerIndex st + n) (nftContract st) (calls st) (upserts st).
Proof.
  induction n as [|n IH]; intros st.
  - cbn. rewrite Nat.add_0_r. destruct st; split; reflexivity.
  - cbn [rotations]. rewrite getProvider_endpoint.
    destruct (IH (mkState (S (providerIndex st)) (nftContract st) (calls st) (upserts st)))
      as [H1 H2].
    destruct (rotations E n _) as [rest st2]. cbn [fst snd] in *.
    cbn [providerIndex nftContract calls upserts] in *. subst rest st2. split.
    + cbn [seq List.map]. rewrite Nat.add_0_r. f_equal.
      rewrite <- List.seq_shift, List.map_map. apply List.map_ext. intros j.
      f_equal. lia.
    + f_equal. lia.
Qed.

Lemma endpoint_period (k : nat) : endpoint E (k + 4) = endpoint E k.
Proof.
  unfold endpoint. rewrite length_RPC_LIST. f_equal.
  replace (k + 4)%nat with (k + 1 * 4)%nat by lia. apply Nat.Div0.mod_add.
Qed.

Lemma rotate_endpoints (k : nat) :
  rotate k (RPC_LIST E) = List.map (fun j => endpoint E (k + j)) (seq 0 4).
Proof.
  unfold rotate, endpoint. rewrite length_RPC_LIST. cbn [seq List.map].
  rewrite Nat.add_0_r.
  rewrite <- (Nat.Div0.add_mod_idemp_l k 1), <- (Nat.Div0.add_mod_idemp_l k 2),
          <- (Nat.Div0.add_mod_idemp_l k 3).
  pose proof (Nat.mod_upper_bound k 4 ltac:(discriminate)) as Hr.
  destruct (k mod 4)%nat as [|[|[|[|r]]]]; try lia; reflexivity.
Qed.

Lemma rotate_Permutation (k : nat) : Permutation (rotate k (RPC_LIST E)) (RPC_LIST E).
Proof.
  unfold rotate. set (r := (k mod length (RPC_LIST E))%nat).
  transitivity (take r (RPC_LIST E) ++ drop r (RPC_LIST E)).
  - apply Permutation_app_comm.
  - rewrite take_drop. reflexivity.
Qed.

Lemma endpoint_In (k : nat) : In (endpoint E k) (RPC_LIST E).
Proof.
  unfold endpoint. apply nth_In. apply Nat.mod_upper_bound.
  rewrite length_RPC_LIST. discriminate.
Qed.

Lemma resume_ownerOf_fails (t i : nat) (c : Rpc) (st : State) :
  ownerOf E c t = None -> resume E t (AwaitOwnerOf i c) st = rpcFailed E t i st.
Proof. intros H. cbn [resume]. rewrite H. reflexivity. Qed.

Lemma switchProvider_endpoint (st : State) :
  switchProvider E st
  = mkState (S (providerIndex st)) (endpoint E (providerIndex st)) (calls st) (upserts st).
Proof. reflexivity. Qed.

(** A token whose owner cannot be read anywhere, processed with no
    other task in flight: four attempts, one per endpoint in list order
    starting from the current one, and the binding ends where it began. *)
Lemma lone_failure (t : nat) (st : State) :
  validState E st ->
  (forall c, In c (RPC_LIST E) -> ownerOf E c t = None) ->
  let started := startAll [t] st in
  let done := snd (allSettled E [] (fst started) (snd started)) in
  fst done = [(t, Failed)]
  /\ calls (snd done)
     = calls st ++ List.map (fun j => CallOwnerOf (endpoint E (providerIndex st - 1 + j)) t)
                            (seq 0 4)
  /\ nftContract (snd done) = nftContract st
  /\ providerIndex (snd done) = (providerIndex st + 4)%nat
  /\ upserts (snd done) = upserts st.
Proof.
  intros (Hp & Hc & _) Hdead.
  destruct st as [p c cs us]. cbn [providerIndex nftContract calls upserts] in *.
  destruct p as [|p]; [lia|]. rewrite Nat.sub_succ, Nat.sub_0_r in *.
  fold (endpoint E p) in Hc. subst c.
  pose proof (Hdead _ (endpoint_In p)) as H0.
  pose proof (Hdead _ (endpoint_In (S p))) as H1.
  pose proof (Hdead _ (endpoint_In (S (S p)))) as H2.
  pose proof (Hdead _ (endpoint_In (S (S (S p))))) as H3.
  cbn [startAll processNFT fst snd allSettled forallb settled andb nftContract].
  assert (Hround : forall i k cs' ,
             ownerOf E (endpoint E k) t = None ->
             round E ([(t, AwaitOwnerOf i (endpoint E k))],
                      mkState (S k) (endpoint E k) cs' us)
             = if (i + 1 <? 4)%nat
               then ([(t, AwaitOwnerOf (i + 1) (endpoint E (S k)))],
                     mkState (S (S k)) (endpoint E (S k))
                             (cs' ++ [CallOwnerOf (endpoint E (S k)) t]) us)
               else ([(t, Failed)], mkState (S (S k)) (endpoint E (S k)) cs' us)).
  { intros i k cs' Hk. unfold round. cbn [fst snd resumeAll].
    rewrite (resume_ownerOf_fails _ _ _ _ Hk). unfold rpcFailed.
    rewrite switchProvider_endpoint, length_RPC_LIST.
    destruct (i + 1 <? 4)%nat; reflexivity. }
  assert (Hidle : forall n st', Nat.iter n (round E) ([(t, Failed)], st') = ([(t, Failed)], st')).
  { induction n as [|n IH]; intros st'; [reflexivity|].
    rewrite Nat.iter_succ_r.
    change (round E ([(t, Failed)], st')) with ([(t, Failed)], st'). apply IH. }
  unfold issue. cbn [providerIndex nftContract calls upserts].
  do 4 rewrite Nat.iter_succ_r.
  rewrite (Hround 0%nat p _ H0). cbn [Nat.add Nat.ltb Nat.leb].
  rewrite (Hround 1%nat (S p) _ H1). cbn [Nat.add Nat.ltb Nat.leb].
  rewrite (Hround 2%nat (S (S p)) _ H2). cbn [Nat.add Nat.ltb Nat.leb].
  rewrite (Hround 3%nat (S (S (S p))) _ H3). cbn [Nat.add Nat.ltb Nat.leb].
  rewrite Hidle. cbn [fst snd providerIndex nftContract calls upserts].
  split; [reflexivity|]. split.
  - rewrite <- !app_assoc. cbn [app seq List.map]. rewrite Nat.add_0_r.
    replace (p + 1)%nat with (S p) by lia.
    replace (p + 2)%nat with (S (S p)) by lia.
    replace (p + 3)%nat with (S (S (S p))) by lia. reflexivity.
  - split; [|split; [f_equal; lia|reflexivity]].
    replace (S (S (S (S p)))) with (p + 4)%nat by lia. apply endpoint_period.
Qed.


(** *** The store *)

Lemma applyUpserts_lookup (rs : list OwnershipRecord) :
  forall (store : gmap string OwnershipRecord) (k : string),
    applyUpserts store rs !! k
    = match last (List.filter (fun r => String.eqb (token_id r) k) rs) with
      | Some r => Some r
      | None => store !! k
      end.
Proof.
  induction rs as [|a rs IH]; intros store k; [reflexivity|].
  unfold applyUpserts in *. cbn [foldl List.filter]. rewrite IH. unfold upsert.
  destruct (String.eqb_spec (token_id a) k) as [->|Hne].
  - rewrite last_cons. destruct (last _); [reflexivity|]. apply lookup_insert_eq.
  - destruct (last _); [reflexivity|]. apply lookup_insert_ne. exact Hne.
Qed.

(** When the endpoints agree, the rows of a settled token are the ones
    the chain state prescribes. *)
Lemma uniform_settledRows (t : nat) (rows : list OwnershipRecord) :
  uniform E -> settledRows E t rows -> rows = expectedRows E t.
Proof.
  intros Hu (Hshape & Hread & Hdead). unfold expectedRows.
  assert (H0 : In (APECHAIN_RPC E) (RPC_LIST E)) by (left; reflexivity).
  destruct (ownerOf E (APECHAIN_RPC E) t) as [o|] eqn:Ho.
  - destruct (tokenURI E (APECHAIN_RPC E) t) as [u|] eqn:Hu'.
    + assert (Hr : readable E t).
      { intros c Hc. destruct (Hu c (APECHAIN_RPC E) t Hc H0) as [-> ->].
        split; eauto. }
      destruct Hshape as [->|(r & -> & c1 & c2 & o' & u' & Hc1 & Hc2 & Ho' & Hu'' & ->)].
      * destruct (Hread Hr). reflexivity.
      * destruct (Hu c1 (APECHAIN_RPC E) t Hc1 H0) as [E1 _].
        destruct (Hu c2 (APECHAIN_RPC E) t Hc2 H0) as [_ E2].
        rewrite E1, Ho in Ho'. rewrite E2, Hu' in Hu''.
        injection Ho' as <-. injection Hu'' as <-. reflexivity.
    + apply Hdead. right. intros c Hc.
      destruct (Hu c (APECHAIN_RPC E) t Hc H0) as [_ ->]. exact Hu'.
  - apply Hdead. left. intros c Hc.
    destruct (Hu c (APECHAIN_RPC E) t Hc H0) as [-> _]. exact Ho.
Qed.

End NftRuns.

(** ** syncNFTMetadata.js: rows, idempotence, rotation *)

Section NftClaims.

Import SyncNFTMetadata.

(** C1, the run in which a token loses its row to the failure of a
    sibling.  Three tokens; the configured endpoint serves tokens 0 and
    2, token 1 cannot be read anywhere and the fallback endpoints are
    down; the pending promises resolve in token order.  The run
    completes with status 0 and token 1, which no endpoint serves, has
    no row; but the only row written is that of token 0.  Token 2 has
    none: the failure of token 1 rebinds the shared contract while the
    [ownerOf] of token 2 is in flight, so the reads of token 2 are
    spread over the dead endpoints and it is given up, although the
    configured endpoint serves it.  When the promises of token 1 resolve
    first, the same chain yields the rows of tokens 0 and 2, and so does
    the single-endpoint version of the script under either order. *)
Theorem C1_sibling_row_lost :
  let primary := APECHAIN_RPC primaryOnly in
  let out := finalState (main primaryOnly []) in
  totalSupply primaryOnly (nftContract (boot primaryOnly)) = Some 3%nat
  /\ ownerOf primaryOnly primary 2 = Some "0xBBB2"%string
  /\ tokenURI primaryOnly primary 2 = Some "ipfs://meta/2"%string
  /\ (forall c, ownerOf primaryOnly c 1 = None)
  /\ exitCode (main primaryOnly []) = Some 0
  /\ upserts out = [mkRecord "0" "0xC0FFEE" "0xaaa1" None]
  /\ rowsOf 1 (upserts out) = []
  /\ rowsOf 2 (upserts out) = []
  /\ endpointsTried 2 (calls out)
     = [primary; Some "https://rpc.apechain.com/http"%string;
        Some "https://33139.rpc.thirdweb.com"%string;
        Some "https://rpc.apechain.com/http"%string;
        Some "https://33139.rpc.thirdweb.com"%string]
  /\ upserts (finalState (main primaryOnly [1; 1; 1; 1]%nat))
     = [mkRecord "0" "0xC0FFEE" "0xaaa1" None; mkRecord "2" "0xC0FFEE" "0xbbb2" None]
  /\ SyncNFTMetadataLegacy.upserts
       (SyncNFTMetadataLegacy.finalState (SyncNFTMetadataLegacy.main primaryOnly []))
     = [mkRecord "0" "0xC0FFEE" "0xaaa1" None; mkRecord "2" "0xC0FFEE" "0xbbb2" None]
  /\ SyncNFTMetadataLegacy.upserts
       (SyncNFTMetadataLegacy.finalState
          (SyncNFTMetadataLegacy.main primaryOnly [1; 1; 1; 1]%nat))
     = [mkRecord "0" "0xC0FFEE" "0xaaa1" None; mkRecord "2" "0xC0FFEE" "0xbbb2" None].
Proof.
  cbv zeta. split; [reflexivity|]. split; [reflexivity|]. split; [reflexivity|].
  split; [intros c; reflexivity|].
  repeat split; vm_compute; reflexivity.
Qed.

(** X18.  Under every order in which the promises of the batches
    resolve, the ownership sync completes with status 0 and, for every
    token id below [totalSupply], writes at most one row.  A row of the
    token carries its id, the contract address, an owner and a URI
    answered for it by listed endpoints, and the name the metadata host
    gives.  When both reads succeed on every listed endpoint the token
    gets exactly one row, and its name is [null] when the metadata fetch
    fails; when one of the reads fails on every listed endpoint it gets
    none. *)
Theorem rows_under_any_schedule (E : Env) (sched : list nat) (total t : nat) :
  totalSupply E (nftContract (boot E)) = Some total ->
  (t < total)%nat ->
  let out := upserts (finalState (main E sched)) in
  exitCode (main E sched) = Some 0
  /\ (length (rowsOf t out) <= 1)%nat
  /\ (forall r, In r (rowsOf t out) -> validRow E t r)
  /\ (readable E t -> exists r, rowsOf t out = [r])
  /\ (readable E t ->
      (forall c u, In c (RPC_LIST E) -> tokenURI E c t = Some u ->
                   fetchMetadata E (toHttp u) = None) ->
      exists r, rowsOf t out = [r] /\ name r = None)
  /\ (unreadable E t -> rowsOf t out = []).
Proof.
  intros Htotal Ht out. subst out.
  destruct (nft_main_run E sched total Htotal) as (st & -> & _ & Hrows & _).
  cbn [exitCode finalState].
  destruct (Hrows t Ht) as (Hshape & Hread & Hdead).
  assert (Hone : readable E t ->
                 exists r, rowsOf t (upserts st) = [r] /\ validRow E t r).
  { intros Hr. destruct Hshape as [Hnil|(r & Heq & Hv)]; [destruct (Hread Hr Hnil)|].
    exists r. split; assumption. }
  split; [reflexivity|]. split; [|split; [|split; [|split]]].
  - destruct Hshape as [->|(r & -> & _)]; cbn; lia.
  - intros r Hr. destruct Hshape as [Hnil|(r' & Heq & Hv)].
    + rewrite Hnil in Hr. destruct Hr.
    + rewrite Heq in Hr. destruct Hr as [<-|[]]. exact Hv.
  - intros Hr. destruct (Hone Hr) as (r & Heq & _). exists r. exact Heq.
  - intros Hr Hfetch. destruct (Hone Hr) as (r & Heq & Hv). exists r. split; [exact Heq|].
    destruct Hv as (c1 & c2 & o & u & _ & Hc2 & _ & Hu & ->).
    cbn. unfold nameOf. rewrite (Hfetch c2 u Hc2 Hu). reflexivity.
  - exact Hdead.
Qed.

Lemma rows_under_any_schedule_witness :
  let out := upserts (finalState (main healthy [3; 1; 7; 7; 2; 44; 1; 0; 7; 21; 3]%nat)) in
  exitCode (main healthy [3; 1; 7; 7; 2; 44; 1; 0; 7; 21; 3]%nat) = Some 0
  /\ (length (rowsOf 3 out) <= 1)%nat
  /\ (forall r, In r (rowsOf 3 out) -> validRow healthy 3 r)
  /\ (readable healthy 3 -> exists r, rowsOf 3 out = [r])
  /\ (readable healthy 3 ->
      (forall c u, In c (RPC_LIST healthy) -> tokenURI healthy c 3 = Some u ->
                   fetchMetadata healthy (toHttp u) = None) ->
      exists r, rowsOf 3 out = [r] /\ name r = None)
  /\ (unreadable healthy 3 -> rowsOf 3 out = []).
Proof.
  apply (rows_under_any_schedule healthy [3; 1; 7; 7; 2; 44; 1; 0; 7; 21; 3]%nat 45 3).
  - reflexivity.
  - lia.
Defined.

(** The name of a row is [null] when the metadata fetch fails. *)
Lemma rowOf_name_null (E : Env) (t : nat) (o url : string) :
  fetchMetadata E url = None -> name (rowOf E t o url) = None.
Proof. intros H. cbn. unfold nameOf. rewrite H. reflexivity. Qed.

(** Every row written by a run belongs to a token, and no token gets
    more than one. *)
Lemma run_rows_keyed (E : Env) (sched : list nat) :
  let out := upserts (finalState (main E sched)) in
  Forall (fun r => exists t, token_id r = Js.toString t) out
  /\ (forall t, (length (rowsOf t out) <= 1)%nat).
Proof.
  cbv zeta. destruct (totalSupply E (nftContract (boot E))) as [total|] eqn:Htotal.
  - destruct (nft_main_run E sched total Htotal) as (st & -> & (_ & _ & Hk) & Hrows & Hnone).
    cbn [finalState]. split; [exact Hk|]. intros t.
    destruct (Nat.lt_ge_cases t total) as [Hlt|Hge].
    + destruct (Hrows t Hlt) as ([->|(r & -> & _)] & _); cbn; lia.
    + rewrite (Hnone t Hge). cbn. lia.
  - unfold main. rewrite Htotal. cbn. split; [constructor|]. intros t. lia.
Qed.

(** With endpoints that agree, the rows of a run do not depend on the
    order in which the promises resolve. *)
Lemma uniform_rows (E : Env) (sched : list nat) (t : nat) :
  uniform E ->
  rowsOf t (upserts (finalState (main E sched)))
  = match totalSupply E (nftContract (boot E)) with
    | Some total => if (t <? total)%nat then expectedRows E t else []
    | None => []
    end.
Proof.
  intros Hu. destruct (totalSupply E (nftContract (boot E))) as [total|] eqn:Htotal.
  - destruct (nft_main_run E sched total Htotal) as (st & -> & _ & Hrows & Hnone).
    cbn [finalState]. destruct (Nat.ltb_spec t total) as [Hlt|Hge].
    + apply uniform_settledRows; [exact Hu|apply Hrows, Hlt].
    + apply Hnone, Hge.
  - unfold main. rewrite Htotal. reflexivity.
Qed.

(** C6, two runs against the same chain answers that write different
    rows.  The chain is the one of the run above: every answer is a
    function of the endpoint and the token, the same in both runs.  With
    the promises resolving in token order token 2 gets no row; with
    those of token 1 resolving first it gets one.  Both runs end with
    status 0, and the upserts of the second run, applied to the store
    left by the first, add the row of token 2: they are not overwrites
    with the same values. *)
Theorem C6_resync_differs :
  let run1 := main primaryOnly [] in
  let run2 := main primaryOnly [1; 1; 1; 1]%nat in
  let out1 := upserts (finalState run1) in
  let out2 := upserts (finalState run2) in
  exitCode run1 = Some 0
  /\ exitCode run2 = Some 0
  /\ rowsOf 2 out1 = []
  /\ rowsOf 2 out2 = [mkRecord "2" "0xC0FFEE" "0xbbb2" None]
  /\ applyUpserts ∅ out1 !! "2"%string = None
  /\ applyUpserts (applyUpserts ∅ out1) out2 !! "2"%string
     = Some (mkRecord "2" "0xC0FFEE" "0xbbb2" None)
  /\ applyUpserts (applyUpserts ∅ out1) out2 <> applyUpserts ∅ out1.
Proof.
  cbv zeta.
  assert (H1 : applyUpserts ∅ (upserts (finalState (main primaryOnly []))) !! "2"%string
               = None).
  { rewrite applyUpserts_lookup.
    replace (upserts (finalState (main primaryOnly [])))
      with [mkRecord "0" "0xC0FFEE" "0xaaa1" None] by (vm_compute; reflexivity).
    reflexivity. }
  assert (H2 : applyUpserts (applyUpserts ∅ (upserts (finalState (main primaryOnly []))))
                 (upserts (finalState (main primaryOnly [1; 1; 1; 1]%nat))) !! "2"%string
               = Some (mkRecord "2" "0xC0FFEE" "0xbbb2" None)).
  { rewrite applyUpserts_lookup.
    replace (upserts (finalState (main primaryOnly [1; 1; 1; 1]%nat)))
      with [mkRecord "0" "0xC0FFEE" "0xaaa1" None; mkRecord "2" "0xC0FFEE" "0xbbb2" None]
      by (vm_compute; reflexivity).
    reflexivity. }
  split; [vm_compute; reflexivity|]. split; [vm_compute; reflexivity|].
  split; [vm_compute; reflexivity|]. split; [vm_compute; reflexivity|].
  split; [exact H1|]. split; [exact H2|].
  intros Heq. rewrite Heq, H1 in H2. discriminate H2.
Qed.

(** X19.  When every listed endpoint serves the same chain state, two
    runs of the ownership sync end with the same status and write the
    same rows, at most one per token, whatever the orders in which their
    promises resolve; applied to a store that already went through the
    first run, the upserts of the second run change nothing. *)
Theorem uniform_resync_idempotent (E : Env) (sched1 sched2 : list nat)
        (store : gmap string OwnershipRecord) :
  uniform E ->
  let out1 := upserts (finalState (main E sched1)) in
  let out2 := upserts (finalState (main E sched2)) in
  exitCode (main E sched1) = exitCode (main E sched2)
  /\ (forall t, rowsOf t out1 = rowsOf t out2 /\ (length (rowsOf t out1) <= 1)%nat)
  /\ (forall r, In r out1 <-> In r out2)
  /\ applyUpserts (applyUpserts store out1) out2 = applyUpserts store out1.
Proof.
  intros Hu out1 out2.
  destruct (run_rows_keyed E sched1) as [Hk1 Hone]. fold out1 in Hk1, Hone.
  destruct (run_rows_keyed E sched2) as [Hk2 _]. fold out2 in Hk2.
  assert (Hexit : exitCode (main E sched1) = exitCode (main E sched2)).
  { destruct (totalSupply E (nftContract (boot E))) as [total|] eqn:Htotal.
    - destruct (nft_main_run E sched1 total Htotal) as (st1 & -> & _).
      destruct (nft_main_run E sched2 total Htotal) as (st2 & -> & _). reflexivity.
    - unfold main. rewrite Htotal. reflexivity. }
  assert (Hrows : forall t, rowsOf t out1 = rowsOf t out2).
  { intros t. subst out1 out2. rewrite !uniform_rows by exact Hu. reflexivity. }
  assert (Hin : forall a b,
             Forall (fun r => exists t, token_id r = Js.toString t) a ->
             (forall t, rowsOf t a = rowsOf t b) ->
             forall r, In r a -> In r b).
  { intros a b Hk Hab r Hr. rewrite List.Forall_forall in Hk.
    destruct (Hk r Hr) as [t Ht].
    assert (Hf : In r (rowsOf t a)).
    { apply filter_In. split; [exact Hr|]. rewrite Ht. apply String.eqb_refl. }
    rewrite Hab in Hf. apply filter_In in Hf. tauto. }
  split; [exact Hexit|]. split; [intros t; split; [apply Hrows|apply Hone]|]. split.
  - intros r. split; apply Hin; try assumption; intros t; rewrite Hrows; reflexivity.
  - apply map_eq. intros k. rewrite !applyUpserts_lookup.
    destruct (List.filter (fun r => String.eqb (token_id r) k) out2) as [|r0 rest] eqn:Hf.
    + reflexivity.
    + assert (Hr0 : In r0 (List.filter (fun r => String.eqb (token_id r) k) out2))
        by (rewrite Hf; left; reflexivity).
      apply filter_In in Hr0 as [Hr0 Hkey]. apply String.eqb_eq in Hkey.
      rewrite List.Forall_forall in Hk2. destruct (Hk2 r0 Hr0) as [t Ht].
      assert (k = Js.toString t) as -> by congruence.
      fold (rowsOf t out2) in Hf. fold (rowsOf t out1).
      rewrite <- Hf, <- Hrows.
      destruct (last (rowsOf t out1)); reflexivity.
Qed.

(** Replaying a run (same chain, same resolution order) over its own
    store changes nothing, whatever the chain: an upsert by key
    overwrites a row with itself. *)
Lemma resync_replay (E : Env) (sched : list nat) (store : gmap string OwnershipRecord) :
  let out := upserts (finalState (main E sched)) in
  applyUpserts (applyUpserts store out) out = applyUpserts store out.
Proof.
  intros out. apply map_eq. intros k. rewrite !applyUpserts_lookup.
  destruct (last _); reflexivity.
Qed.

Lemma healthy_uniform : uniform healthy.
Proof. intros c c' t _ _. split; reflexivity. Qed.

Lemma uniform_resync_idempotent_witness :
  let out1 := upserts (finalState (main healthy [])) in
  let out2 := upserts (finalState (main healthy [3; 1; 7; 7; 2; 44; 1; 0; 7; 21; 3]%nat)) in
  exitCode (main healthy []) = exitCode (main healthy [3; 1; 7; 7; 2; 44; 1; 0; 7; 21; 3]%nat)
  /\ (forall t, rowsOf t out1 = rowsOf t out2 /\ (length (rowsOf t out1) <= 1)%nat)
  /\ (forall r, In r out1 <-> In r out2)
  /\ applyUpserts (applyUpserts ∅ out1) out2 = applyUpserts ∅ out1.
Proof.
  apply (uniform_resync_idempotent healthy [] [3; 1; 7; 7; 2; 44; 1; 0; 7; 21; 3]%nat ∅).
  exact healthy_uniform.
Defined.

(** In the sample every endpoint serves token 3, whose metadata is
    missing, and none serves token 7. *)
Example healthy_tokens :
  readable healthy 3
  /\ (forall c u, In c (RPC_LIST healthy) -> tokenURI healthy c 3 = Some u ->
                  fetchMetadata healthy (toHttp u) = None)
  /\ unreadable healthy 7
  /\ rowsOf 3 (upserts (finalState (main healthy [3; 1; 7; 7; 2; 44; 1; 0; 7; 21; 3]%nat)))
     = [mkRecord "3" "0xC0FFEE" "0xabc" None].
Proof.
  split; [|split; [|split]].
  - intros c _. split; eexists; reflexivity.
  - intros c u _ Hu. cbn in Hu. injection Hu as <-. reflexivity.
  - left. intros c _. reflexivity.
  - vm_compute. reflexivity.
Qed.

(** The two runs of the sample, evaluated: forty-four rows each (token 7
    is skipped), in different orders. *)
Example healthy_runs :
  let out1 := upserts (finalState (main healthy [])) in
  let out2 := upserts (finalState (main healthy [3; 1; 7; 7; 2; 44; 1; 0; 7; 21; 3]%nat)) in
  length out1 = 44%nat /\ length out2 = 44%nat
  /\ List.map token_id (firstn 4 out1) = ["0"; "1"; "2"; "3"]%string
  /\ List.map token_id (firstn 4 out2) = ["1"; "3"; "0"; "2"]%string
  /\ List.map name (firstn 3 out1) = [None; None; Some "Ape #2"%string]
  /\ rowsOf 7 out1 = [].
Proof. vm_compute. repeat split; reflexivity. Qed.

(** C9, a token whose retries do not go round the list.  In the run of
    three tokens above (promises resolving in token order) token 1 fails
    on the configured endpoint [A] and is retried while token 2 rotates
    the same index: its four attempts go to [A], the second and the
    third listed endpoint and [A] again.  The rotation returns to [A]
    two turns early for this token, and the last listed endpoint is
    never tried for it.  The index itself only advances, by one per
    rotation, and the same token processed alone is tried on the four
    listed endpoints once each. *)
Theorem C9_rotation_shared :
  let A := APECHAIN_RPC primaryOnly in
  let out := finalState (main primaryOnly []) in
  let lone := snd (allSettled primaryOnly []
                     (fst (startAll [1%nat] (boot primaryOnly)))
                     (snd (startAll [1%nat] (boot primaryOnly)))) in
  RPC_LIST primaryOnly
  = [A; Some "https://rpc.apechain.com/http"%string;
     Some "https://apechain.drpc.org"%string;
     Some "https://33139.rpc.thirdweb.com"%string]
  /\ nftContract (boot primaryOnly) = A
  /\ (forall c, ownerOf primaryOnly c 1 = None)
  /\ endpointsTried 1 (calls out)
     = [A; Some "https://rpc.apechain.com/http"%string;
        Some "https://apechain.drpc.org"%string; A]
  /\ ~ In (Some "https://33139.rpc.thirdweb.com"%string) (endpointsTried 1 (calls out))
  /\ providerIndex out = (providerIndex (boot primaryOnly) + 8)%nat
  /\ endpointsTried 1 (calls (snd lone)) = RPC_LIST primaryOnly.
Proof.
  cbv zeta. split; [reflexivity|]. split; [reflexivity|].
  split; [intros c; reflexivity|].
  split; [vm_compute; reflexivity|].
  split.
  - replace (endpointsTried 1 (calls (finalState (main primaryOnly []))))
      with [APECHAIN_RPC primaryOnly; Some "https://rpc.apechain.com/http"%string;
            Some "https://apechain.drpc.org"%string; APECHAIN_RPC primaryOnly]
      by (vm_compute; reflexivity).
    intros Hin. cbn in Hin.
    destruct Hin as [H|[H|[H|[H|[]]]]]; discriminate H.
  - split; vm_compute; reflexivity.
Qed.

(** X20.  Rotation is round robin over the listed endpoints and its
    index only advances.  In a well-formed state, where the contract is
    bound to [A], the next N rotations return every other listed
    endpoint exactly once, in list order, and then [A] again.  A token
    whose owner cannot be read anywhere, processed alone, is attempted
    once on [A] and once on each other endpoint in that order, and leaves
    the contract bound to [A]. *)
Theorem rotation_round_robin (E : Env) (st : State) (t : nat) :
  validState E st ->
  let N := length (RPC_LIST E) in
  let A := nftContract st in
  providerIndex (snd (getProvider E st)) = S (providerIndex st)
  /\ (forall n, providerIndex (snd (rotations E n st)) = (providerIndex st + n)%nat)
  /\ (exists others,
        A :: others = rotate (providerIndex st - 1) (RPC_LIST E)
        /\ Permutation (A :: others) (RPC_LIST E)
        /\ fst (rotations E N st) = others ++ [A])
  /\ ((forall c, In c (RPC_LIST E) -> ownerOf E c t = None) ->
      let started := startAll [t] st in
      let done := snd (allSettled E [] (fst started) (snd started)) in
      fst done = [(t, Failed)]
      /\ endpointsTried t (drop (length (calls st)) (calls (snd done)))
         = rotate (providerIndex st - 1) (RPC_LIST E)
      /\ nftContract (snd done) = A).
Proof.
  intros Hst N A.
  split; [reflexivity|].
  split; [intros n; destruct (rotations_spec E n st) as [_ ->]; reflexivity|].
  pose proof Hst as (Hp & Hc & _).
  change (nftContract st = endpoint E (providerIndex st - 1)) in Hc.
  split.
  - exists [endpoint E (providerIndex st); endpoint E (providerIndex st + 1);
            endpoint E (providerIndex st + 2)].
    assert (Hrot : A :: [endpoint E (providerIndex st); endpoint E (providerIndex st + 1);
                         endpoint E (providerIndex st + 2)]
                   = rotate (providerIndex st - 1) (RPC_LIST E)).
    { rewrite rotate_endpoints. cbn [seq List.map]. subst A. rewrite Hc.
      rewrite Nat.add_0_r.
      replace (providerIndex st - 1 + 1)%nat with (providerIndex st) by lia.
      replace (providerIndex st - 1 + 2)%nat with (providerIndex st + 1)%nat by lia.
      replace (providerIndex st - 1 + 3)%nat with (providerIndex st + 2)%nat by lia.
      reflexivity. }
    split; [exact Hrot|]. split; [rewrite Hrot; apply rotate_Permutation|].
    destruct (rotations_spec E N st) as [-> _]. subst N A.
    rewrite length_RPC_LIST. cbn [seq List.map app]. rewrite Nat.add_0_r, Hc.
    do 3 f_equal. f_equal.
    rewrite <- (endpoint_period E (providerIndex st - 1)). f_equal. lia.
  - intros Hdead.
    destruct (lone_failure E t st Hst Hdead) as (Hdone & Hcalls & Hbind & _).
    cbv zeta. split; [exact Hdone|]. split; [|exact Hbind].
    rewrite Hcalls, drop_app_length, rotate_endpoints.
    generalize (seq 0 4) as js. intros js. unfold endpointsTried.
    induction js as [|j js IH]; [reflexivity|].
    cbn. rewrite Nat.eqb_refl. cbn in IH. rewrite IH. reflexivity.
Qed.

Lemma rotation_round_robin_witness :
  let st := boot primaryOnly in
  let N := length (RPC_LIST primaryOnly) in
  let A := nftContract st in
  providerIndex (snd (getProvider primaryOnly st)) = S (providerIndex st)
  /\ (forall n, providerIndex (snd (rotations primaryOnly n st)) = (providerIndex st + n)%nat)
  /\ (exists others,
        A :: others = rotate (providerIndex st - 1) (RPC_LIST primaryOnly)
        /\ Permutation (A :: others) (RPC_LIST primaryOnly)
        /\ fst (rotations primaryOnly N st) = others ++ [A])
  /\ ((forall c, In c (RPC_LIST primaryOnly) -> ownerOf primaryOnly c 1 = None) ->
      let started := startAll [1%nat] st in
      let done := snd (allSettled primaryOnly [] (fst started) (snd started)) in
      fst done = [(1%nat, Failed)]
      /\ endpointsTried 1 (drop (length (calls st)) (calls (snd done)))
         = rotate (providerIndex st - 1) (RPC_LIST primaryOnly)
      /\ nftContract (snd done) = A).
Proof.
  apply (rotation_round_robin primaryOnly (boot primaryOnly) 1).
  apply validState_boot.
Defined.

(** The rotation of the sample, evaluated from the initial state. *)
Example rotations_from_boot :
  fst (rotations primaryOnly 5 (boot primaryOnly))
  = [Some "https://rpc.apechain.com/http"%string;
     Some "https://apechain.drpc.org"%string;
     Some "https://33139.rpc.thirdweb.com"%string;
     Some "https://primary.example"%string;
     Some "https://rpc.apechain.com/http"%string]
  /\ nftContract (boot primaryOnly) = Some "https://primary.example"%string.
Proof. vm_compute. split; reflexivity. Qed.

End NftClaims.

(** ** The exit status of both scripts *)



(** * Further properties of the order sync *)

Section SeaportLedger.

Import SyncSeaportOrders.

Context (E : Env).

Lemma failures_app (a b : list Effect) : failures (a ++ b) = failures a ++ failures b.
Proof. apply List.filter_app. Qed.

Lemma postsOf_app (s : Status) (a b : list Effect) :
  postsOf s (a ++ b) = postsOf s a ++ postsOf s b.
Proof. unfold postsOf. rewrite posts_app. apply List.filter_app. Qed.

Lemma ledger_balanced (w w' : World) : ledger w' = ledger w -> balanced w -> balanced w'.
Proof.
  unfold ledger, balanced, postsOf. intros H. injection H as -> -> -> -> ->. tauto.
Qed.

Lemma keepsLedger_preserves {A} (m : M A) : keepsLedger m -> preserves balanced m.
Proof. intros H w Hw. exact (ledger_balanced w _ (H w) Hw). Qed.

Lemma preserves_bind {A B} (I : World -> Prop) (m : M A) (k : A -> M B) :
  preserves I m -> (forall a, preserves I (k a)) -> preserves I (bind m k).
Proof.
  intros Hm Hk w Hw. unfold bind. specialize (Hm w Hw).
  destruct (m w) as [[a| | |] w1]; cbn [snd] in *; try exact Hm.
  apply Hk, Hm.
Qed.

Lemma preserves_try_catch {A} (I : World -> Prop) (m h : M A) :
  preserves I m -> preserves I h -> preserves I (try_catch m h).
Proof.
  intros Hm Hh w Hw. unfold try_catch. specialize (Hm w Hw).
  destruct (m w) as [[a| | |] w1]; cbn [snd] in *; try exact Hm.
  apply Hh, Hm.
Qed.

Lemma preserves_same {A} (I : World -> Prop) (m : M A) :
  (forall w, snd (m w) = w) -> preserves I m.
Proof. intros H w Hw. rewrite H. exact Hw. Qed.

(** Logging anything but a POST or a failure line keeps the ledger. *)
Lemma log_keepsLedger (e : Effect) :
  posts [e] = [] -> failures [e] = [] -> keepsLedger (log e).
Proof.
  intros Hp Hf w. unfold ledger, log. cbn [snd trace totalActive totalFulfilled totalCancelled].
  rewrite posts_app, failures_app, Hp, Hf, !app_nil_r. reflexivity.
Qed.

Lemma next_tick_keepsLedger : keepsLedger next_tick.
Proof. intros w. reflexivity. Qed.

Lemma set_provider_keepsLedger (p : string) : keepsLedger (set_provider p).
Proof. intros w. reflexivity. Qed.

(** One event: the POST is matched by a counter or by a failure line. *)
Lemma forEvents_balanced (kind : EventName) (events : list LogEntry) :
  preserves balanced (forEvents E kind events).
Proof.
  induction events as [|ev rest IH]; intros w Hw; [exact Hw|].
  destruct (throws E kind ev) eqn:Hread.
  { cbn [forEvents]. rewrite Hread. exact Hw. }
  assert (Hstep : exists w1, forEvents E kind (ev :: rest) w = forEvents E kind rest w1
                             /\ balanced w1).
  { destruct Hw as (H1 & H2 & H3 & H4).
    cbn [forEvents]. rewrite Hread.
    unfold postOrderEvent, bind, next_tick, log, ret, count.
    destruct kind; cbn;
      destruct (backend E (tick w) _); cbn;
      (eexists; split; [reflexivity|]);
      unfold balanced, postsOf; cbn [trace totalActive totalFulfilled totalCancelled];
      rewrite ?posts_app, ?failures_app, ?List.filter_app, ?length_app in *; cbn;
      unfold postsOf in *; cbn [rank] in *; lia. }
  destruct Hstep as (w1 & -> & Hw1). apply IH, Hw1.
Qed.

Lemma safeQueryFilter_keepsLedger (kind : EventName) (from to : Z) :
  keepsLedger (safeQueryFilter E kind from to).
Proof.
  intros w.
  destruct (safeQueryFilter_run E kind from to w)
    as (n & _ & _ & [(logs & _ & ->)|(_ & _ & ->)]);
    unfold ledger, after; cbn [snd trace totalActive totalFulfilled totalCancelled];
    rewrite posts_app, failures_app.
  - destruct (retryTrace_quiet kind from to n) as [_ ->].
    assert (Hf : failures (retryTrace kind from to n) = []).
    { unfold retryTrace. cbn. generalize (seq 1 n). intros js.
      induction js as [|j js IHj]; [reflexivity|exact IHj]. }
    rewrite Hf, !app_nil_r. reflexivity.
  - destruct (retryTrace_quiet kind from to 3) as [_ ->]. rewrite !app_nil_r. reflexivity.
Qed.

Lemma scanCallback_balanced (kind : EventName) (s e : Z) :
  preserves balanced (scanCallback E kind s e).
Proof.
  unfold scanCallback. apply preserves_bind.
  - apply keepsLedger_preserves, safeQueryFilter_keepsLedger.
  - intros logs. apply forEvents_balanced.
Qed.

Lemma queryInChunks_loop_preserves (I : World -> Prop) (cb : Z -> Z -> M unit) (fuel : nat) :
  (forall e, posts [e] = [] -> failures [e] = [] -> preserves I (log e)) ->
  (forall s e, preserves I (cb s e)) ->
  forall start to, preserves I (queryInChunks_loop fuel cb start to).
Proof.
  intros Hlog Hcb. induction fuel as [|fuel IH]; intros start to; cbn [queryInChunks_loop];
    destruct (start <=? to); try (apply preserves_same; intros ?; reflexivity).
  apply preserves_bind; [apply Hlog; reflexivity|]. intros _.
  apply preserves_bind; [|intros _; apply IH].
  apply preserves_try_catch; [apply Hcb|apply Hlog; reflexivity].
Qed.

Lemma probe_keepsLedger (rpcs : list (option string)) : preserves balanced (probe E rpcs).
Proof.
  induction rpcs as [|r rest IH]; cbn [probe]; [(apply preserves_same; intros ?; reflexivity)|].
  destruct (Js.truthy r) as [rpc|]; [|exact IH].
  apply preserves_try_catch.
  - apply preserves_bind; [apply keepsLedger_preserves, next_tick_keepsLedger|]. intros t.
    apply preserves_bind; [apply keepsLedger_preserves, log_keepsLedger; reflexivity|]. intros _.
    apply preserves_bind.
    + unfold await. destruct (getBlockNumber E t rpc); (apply preserves_same; intros ?; reflexivity).
    + intros _. apply preserves_bind;
        [apply keepsLedger_preserves, log_keepsLedger; reflexivity|].
      intros _. apply keepsLedger_preserves, set_provider_keepsLedger.
  - apply preserves_bind; [apply keepsLedger_preserves, log_keepsLedger; reflexivity|].
    intros _. exact IH.
Qed.

Lemma script_balanced : preserves balanced (script E).
Proof.
  assert (Hlog : forall e, posts [e] = [] -> failures [e] = [] -> preserves balanced (log e)).
  { intros e Hp Hf. apply keepsLedger_preserves, log_keepsLedger; assumption. }
  unfold script. destruct (_ || _ || _)%bool.
  - apply preserves_bind; [apply Hlog; reflexivity|]. intros _. (apply preserves_same; intros ?; reflexivity).
  - apply preserves_try_catch.
    2:{ apply preserves_bind; [apply Hlog; reflexivity|]. intros _. (apply preserves_same; intros ?; reflexivity). }
    unfold main. apply preserves_bind; [apply Hlog; reflexivity|]. intros _.
    apply preserves_bind.
    { unfold initProvider. apply preserves_bind; [apply probe_keepsLedger|]. intros _.
      apply preserves_bind; [(apply preserves_same; intros ?; reflexivity)|]. intros [rpc|].
      - (apply preserves_same; intros ?; reflexivity).
      - apply preserves_bind; [apply Hlog; reflexivity|]. intros _. (apply preserves_same; intros ?; reflexivity). }
    intros _. apply preserves_bind; [(apply preserves_same; intros ?; reflexivity)|]. intros p.
    apply preserves_bind; [apply keepsLedger_preserves, next_tick_keepsLedger|]. intros t.
    apply preserves_bind.
    { destruct p as [rpc|]; [|(apply preserves_same; intros ?; reflexivity)].
      apply preserves_bind; [apply Hlog; reflexivity|]. intros _.
      unfold await. destruct (getBlockNumber E t rpc); (apply preserves_same; intros ?; reflexivity). }
    intros latestBlock. apply preserves_bind; [apply Hlog; reflexivity|]. intros _.
    apply preserves_bind;
      [apply queryInChunks_loop_preserves; [exact Hlog|apply scanCallback_balanced]|]. intros _.
    apply preserves_bind;
      [apply queryInChunks_loop_preserves; [exact Hlog|apply scanCallback_balanced]|]. intros _.
    apply preserves_bind;
      [apply queryInChunks_loop_preserves; [exact Hlog|apply scanCallback_balanced]|]. intros _.
    apply preserves_bind; [(apply preserves_same; intros ?; reflexivity)|]. intros w0.
    apply Hlog; reflexivity.
Qed.

End SeaportLedger.

Section SeaportPasses.

Import SyncSeaportOrders.

Context (E : Env).

Lemma probes_app (a b : list Effect) : probes (a ++ b) = probes a ++ probes b.
Proof. unfold probes. induction a as [|[] a IH]; cbn; rewrite ?IH; reflexivity. Qed.

Lemma scanTrace_posts (kind : EventName) cs d :
  scanTrace (passSegment E kind) cs d ->
  Forall (fun p => status p = statusOf kind) (posts d).
Proof.
  intros H. induction H as [|s e d threw rest tail (_ & Hd & _) Hrest IH]; [constructor|].
  change (ChunkScan s e :: ?l) with ([ChunkScan s e] ++ l).
  rewrite !posts_app.
  assert (Hthrew : posts (if threw then [ChunkError] else []) = []) by (destruct threw; reflexivity).
  rewrite Hthrew. cbn [posts omap app]. change (omap _ d) with (posts d).
  apply (Forall_app_2 _ (posts d) (posts tail)); [|exact IH].
  destruct Hd as [->|(t & rpc & logs & _ & ->)]; [constructor|].
  apply List.Forall_forall. intros p Hp. apply in_map_iff in Hp as (ev & <- & _).
  destruct kind; reflexivity.
Qed.

(** A completed run, piece by piece: the start-up, the three passes over
    the same range in the order validated, fulfilled, cancelled, and the
    summary. *)
Lemma script_trace (rpc : string) (t : nat) (L : Z) :
  configured E = true ->
  probed E 0 (RPC_LIST E) = (Some rpc, t) ->
  getBlockNumber E t rpc = Some L ->
  exists w' d0 d1 d2 d3,
    script E initial = (Return tt, w')
    /\ trace w'
       = (SyncStarted :: d0 ++ [LatestBlock rpc; BlockRange (FROM_BLOCK E) L])
         ++ d1 ++ d2 ++ d3
         ++ [SyncFinished (totalActive w') (totalFulfilled w') (totalCancelled w')]
    /\ noItemWork d0
    /\ scanTrace (passSegment E OrderValidated) (subRanges (FROM_BLOCK E) L) d1
    /\ scanTrace (passSegment E OrderFulfilled) (subRanges (FROM_BLOCK E) L) d2
    /\ scanTrace (passSegment E OrderCancelled) (subRanges (FROM_BLOCK E) L) d3.
Proof.
  intros Hconf Hprobed HL.
  set (w0 := snd (log SyncStarted initial)).
  destruct (probe_run E (RPC_LIST E) w0) as (w1 & d & Hrun & Htr & Hd & Htick & Hprov).
  change (tick w0) with 0%nat in Htick, Hprov. change (provider w0) with (@None string) in Hprov.
  change (trace w0) with [SyncStarted] in Htr.
  rewrite Hprobed in Htick, Hprov. cbn [fst snd] in Htick, Hprov.
  assert (Hmain : main E initial
            = (queryInChunks (scanCallback E OrderValidated) (FROM_BLOCK E) L ;;;
               queryInChunks (scanCallback E OrderFulfilled) (FROM_BLOCK E) L ;;;
               queryInChunks (scanCallback E OrderCancelled) (FROM_BLOCK E) L ;;;
               w <- (fun w => (Return w, w)) ;;
               log (SyncFinished (totalActive w) (totalFulfilled w) (totalCancelled w)))
                (snd (log (BlockRange (FROM_BLOCK E) L)
                       (snd (log (LatestBlock rpc) (snd (next_tick w1))))))).
  { unfold main, initProvider. unfold bind at 1. unfold log at 1. cbv beta iota.
    unfold bind at 1 2.
    match goal with |- context [probe E (RPC_LIST E) ?w] => change w with w0 end.
    rewrite Hrun.
    destruct w1 as [t1 tr1 p1 a1 f1 c1]. cbn in Htick, Hprov. subst t1 p1.
    cbn. rewrite HL. reflexivity. }
  set (wa := snd (log (BlockRange (FROM_BLOCK E) L) _)) in Hmain.
  assert (Hwa : trace wa = SyncStarted :: d ++ [LatestBlock rpc; BlockRange (FROM_BLOCK E) L]).
  { subst wa. cbn. rewrite Htr. cbn. rewrite <- app_assoc. reflexivity. }
  destruct (queryInChunks_loop_run (passSegment E OrderValidated) (scanCallback E OrderValidated)
              (scanCallback_settles E OrderValidated) (Z.to_nat (L - FROM_BLOCK E + 1))
              (FROM_BLOCK E) L wa ltac:(lia)) as (w2 & d1 & H1 & Ht1 & Hs1).
  destruct (queryInChunks_loop_run (passSegment E OrderFulfilled) (scanCallback E OrderFulfilled)
              (scanCallback_settles E OrderFulfilled) (Z.to_nat (L - FROM_BLOCK E + 1))
              (FROM_BLOCK E) L w2 ltac:(lia)) as (w3 & d2 & H2 & Ht2 & Hs2).
  destruct (queryInChunks_loop_run (passSegment E OrderCancelled) (scanCallback E OrderCancelled)
              (scanCallback_settles E OrderCancelled) (Z.to_nat (L - FROM_BLOCK E + 1))
              (FROM_BLOCK E) L w3 ltac:(lia)) as (w4 & d3 & H3 & Ht3 & Hs3).
  fold (queryInChunks (scanCallback E OrderValidated) (FROM_BLOCK E) L) in H1.
  fold (queryInChunks (scanCallback E OrderFulfilled) (FROM_BLOCK E) L) in H2.
  fold (queryInChunks (scanCallback E OrderCancelled) (FROM_BLOCK E) L) in H3.
  assert (Hend : main E initial
                 = log (SyncFinished (totalActive w4) (totalFulfilled w4) (totalCancelled w4)) w4).
  { rewrite Hmain. unfold bind at 1. rewrite H1. unfold bind at 1. rewrite H2.
    unfold bind at 1. rewrite H3. reflexivity. }
  eexists _, d, d1, d2, d3. split.
  - unfold script. unfold configured in Hconf. apply negb_true_iff in Hconf. rewrite Hconf.
    unfold try_catch. rewrite Hend. reflexivity.
  - split; [|split; [exact Hd|split; [exact Hs1|split; [exact Hs2|exact Hs3]]]].
    cbn. rewrite Ht3, Ht2, Ht1, Hwa. cbn. rewrite <- !app_assoc. reflexivity.
Qed.

End SeaportPasses.

Section SeaportProbe.

Import SyncSeaportOrders.

Context (E : Env).

(** The probing loop, by the first candidate that answers: the
    candidates before it are probed once each and fail, it is probed and
    selected, and the candidates after it are never contacted. *)
Lemma probe_first_live (rpcs : list (option string)) :
  forall (w : World) (k : nat) (rpc : string) (b : Z),
    omap Js.truthy rpcs !! k = Some rpc ->
    (forall i r, (i < k)%nat -> omap Js.truthy rpcs !! i = Some r ->
                 getBlockNumber E (tick w + i) r = None) ->
    getBlockNumber E (tick w + k) rpc = Some b ->
    exists w' d,
      probe E rpcs w = (Return tt, w')
      /\ trace w' = trace w ++ d
      /\ provider w' = Some rpc
      /\ tick w' = (tick w + S k)%nat
      /\ probes d = take (S k) (omap Js.truthy rpcs).
Proof.
  induction rpcs as [|r rest IH]; intros w k rpc b Hk Hbefore Hlive; [discriminate|].
  cbn [probe]. cbn in Hk, Hbefore |- *.
  destruct (Js.truthy r) as [rpc0|]; [|apply (IH w k rpc b); assumption].
  destruct k as [|k].
  - cbn in Hk. injection Hk as ->. rewrite Nat.add_0_r in Hlive.
    eexists _, [ProbeRpc rpc; RpcWorking rpc].
    unfold try_catch, bind, next_tick, log, await, ret, throw, set_provider. cbn.
    rewrite Hlive. cbn. rewrite <- app_assoc.
    split; [reflexivity|]. cbn. repeat split; first [reflexivity | lia].
  - cbn in Hk.
    assert (Hdead : getBlockNumber E (tick w) rpc0 = None).
    { rewrite <- (Nat.add_0_r (tick w)). apply Hbefore; [lia|reflexivity]. }
    set (w1 := mkWorld (S (tick w)) (trace w ++ [ProbeRpc rpc0; RpcFailed rpc0]) (provider w)
                       (totalActive w) (totalFulfilled w) (totalCancelled w)).
    destruct (IH w1 k rpc b Hk) as (w' & d & Hrun & Htr & Hprov & Htick & Hprobes).
    { intros i r' Hi Hr'. cbn [w1 tick]. replace (S (tick w) + i)%nat with (tick w + S i)%nat by lia.
      apply Hbefore; [lia|exact Hr']. }
    { cbn [w1 tick]. replace (S (tick w) + k)%nat with (tick w + S k)%nat by lia. exact Hlive. }
    exists w', ([ProbeRpc rpc0; RpcFailed rpc0] ++ d).
    split.
    { unfold try_catch. unfold bind at 1 2 3. unfold next_tick, await. unfold log at 1. cbn.
      rewrite Hdead. cbn. rewrite <- app_assoc. exact Hrun. }
    split; [rewrite Htr; cbn; rewrite <- app_assoc; reflexivity|].
    split; [exact Hprov|].
    split; [rewrite Htick; cbn; lia|].
    rewrite probes_app, Hprobes. reflexivity.
Qed.

(** The probing loop when no candidate answers: every candidate is
    probed once, in list order, and the provider is left as it was. *)
Lemma probe_none_live (rpcs : list (option string)) :
  forall (w : World),
    (forall i r, omap Js.truthy rpcs !! i = Some r ->
                 getBlockNumber E (tick w + i) r = None) ->
    exists w' d,
      probe E rpcs w = (Return tt, w')
      /\ trace w' = trace w ++ d
      /\ provider w' = provider w
      /\ probes d = omap Js.truthy rpcs.
Proof.
  induction rpcs as [|r rest IH]; intros w Hdead.
  - exists w, []. rewrite app_nil_r. repeat split; reflexivity.
  - cbn [probe]. cbn in Hdead |- *.
    destruct (Js.truthy r) as [rpc0|]; [|apply (IH w); assumption].
    assert (H0 : getBlockNumber E (tick w) rpc0 = None).
    { rewrite <- (Nat.add_0_r (tick w)). apply (Hdead 0%nat). reflexivity. }
    set (w1 := mkWorld (S (tick w)) (trace w ++ [ProbeRpc rpc0; RpcFailed rpc0]) (provider w)
                       (totalActive w) (totalFulfilled w) (totalCancelled w)).
    destruct (IH w1) as (w' & d & Hrun & Htr & Hprov & Hprobes).
    { intros i r' Hr'. cbn [w1 tick]. replace (S (tick w) + i)%nat with (tick w + S i)%nat by lia.
      apply Hdead. exact Hr'. }
    exists w', ([ProbeRpc rpc0; RpcFailed rpc0] ++ d).
    split.
    { unfold try_catch. unfold bind at 1 2 3. unfold next_tick, await. unfold log at 1. cbn.
      rewrite H0. cbn. rewrite <- app_assoc. exact Hrun. }
    split; [rewrite Htr; cbn; rewrite <- app_assoc; reflexivity|].
    split; [exact Hprov|].
    rewrite probes_app, Hprobes. reflexivity.
Qed.

End SeaportProbe.

Section SeaportExtras.

Import SyncSeaportOrders.

Lemma postsOf_total (tr : list Effect) :
  length (posts tr)
  = (length (postsOf active tr) + length (postsOf fulfilled tr)
     + length (postsOf cancelled tr))%nat.
Proof.
  unfold postsOf. induction (posts tr) as [|p l IH]; [reflexivity|].
  cbn in *. destruct (status p); cbn in *; lia.
Qed.

Lemma subRanges_cover (to b : Z) :
  forall from,
    length (List.filter (holdsBlock b) (subRanges from to))
    = if ((from <=? b) && (b <=? to))%bool then 1%nat else 0%nat.
Proof.
  apply (subRanges_ind to (fun from l =>
           length (List.filter (holdsBlock b) l)
           = if ((from <=? b) && (b <=? to))%bool then 1%nat else 0%nat)).
  - intros from Hlt. cbn.
    destruct (Z.leb_spec from b); destruct (Z.leb_spec b to); try reflexivity. lia.
  - intros from Hle IH. cbn [List.filter]. unfold holdsBlock at 1. cbn [fst snd].
    unfold CHUNK in *.
    destruct (Z.leb_spec from b); destruct (Z.leb_spec b (Z.min (from + 5000) to));
      destruct (Z.leb_spec (Z.min (from + 5000) to + 1) b); destruct (Z.leb_spec b to);
      cbn [andb length] in *; rewrite ?IH; try reflexivity; lia.
Qed.

Lemma passSegment_chunkScans (E : Env) (kind : EventName) (s e : Z) (d : list Effect) :
  passSegment E kind s e d -> chunkScans d = [].
Proof. intros [H _]. exact H. Qed.

Lemma started_run (E : Env) :
  (configured E && latestBlockRead E)%bool = true ->
  exists rpc t L,
    configured E = true /\ probed E 0 (RPC_LIST E) = (Some rpc, t)
    /\ getBlockNumber E t rpc = Some L.
Proof.
  intros H. apply andb_true_iff in H as [Hc Hl]. unfold latestBlockRead in Hl.
  destruct (probed E 0 (RPC_LIST E)) as [[rpc|] t]; [|discriminate].
  destruct (getBlockNumber E t rpc) as [L|] eqn:HL; [|discriminate].
  exists rpc, t, L. repeat split; assumption.
Qed.

(** X1.  At the end of every run of the order sync, and whatever the
    chain and the backend answered, the three counters and the failure
    lines account for the POSTs one for one: every POST either bumped
    one counter or left one failure line; no counter exceeds the number
    of POSTs of its status; and the POSTs that were not counted are as
    many as the failure lines. *)
Theorem counters_account_for_posts (E : Env) :
  let w := snd (script E initial) in
  let tr := trace w in
  (totalActive w + totalFulfilled w + totalCancelled w + length (failures tr)
   = length (posts tr))%nat
  /\ (totalActive w <= length (postsOf active tr))%nat
  /\ (totalFulfilled w <= length (postsOf fulfilled tr))%nat
  /\ (totalCancelled w <= length (postsOf cancelled tr))%nat
  /\ ((length (postsOf active tr) - totalActive w)
      + (length (postsOf fulfilled tr) - totalFulfilled w)
      + (length (postsOf cancelled tr) - totalCancelled w)
      = length (failures tr))%nat.
Proof.
  intros w tr.
  assert (Hb : balanced w).
  { apply (script_balanced E initial). unfold balanced. cbn. lia. }
  destruct Hb as (H0 & H1 & H2 & H3). fold tr in H0, H1, H2, H3.
  pose proof (postsOf_total tr) as Ht.
  repeat split; try assumption. lia.
Qed.



(** X3.  In every run the POSTs come grouped by status, in the order of
    the passes: first those with status active, then the fulfilled ones,
    then the cancelled ones. *)
Theorem posts_grouped_by_status (E : Env) :
  exists pa pf pc,
    posts (trace (snd (script E initial))) = pa ++ pf ++ pc
    /\ Forall (fun p => status p = active) pa
    /\ Forall (fun p => status p = fulfilled) pf
    /\ Forall (fun p => status p = cancelled) pc.
Proof.
  destruct (configured E && latestBlockRead E)%bool eqn:Hstart.
  - destruct (started_run E Hstart) as (rpc & t & L & Hconf & Hprobed & HL).
    destruct (script_trace E rpc t L Hconf Hprobed HL)
      as (w' & d0 & d1 & d2 & d3 & Hrun & Htr & (_ & _ & Hp0) & Hs1 & Hs2 & Hs3).
    rewrite Hrun. cbn [snd]. rewrite Htr.
    exists (posts d1), (posts d2), (posts d3).
    change (SyncStarted :: d0 ++ ?l) with ([SyncStarted] ++ d0 ++ l).
    rewrite !posts_app, Hp0. cbn. rewrite app_nil_r.
    split; [reflexivity|].
    split; [exact (scanTrace_posts E _ _ _ Hs1)|].
    split; [exact (scanTrace_posts E _ _ _ Hs2)|exact (scanTrace_posts E _ _ _ Hs3)].
  - destruct (script_exit E) as [_ Hquiet]. destruct (Hquiet Hstart) as (_ & _ & Hp).
    exists [], [], []. rewrite Hp. repeat split; constructor.
Qed.

(** X4.  A chunked scan over [from, to] whose bounds the arithmetic of
    numbers represents exactly ([-2^53 <= from] and [to < 2^53], or an
    empty range) visits every block of the range in exactly one
    sub-range and no block outside it: no block is skipped, scanned
    twice, or scanned beyond the bounds. *)
Theorem every_block_in_one_chunk (E : Env) (kind : EventName) (from to b : Z) (w : World) :
  to < from \/ Number.exactBounds from to ->
  let w' := snd (Number.queryInChunks (scanCallback E kind) from to w) in
  length (List.filter (holdsBlock b) (chunkScans (since w w')))
  = if ((from <=? b) && (b <=? to))%bool then 1%nat else 0%nat.
Proof.
  intros Hbounds w'.
  destruct (Z_lt_le_dec to from) as [Hlt|Hle].
  - subst w'. unfold Number.queryInChunks.
    rewrite number_loop_empty by exact Hlt. cbn [snd].
    rewrite (since_app w w [] (eq_sym (app_nil_r _))). cbn.
    destruct (Z.leb_spec from b), (Z.leb_spec b to); cbn; try reflexivity; lia.
  - destruct Hbounds as [Hlt|Hexact]; [lia|].
    subst w'. rewrite (number_scan_exact _ from to w Hexact).
    destruct (queryInChunks_loop_run (passSegment E kind) (scanCallback E kind)
                (scanCallback_settles E kind) (Z.to_nat (to - from + 1)) from to w
                ltac:(lia)) as (w1 & d & Hrun & Htr & Hscan).
    unfold queryInChunks. rewrite Hrun. cbn [snd]. rewrite (since_app w w1 d Htr).
    rewrite (scanTrace_chunkScans _ _ _ (passSegment_chunkScans E kind) Hscan).
    apply subRanges_cover.
Qed.

Lemma every_block_in_one_chunk_witness :
  (10001 < 0 \/ Number.exactBounds 0 10001)
  /\ let w' := snd (Number.queryInChunks (scanCallback steadyChain OrderValidated)
                                         0 10001 ready) in
     length (List.filter (holdsBlock 5001) (chunkScans (since ready w')))
     = if ((0 <=? 5001) && (5001 <=? 10001))%bool then 1%nat else 0%nat.
Proof.
  assert (H : 10001 < 0 \/ Number.exactBounds 0 10001)
    by (right; unfold Number.exactBounds; lia).
  split; [exact H|].
  exact (every_block_in_one_chunk steadyChain OrderValidated 0 10001 5001 ready H).
Defined.

(** X5.  Start-up selects the first listed endpoint that answers the
    probe.  The unset or empty entries of the list are skipped without a
    call; the candidates before the selected one are probed once each,
    in list order; the selected one becomes the provider; the endpoints
    after it are never contacted. *)
Theorem initProvider_first_live (E : Env) (w : World) (k : nat) (rpc : string) (b : Z) :
  let cands := omap Js.truthy (RPC_LIST E) in
  cands !! k = Some rpc ->
  (forall i r, (i < k)%nat -> cands !! i = Some r ->
               getBlockNumber E (tick w + i) r = None) ->
  getBlockNumber E (tick w + k) rpc = Some b ->
  let r := initProvider E w in
  fst r = Return tt
  /\ provider (snd r) = Some rpc
  /\ probes (since w (snd r)) = take (S k) cands
  /\ tick (snd r) = (tick w + S k)%nat.
Proof.
  intros cands Hk Hbefore Hlive r.
  destruct (probe_first_live E (RPC_LIST E) w k rpc b Hk Hbefore Hlive)
    as (w' & d & Hrun & Htr & Hprov & Htick & Hprobes).
  assert (Hr : r = (Return tt, w')).
  { subst r. unfold initProvider. unfold bind at 1. rewrite Hrun.
    unfold bind, get_provider. rewrite Hprov. reflexivity. }
  rewrite Hr. cbn [fst snd]. rewrite (since_app w w' d Htr).
  repeat split; assumption.
Qed.

Lemma initProvider_first_live_witness :
  let r := initProvider strictBackend initial in
  fst r = Return tt
  /\ provider (snd r) = Some "https://rpc.apechain.com/http"%string
  /\ probes (since initial (snd r))
     = take 2 (omap Js.truthy (RPC_LIST strictBackend))
  /\ tick (snd r) = (tick initial + 2)%nat.
Proof.
  apply (initProvider_first_live strictBackend initial 1 "https://rpc.apechain.com/http" 6000).
  - reflexivity.
  - intros i r Hi Hr. destruct i as [|i]; [|lia].
    cbn in Hr. injection Hr as <-. reflexivity.
  - reflexivity.
Defined.

(** X6.  When no listed endpoint answers the probe, start-up contacts
    every candidate exactly once, in list order, and then ends the
    process with status 1, leaving no provider selected. *)
Theorem initProvider_none_live (E : Env) (w : World) :
  provider w = None ->
  (forall i r, omap Js.truthy (RPC_LIST E) !! i = Some r ->
               getBlockNumber E (tick w + i) r = None) ->
  let r := initProvider E w in
  fst r = Exit 1
  /\ provider (snd r) = None
  /\ probes (since w (snd r)) = omap Js.truthy (RPC_LIST E)
  /\ last (trace (snd r)) = Some NoRpcAvailable.
Proof.
  intros Hnone Hdead r.
  destruct (probe_none_live E (RPC_LIST E) w Hdead) as (w' & d & Hrun & Htr & Hprov & Hprobes).
  rewrite Hnone in Hprov.
  assert (Hr : r = (Exit 1, snd (log NoRpcAvailable w'))).
  { subst r. unfold initProvider. unfold bind at 1. rewrite Hrun.
    unfold bind, get_provider. rewrite Hprov. reflexivity. }
  rewrite Hr. cbn [fst snd log trace provider].
  split; [reflexivity|]. split; [exact Hprov|]. split.
  - rewrite (since_app w _ (d ++ [NoRpcAvailable])).
    + rewrite probes_app, Hprobes. cbn. apply app_nil_r.
    + cbn. rewrite Htr, <- app_assoc. reflexivity.
  - apply last_snoc.
Qed.

Lemma initProvider_none_live_witness :
  let r := initProvider offlineChain initial in
  fst r = Exit 1
  /\ provider (snd r) = None
  /\ probes (since initial (snd r)) = omap Js.truthy (RPC_LIST offlineChain)
  /\ last (trace (snd r)) = Some NoRpcAvailable.
Proof.
  apply (initProvider_none_live offlineChain initial).
  - reflexivity.
  - intros i r _. reflexivity.
Defined.

(** X7.  When the query of a sub-range succeeds at the attempt numbered
    [n] (counting from 0, after [n] failed ones), the pass posts one
    payload per log returned, in the order of the logs and whatever the
    backend answers to each POST, up to the first log whose arguments
    throw when they are read: a rejected or failed POST neither stops
    the loop over the events nor makes the callback throw, while a log
    that cannot be read makes the callback throw before its POST and
    leaves the logs after it unposted.  So every log is posted, and the
    callback returns normally, exactly when no log throws. *)
Theorem every_log_posted (E : Env) (kind : EventName) (s e : Z) (w : World)
        (n : nat) (logs : list LogEntry) :
  (n <= 3)%nat ->
  (forall i, (i < n)%nat -> answerAt E w kind s e i = None) ->
  answerAt E w kind s e n = Some logs ->
  let r := scanCallback E kind s e w in
  fst r = (if allRead E kind logs then Return tt else Throw)
  /\ posts (since w (snd r)) = List.map (payloadOf E kind) (reached E kind logs)
  /\ queries (since w (snd r)) = List.repeat (kind, s, e) (S n)
  /\ (allRead E kind logs = true ->
      posts (since w (snd r)) = List.map (payloadOf E kind) logs).
Proof.
  intros Hn Hfail Hans r.
  destruct (scanCallback_answered E kind s e w n logs Hn Hfail Hans)
    as (w' & d & Hrun & Htr & Hpo & _ & Hq).
  subst r. rewrite Hrun. cbn [fst snd].
  rewrite (since_app w w' _ Htr).
  destruct (retryTrace_quiet kind s e n) as [_ Hp].
  destruct (retryTrace_attempts kind s e n) as [Hqs _].
  rewrite posts_app, queries_app, Hp, Hpo, Hq, Hqs, app_nil_r.
  split; [reflexivity|]. split; [reflexivity|]. split; [reflexivity|].
  intros Hread. rewrite (reached_all E _ _ Hread). reflexivity.
Qed.

Lemma every_log_posted_witness :
  let r := scanCallback brokenLog OrderFulfilled 0 5000 ready in
  fst r = (if allRead brokenLog OrderFulfilled
                [emptyOffer; mkLog (Some noArgs) 8; mkLog None 9]
           then Return tt else Throw)
  /\ posts (since ready (snd r))
     = List.map (payloadOf brokenLog OrderFulfilled)
                (reached brokenLog OrderFulfilled
                   [emptyOffer; mkLog (Some noArgs) 8; mkLog None 9])
  /\ queries (since ready (snd r)) = List.repeat (OrderFulfilled, 0, 5000) 1
  /\ (allRead brokenLog OrderFulfilled [emptyOffer; mkLog (Some noArgs) 8; mkLog None 9] = true ->
      posts (since ready (snd r))
      = List.map (payloadOf brokenLog OrderFulfilled)
                 [emptyOffer; mkLog (Some noArgs) 8; mkLog None 9]).
Proof.
  apply (every_log_posted brokenLog OrderFulfilled 0 5000 ready 0
           [emptyOffer; mkLog (Some noArgs) 8; mkLog None 9]).
  - lia.
  - intros i Hi. lia.
  - reflexivity.
Defined.

(** The pass on the sample whose second log cannot be read: the first
    log is posted, the callback throws, the third log is not posted;
    with a provider that fails once and a backend that rejects every
    order, both logs are posted all the same. *)
Example broken_log_run :
  let r := scanCallback brokenLog OrderFulfilled 0 5000 ready in
  let r' := scanCallback retriedOffer OrderValidated 0 10 ready in
  fst r = Throw
  /\ List.map onChainBlock (posts (trace (snd r))) = [7]
  /\ fst r' = Return tt
  /\ List.map onChainBlock (posts (trace (snd r'))) = [7; 9]
  /\ length (failures (trace (snd r'))) = 2%nat.
Proof. vm_compute. repeat split; reflexivity. Qed.






(** X15.  When the starting block lies beyond the height read at
    start-up, the run still completes with status 0: it announces no
    sub-range, sends no log query and no POST, and its summary reports
    three zero counters. *)
Theorem empty_range_run (E : Env) (rpc : string) (t : nat) (L : Z) :
  configured E = true ->
  probed E 0 (RPC_LIST E) = (Some rpc, t) ->
  getBlockNumber E t rpc = Some L ->
  L < FROM_BLOCK E ->
  let w := snd (script E initial) in
  exitCode (fst (script E initial)) = Some 0
  /\ chunkScans (trace w) = []
  /\ queries (trace w) = []
  /\ posts (trace w) = []
  /\ last (trace w) = Some (SyncFinished 0 0 0).
Proof.
  intros Hconf Hprobed HL Hahead w.
  destruct (script_trace E rpc t L Hconf Hprobed HL)
    as (w' & d0 & d1 & d2 & d3 & Hrun & Htr & (Hc0 & Hq0 & Hp0) & Hs1 & Hs2 & Hs3).
  assert (Hb : balanced w).
  { apply (script_balanced E initial). unfold balanced. cbn. lia. }
  subst w. rewrite Hrun in *. cbn [fst snd] in *.
  rewrite (subRanges_empty _ _ Hahead) in Hs1, Hs2, Hs3.
  inversion Hs1; subst. inversion Hs2; subst. inversion Hs3; subst.
  cbn [app] in Htr.
  assert (Htr' : trace w'
                 = [SyncStarted] ++ d0 ++ [LatestBlock rpc; BlockRange (FROM_BLOCK E) L]
                   ++ [SyncFinished (totalActive w') (totalFulfilled w') (totalCancelled w')]).
  { rewrite Htr. cbn. rewrite <- app_assoc. reflexivity. }
  assert (Hposts : posts (trace w') = []).
  { rewrite Htr', !posts_app, Hp0. reflexivity. }
  destruct Hb as (H0 & _). rewrite Hposts in H0. cbn [length] in H0.
  split; [reflexivity|].
  split; [rewrite Htr', !chunkScans_app, Hc0; reflexivity|].
  split; [rewrite Htr', !queries_app, Hq0; reflexivity|].
  split; [exact Hposts|].
  rewrite Htr', !app_assoc, last_snoc.
  do 2 f_equal; lia.
Qed.

Lemma empty_range_run_witness :
  let w := snd (script aheadOfChain initial) in
  exitCode (fst (script aheadOfChain initial)) = Some 0
  /\ chunkScans (trace w) = []
  /\ queries (trace w) = []
  /\ posts (trace w) = []
  /\ last (trace w) = Some (SyncFinished 0 0 0).
Proof.
  apply (empty_range_run aheadOfChain "https://rpc.apechain.com/http" 1 10001);
    reflexivity.
Defined.

End SeaportExtras.

Section PayloadGuards.

Import SyncSeaportOrders.

Lemma pretty_N_go_nonempty (x : N) :
  forall s, s <> EmptyString -> pretty_N_go x s <> EmptyString.
Proof.
  induction (N.lt_wf_0 x) as [x _ IH]. intros s Hs.
  destruct (decide (x = 0%N)) as [->|Hx]; [rewrite pretty_N_go_0; exact Hs|].
  rewrite pretty_N_go_step by lia. apply IH; [|discriminate].
  apply N.div_lt; lia.
Qed.

Lemma pretty_N_nonempty (x : N) : pretty x <> EmptyString.
Proof.
  unfold pretty, pretty_N. destruct (decide (x = 0%N)) as [->|Hx]; [discriminate|].
  rewrite pretty_N_go_step by lia. apply pretty_N_go_nonempty. discriminate.
Qed.

Lemma toString_nonempty (v : Z) : Ethers.toString v <> EmptyString.
Proof.
  unfold Ethers.toString, pretty, pretty_Z. destruct v as [|p|p].
  - discriminate.
  - apply pretty_N_nonempty.
  - discriminate.
Qed.

Lemma toLowerCase_nonempty (s : string) : s <> EmptyString -> Js.toLowerCase s <> EmptyString.
Proof. destruct s; [congruence|discriminate]. Qed.

Lemma or_null_nonempty (s : string) : s <> EmptyString -> Js.or_null (Some s) = Some s.
Proof. destruct s; [congruence|reflexivity]. Qed.

(** X8.  The [|| null] guards of the normalisation never drop data that
    is present.  For a validated or fulfilled order whose first offer
    item carries an identifier, the token id of the payload is the
    decimal rendering of that identifier, also when the identifier is 0;
    and a non-empty offerer address is always reported, in lower case. *)
Theorem present_fields_survive (E : Env) (kind : EventName) (ev : LogEntry) (a : Args)
        (item : Item) (rest : list Item) (id : Z) (seller : string) :
  kind <> OrderCancelled ->
  args ev = Some a ->
  a_offer a = Some (item :: rest) ->
  identifier item = Some id ->
  a_offerer a = Some seller ->
  seller <> EmptyString ->
  tokenId (payloadOf E kind ev) = Some (Ethers.toString id)
  /\ sellerAddress (payloadOf E kind ev) = Some (Js.toLowerCase seller).
Proof.
  intros Hkind Hargs Hoffer Hid Hseller Hne.
  assert (Ht : tokenIdOf a = Some (Ethers.toString id)).
  { unfold tokenIdOf. rewrite Hoffer. cbn [first]. rewrite Hid. cbn [option_map].
    apply or_null_nonempty, toString_nonempty. }
  assert (Hs : lowered (a_offerer a) = Some (Js.toLowerCase seller)).
  { unfold lowered. rewrite Hseller. cbn [option_map].
    apply or_null_nonempty, toLowerCase_nonempty, Hne. }
  unfold payloadOf. rewrite Hargs.
  destruct kind; [| |congruence]; cbn [tokenId sellerAddress]; split; assumption.
Qed.

Lemma present_fields_survive_witness :
  let ev := mkLog (Some (mkArgs (Some "0xabc1"%string) (Some "0xSeLLer"%string) None
                                (Some [oneEther]) None)) 7 in
  tokenId (payloadOf steadyChain OrderValidated ev) = Some (Ethers.toString 0)
  /\ sellerAddress (payloadOf steadyChain OrderValidated ev)
     = Some (Js.toLowerCase "0xSeLLer").
Proof.
  apply (present_fields_survive steadyChain OrderValidated _
           (mkArgs (Some "0xabc1"%string) (Some "0xSeLLer"%string) None
                   (Some [oneEther]) None)
           oneEther [] 0 "0xSeLLer").
  - discriminate.
  - reflexivity.
  - reflexivity.
  - reflexivity.
  - reflexivity.
  - discriminate.
Defined.

End PayloadGuards.

(** * Further properties of the ownership sync *)

Section NftCalls.

Import SyncNFTMetadata.

Context (E : Env).

Lemma ownerOfCalls_app (t : nat) (a b : list Call) :
  ownerOfCalls t (a ++ b) = (ownerOfCalls t a + ownerOfCalls t b)%nat.
Proof. unfold ownerOfCalls. rewrite List.filter_app, length_app. reflexivity. Qed.

Lemma tokenURICalls_app (t : nat) (a b : list Call) :
  tokenURICalls t (a ++ b) = (tokenURICalls t a + tokenURICalls t b)%nat.
Proof. unfold tokenURICalls. rewrite List.filter_app, length_app. reflexivity. Qed.

(** What one resumption of the task of [c] adds to the calls. *)
Lemma resume_calls (c : nat) (task : Task) (st : State) :
  calls (snd (resume E c task st)) = calls st
  \/ (exists r, calls (snd (resume E c task st)) = calls st ++ [CallOwnerOf r c])
  \/ (exists r, calls (snd (resume E c task st)) = calls st ++ [CallTokenURI r c]).
Proof.
  assert (Hfail : forall i,
             calls (snd (rpcFailed E c i st)) = calls st
             \/ (exists r, calls (snd (rpcFailed E c i st)) = calls st ++ [CallOwnerOf r c])
             \/ (exists r, calls (snd (rpcFailed E c i st)) = calls st ++ [CallTokenURI r c])).
  { intros i. unfold rpcFailed. destruct (_ <? _)%nat; cbn; [|left; reflexivity].
    right. left. eexists. reflexivity. }
  destruct task as [i r|i r o|o url| | |]; cbn [resume]; try (left; reflexivity).
  - destruct (ownerOf E r c); [|apply Hfail].
    right. right. eexists. reflexivity.
  - destruct (tokenURI E r c); [left; reflexivity|apply Hfail].
Qed.

Lemma resume_calls_other (t c : nat) (task : Task) (st : State) :
  c <> t ->
  ownerOfCalls t (calls (snd (resume E c task st))) = ownerOfCalls t (calls st)
  /\ tokenURICalls t (calls (snd (resume E c task st))) = tokenURICalls t (calls st).
Proof.
  intros Hne. apply Nat.eqb_neq in Hne.
  destruct (resume_calls c task st) as [->|[[r ->]|[r ->]]]; [split; reflexivity| |];
    rewrite ownerOfCalls_app, tokenURICalls_app; cbn; rewrite ?Hne; cbn; lia.
Qed.

Lemma resume_calls_own (t : nat) (task : Task) (st : State) :
  callInv 4 task (ownerOfCalls t (calls st)) (tokenURICalls t (calls st)) ->
  callInv 4 (fst (resume E t task st))
          (ownerOfCalls t (calls (snd (resume E t task st))))
          (tokenURICalls t (calls (snd (resume E t task st)))).
Proof.
  intros Hinv.
  assert (Hfail : forall i,
             (i < 4)%nat ->
             ownerOfCalls t (calls st) = (i + 1)%nat ->
             (tokenURICalls t (calls st) <= i + 1)%nat ->
             callInv 4 (fst (rpcFailed E t i st))
                     (ownerOfCalls t (calls (snd (rpcFailed E t i st))))
                     (tokenURICalls t (calls (snd (rpcFailed E t i st))))).
  { intros i Hi Ho Hu. unfold rpcFailed. rewrite length_RPC_LIST.
    destruct (Nat.ltb_spec (i + 1) 4) as [Hlt|Hge]; cbn [fst snd callInv issue calls].
    - rewrite ownerOfCalls_app, tokenURICalls_app. cbn. rewrite Nat.eqb_refl. cbn. unfold ownerOfCalls, tokenURICalls in *. lia.
    - cbn. unfold ownerOfCalls, tokenURICalls in *. lia. }
  destruct task as [i r|i r o|o url| | |]; cbn [resume]; try exact Hinv.
  - cbn [callInv] in Hinv. destruct Hinv as (Hi & Ho & Hu).
    destruct (ownerOf E r t); [|apply Hfail; lia].
    cbn [fst snd callInv issue calls].
    rewrite ownerOfCalls_app, tokenURICalls_app. cbn. rewrite Nat.eqb_refl. cbn. unfold ownerOfCalls, tokenURICalls in *. lia.
  - cbn [callInv] in Hinv. destruct Hinv as (Hi & Ho & Hu).
    destruct (tokenURI E r t); [|apply Hfail; lia].
    cbn [fst snd callInv]. lia.
Qed.

Lemma callsInFlight_step pre t task post st :
  callsInFlight 4 (pre ++ (t, task) :: post) st ->
  callsInFlight 4 (pre ++ (t, fst (resume E t task st)) :: post) (snd (resume E t task st)).
Proof.
  intros (Hnd & Hall).
  assert (Hkeys : List.map fst (pre ++ (t, fst (resume E t task st)) :: post)
                  = List.map fst (pre ++ (t, task) :: post)).
  { rewrite !List.map_app. reflexivity. }
  split; [rewrite Hkeys; exact Hnd|].
  rewrite List.map_app in Hnd. cbn [List.map fst] in Hnd.
  pose proof (NoDup_remove_2 _ _ _ Hnd) as Hfresh.
  apply Forall_app in Hall as [Hpre Hpost]. apply Forall_cons in Hpost as [Hown Hpost].
  assert (Hothers : forall l,
            (forall p, In p l -> In (fst p) (List.map fst pre ++ List.map fst post)) ->
            Forall (fun p => callInv 4 (snd p) (ownerOfCalls (fst p) (calls st))
                                     (tokenURICalls (fst p) (calls st))) l ->
            Forall (fun p => callInv 4 (snd p)
                               (ownerOfCalls (fst p) (calls (snd (resume E t task st))))
                               (tokenURICalls (fst p) (calls (snd (resume E t task st))))) l).
  { intros l Hl Hf. rewrite List.Forall_forall in Hf |- *. intros p Hp.
    destruct (resume_calls_other (fst p) t task st) as [-> ->]; [|apply Hf, Hp].
    intros ->. apply Hfresh, Hl, Hp. }
  apply Forall_app. split.
  - apply Hothers; [|exact Hpre]. intros p Hp. apply in_or_app. left. apply in_map, Hp.
  - apply Forall_cons. split.
    + cbn [fst snd] in *. apply resume_calls_own. exact Hown.
    + apply Hothers; [|exact Hpost]. intros p Hp. apply in_or_app. right. apply in_map, Hp.
Qed.

Lemma callsInFlight_reaches tasks st tasks' st' :
  reaches E tasks st tasks' st' ->
  callsInFlight 4 tasks st ->
  callsInFlight 4 tasks' st'
  /\ List.map fst tasks' = List.map fst tasks
  /\ (forall t, ~ In t (List.map fst tasks) ->
                ownerOfCalls t (calls st') = ownerOfCalls t (calls st)
                /\ tokenURICalls t (calls st') = tokenURICalls t (calls st)).
Proof.
  intros H. induction H as [|pre t task post st tasks' st' _ IH]; intros Hinv.
  - split; [exact Hinv|]. split; [reflexivity|]. intros; split; reflexivity.
  - destruct (IH (callsInFlight_step _ _ _ _ _ Hinv)) as (Hinv' & Hkeys & Hrows).
    assert (Hk : List.map fst (pre ++ (t, fst (resume E t task st)) :: post)
                 = List.map fst (pre ++ (t, task) :: post)).
    { rewrite !List.map_app. reflexivity. }
    split; [exact Hinv'|]. split; [congruence|].
    intros x Hx. destruct (Hrows x) as [-> ->]; [rewrite Hk; exact Hx|].
    apply resume_calls_other. intros ->. apply Hx.
    rewrite List.map_app. apply in_or_app. right. left. reflexivity.
Qed.

(** The first calls of a batch: one [ownerOf] per token of the batch. *)
Lemma started_calls (r : Rpc) (t : nat) (batch : list nat) :
  List.NoDup batch ->
  ownerOfCalls t (List.map (CallOwnerOf r) batch) = (if in_dec Nat.eq_dec t batch then 1 else 0)%nat
  /\ tokenURICalls t (List.map (CallOwnerOf r) batch) = 0%nat.
Proof.
  intros Hnd. split; [|clear Hnd; induction batch as [|x l IH]; [reflexivity|exact IH]].
  induction Hnd as [|x l Hx Hnd IH]; [reflexivity|].
  unfold ownerOfCalls in *. cbn [List.map List.filter].
  destruct (Nat.eqb_spec x t) as [->|Hne]; cbn [length].
  - destruct (in_dec Nat.eq_dec t (t :: l)) as [_|Hn]; [|exfalso; apply Hn; left; reflexivity].
    rewrite IH. destruct (in_dec Nat.eq_dec t l); [contradiction|reflexivity].
  - rewrite IH. destruct (in_dec Nat.eq_dec t l) as [Hin|Hout];
      destruct (in_dec Nat.eq_dec t (x :: l)) as [Hin'|Hout']; try reflexivity.
    + exfalso. apply Hout'. right. exact Hin.
    + exfalso. destruct Hin' as [Heq|Hin']; [exact (Hne Heq)|exact (Hout Hin')].
Qed.

Lemma batch_calls (sched : list nat) (batch : list nat) (st : State) :
  List.NoDup batch ->
  (forall t, In t batch ->
             ownerOfCalls t (calls st) = 0%nat /\ tokenURICalls t (calls st) = 0%nat) ->
  let started := startAll batch st in
  let st' := snd (snd (allSettled E sched (fst started) (snd started))) in
  (forall t, In t batch ->
             (1 <= ownerOfCalls t (calls st') <= 4)%nat
             /\ (tokenURICalls t (calls st') <= ownerOfCalls t (calls st'))%nat)
  /\ (forall t, ~ In t batch ->
                ownerOfCalls t (calls st') = ownerOfCalls t (calls st)
                /\ tokenURICalls t (calls st') = tokenURICalls t (calls st)).
Proof.
  intros Hnd Hfresh started st'.
  destruct (startAll_spec batch st) as (Htasks & _ & _ & _ & Hcs).
  fold started in Htasks, Hcs.
  assert (Hkeys : List.map fst (fst started) = batch).
  { rewrite Htasks, List.map_map. cbn. apply List.map_id. }
  assert (Hinv : callsInFlight 4 (fst started) (snd started)).
  { split; [rewrite Hkeys; exact Hnd|].
    rewrite Htasks. apply List.Forall_forall. intros p Hp'.
    apply in_map_iff in Hp' as (t & <- & Ht). cbn [fst snd callInv].
    rewrite Hcs, ownerOfCalls_app, tokenURICalls_app.
    destruct (started_calls (nftContract st) t batch Hnd) as [-> ->].
    destruct (Hfresh t Ht) as [-> ->].
    destruct (in_dec Nat.eq_dec t batch); [cbn; lia|contradiction]. }
  destruct (callsInFlight_reaches _ _ _ _ (allSettled_reaches E sched (fst started) (snd started)) Hinv)
    as ((_ & Hall) & Hkeys' & Hrows).
  fold st' in Hall, Hrows.
  split.
  - intros t Ht.
    assert (Hin : In t (List.map fst (fst (snd (allSettled E sched (fst started) (snd started)))))).
    { rewrite Hkeys', Hkeys. exact Ht. }
    apply in_map_iff in Hin as ([t' task] & Heq & Hin). cbn in Heq. subst t'.
    rewrite List.Forall_forall in Hall. specialize (Hall _ Hin). cbn [fst snd] in Hall.
    destruct task; cbn [callInv] in Hall; lia.
  - intros t Ht. destruct (Hrows t) as [-> ->]; [rewrite Hkeys; exact Ht|].
    rewrite Hcs, ownerOfCalls_app, tokenURICalls_app.
    destruct (started_calls (nftContract st) t batch Hnd) as [-> ->].
    destruct (in_dec Nat.eq_dec t batch); [contradiction|lia].
Qed.

Lemma batches_calls (fuel : nat) :
  forall i total sched st,
    (total - i <= fuel)%nat ->
    (forall t, (i <= t)%nat ->
               ownerOfCalls t (calls st) = 0%nat /\ tokenURICalls t (calls st) = 0%nat) ->
    let st' := finalState (batches E fuel i total sched st) in
    (forall t, (t < i)%nat ->
               ownerOfCalls t (calls st') = ownerOfCalls t (calls st)
               /\ tokenURICalls t (calls st') = tokenURICalls t (calls st))
    /\ (forall t, (i <= t < total)%nat ->
                  (1 <= ownerOfCalls t (calls st') <= 4)%nat
                  /\ (tokenURICalls t (calls st') <= ownerOfCalls t (calls st'))%nat)
    /\ (forall t, (i <= t)%nat -> (total <= t)%nat ->
                  ownerOfCalls t (calls st') = 0%nat /\ tokenURICalls t (calls st') = 0%nat).
Proof.
  induction fuel as [|fuel IH]; intros i total sched st Hfuel Hfresh.
  - assert (Hge : (total <= i)%nat) by lia. apply Nat.ltb_ge in Hge as Hge'.
    cbn [batches]. rewrite Hge'. cbn [finalState].
    split; [intros; split; reflexivity|].
    split; [intros; lia|intros; apply Hfresh; assumption].
  - cbn [batches]. destruct (Nat.ltb_spec i total) as [Hlt|Hge].
    2:{ cbn [finalState]. split; [intros; split; reflexivity|].
        split; [intros; lia|intros; apply Hfresh; assumption]. }
    destruct (batch_calls sched (batchOf i total) st (batchOf_NoDup i total)) as (Hin & Hout).
    { intros t Ht. apply batchOf_In in Ht. apply Hfresh. lia. }
    destruct (startAll (batchOf i total) st) as [tasks st1]. cbn [fst snd] in *.
    destruct (allSettled E sched tasks st1) as [sched' [tasks' st2]]. cbn [fst snd] in *.
    destruct (IH (i + BATCH_SIZE)%nat total sched' st2) as (Hlow & Hmid & Hhigh).
    + unfold BATCH_SIZE. lia.
    + intros t Ht. destruct (Hout t) as [-> ->]; [rewrite batchOf_In; lia|].
      apply Hfresh. lia.
    + split; [|split].
      * intros t Ht. destruct (Hlow t) as [-> ->]; [lia|].
        apply Hout. rewrite batchOf_In. lia.
      * intros t Ht. destruct (Nat.lt_ge_cases t (i + BATCH_SIZE)) as [Hnear|Hfar].
        -- destruct (Hlow t Hnear) as [-> ->]. apply Hin. apply batchOf_In. lia.
        -- apply Hmid. lia.
      * intros t Hi Ht. destruct (Nat.lt_ge_cases t (i + BATCH_SIZE)) as [Hnear|Hfar].
        -- destruct (Hlow t Hnear) as [-> ->].
           destruct (Hout t) as [-> ->]; [rewrite batchOf_In; lia|]. apply Hfresh, Hi.
        -- apply Hhigh; assumption.
Qed.

End NftCalls.

Section NftLone.

Import SyncNFTMetadata.

Context (E : Env).

Lemma round_lone (t : nat) (task : Task) (st : State) :
  round E ([(t, task)], st)
  = ([(t, fst (resume E t task st))], snd (resume E t task st)).
Proof. unfold round. cbn [fst snd resumeAll]. destruct (resume E t task st). reflexivity. Qed.

Lemma rounds_saved (t : nat) (n : nat) (st : State) :
  Nat.iter n (round E) ([(t, Saved)], st) = ([(t, Saved)], st).
Proof.
  induction n as [|n IH]; [reflexivity|].
  rewrite Nat.iter_succ_r, round_lone. exact IH.
Qed.

(** The fallback loop of a token processed alone, started on the
    endpoint at position [k] of the round robin: it moves on past every
    endpoint that fails one of the two reads and stops at the first one
    that serves both. *)
Lemma lone_rounds (t : nat) (o u : string) (us : list OwnershipRecord) (j : nat) :
  forall i k cs n,
    (i + j < 4)%nat ->
    (forall m, (m < j)%nat ->
               ownerOf E (endpoint E (k + m)) t = None
               \/ tokenURI E (endpoint E (k + m)) t = None) ->
    ownerOf E (endpoint E (k + j)) t = Some o ->
    tokenURI E (endpoint E (k + j)) t = Some u ->
    (2 * j + 4 <= n)%nat ->
    exists cs',
      Nat.iter n (round E)
               ([(t, AwaitOwnerOf i (endpoint E k))], mkState (S k) (endpoint E k) cs us)
      = ([(t, Saved)],
         mkState (S (k + j)) (endpoint E (k + j)) cs' (us ++ [rowOf E t o (toHttp u)])).
Proof.
  induction j as [|j IH]; intros i k cs n Hi Hfail Ho Hu Hn.
  - rewrite Nat.add_0_r in *.
    destruct n as [|[|[|[|n]]]]; try lia.
    do 4 rewrite Nat.iter_succ_r.
    rewrite round_lone. cbn [resume]. rewrite Ho. cbn [fst snd nftContract issue].
    rewrite round_lone. cbn [resume]. rewrite Hu. cbn [fst snd].
    rewrite round_lone. cbn [resume fst snd].
    rewrite round_lone. cbn [resume fst snd].
    rewrite rounds_saved. eexists. reflexivity.
  - assert (Hnext : forall cs0 n0,
               (2 * j + 4 <= n0)%nat ->
               exists cs',
                 Nat.iter n0 (round E)
                   ([(t, AwaitOwnerOf (i + 1) (endpoint E (S k)))],
                    mkState (S (S k)) (endpoint E (S k)) cs0 us)
                 = ([(t, Saved)],
                    mkState (S (k + S j)) (endpoint E (k + S j)) cs'
                            (us ++ [rowOf E t o (toHttp u)]))).
    { intros cs0 n0 Hn0.
      destruct (IH (i + 1)%nat (S k) cs0 n0) as (cs' & Hrun); try lia.
      - intros m Hm. replace (S k + m)%nat with (k + S m)%nat by lia. apply Hfail. lia.
      - replace (S k + j)%nat with (k + S j)%nat by lia. exact Ho.
      - replace (S k + j)%nat with (k + S j)%nat by lia. exact Hu.
      - exists cs'. rewrite Hrun. replace (S k + j)%nat with (k + S j)%nat by lia.
        reflexivity. }
    assert (Hfailed : forall cs0,
               rpcFailed E t i (mkState (S k) (endpoint E k) cs0 us)
               = (AwaitOwnerOf (i + 1) (endpoint E (S k)),
                  mkState (S (S k)) (endpoint E (S k))
                          (cs0 ++ [CallOwnerOf (endpoint E (S k)) t]) us)).
    { intros cs0. unfold rpcFailed. rewrite switchProvider_endpoint, length_RPC_LIST.
      destruct (Nat.ltb_spec (i + 1) 4) as [_|Hge]; [reflexivity|lia]. }
    pose proof (Hfail 0%nat ltac:(lia)) as H0. rewrite Nat.add_0_r in H0.
    destruct (ownerOf E (endpoint E k) t) as [o'|] eqn:Ho'.
    + destruct H0 as [H0|H0]; [discriminate|].
      destruct n as [|[|n]]; try lia.
      do 2 rewrite Nat.iter_succ_r.
      rewrite round_lone. cbn [resume]. rewrite Ho'. cbn [fst snd nftContract issue].
      rewrite round_lone. cbn [resume]. rewrite H0.
      unfold issue. cbn [providerIndex nftContract calls upserts]. rewrite Hfailed. cbn [fst snd].
      apply Hnext. lia.
    + destruct n as [|n]; try lia.
      rewrite Nat.iter_succ_r.
      rewrite round_lone. cbn [resume]. rewrite Ho'. rewrite Hfailed. cbn [fst snd].
      apply Hnext. lia.
Qed.

Lemma rounds_failed (t : nat) (n : nat) (st : State) :
  Nat.iter n (round E) ([(t, Failed)], st) = ([(t, Failed)], st).
Proof.
  induction n as [|n IH]; [reflexivity|].
  rewrite Nat.iter_succ_r, round_lone. exact IH.
Qed.

(** The fallback loop of a token processed alone when each of the
    remaining [r] endpoints fails one of the two reads: it gives up
    after [r] rotations. *)
Lemma lone_rounds_fail (t : nat) (us : list OwnershipRecord) (r : nat) :
  forall i k cs n,
    (i + S r = 4)%nat ->
    (forall m, (m <= r)%nat ->
               ownerOf E (endpoint E (k + m)) t = None
               \/ tokenURI E (endpoint E (k + m)) t = None) ->
    (2 * S r <= n)%nat ->
    exists cs',
      Nat.iter n (round E)
               ([(t, AwaitOwnerOf i (endpoint E k))], mkState (S k) (endpoint E k) cs us)
      = ([(t, Failed)], mkState (S (k + S r)) (endpoint E (k + S r)) cs' us).
Proof.
  induction r as [|r IH]; intros i k cs n Hi Hfail Hn.
  - assert (Hlast : forall cs0,
               rpcFailed E t i (mkState (S k) (endpoint E k) cs0 us)
               = (Failed, mkState (S (k + 1)) (endpoint E (k + 1)) cs0 us)).
    { intros cs0. unfold rpcFailed. rewrite switchProvider_endpoint, length_RPC_LIST.
      replace (k + 1)%nat with (S k) by lia.
      destruct (Nat.ltb_spec (i + 1) 4) as [Hlt|_]; [lia|reflexivity]. }
    pose proof (Hfail 0%nat ltac:(lia)) as H0. rewrite Nat.add_0_r in H0.
    destruct (ownerOf E (endpoint E k) t) as [o'|] eqn:Ho'.
    + destruct H0 as [H0|H0]; [discriminate|].
      destruct n as [|[|n]]; try lia.
      do 2 rewrite Nat.iter_succ_r.
      rewrite round_lone. cbn [resume]. rewrite Ho'. cbn [fst snd nftContract issue].
      rewrite round_lone. cbn [resume]. rewrite H0.
      unfold issue. cbn [providerIndex nftContract calls upserts]. rewrite Hlast. cbn [fst snd].
      rewrite rounds_failed. eexists. reflexivity.
    + destruct n as [|n]; try lia.
      rewrite Nat.iter_succ_r.
      rewrite round_lone. cbn [resume]. rewrite Ho'. rewrite Hlast. cbn [fst snd].
      rewrite rounds_failed. eexists. reflexivity.
  - assert (Hnext : forall cs0 n0,
               (2 * S r <= n0)%nat ->
               exists cs',
                 Nat.iter n0 (round E)
                   ([(t, AwaitOwnerOf (i + 1) (endpoint E (S k)))],
                    mkState (S (S k)) (endpoint E (S k)) cs0 us)
                 = ([(t, Failed)],
                    mkState (S (k + S (S r))) (endpoint E (k + S (S r))) cs' us)).
    { intros cs0 n0 Hn0.
      destruct (IH (i + 1)%nat (S k) cs0 n0) as (cs' & Hrun); try lia.
      - intros m Hm. replace (S k + m)%nat with (k + S m)%nat by lia. apply Hfail. lia.
      - exists cs'. rewrite Hrun. replace (S k + S r)%nat with (k + S (S r))%nat by lia.
        reflexivity. }
    assert (Hfailed : forall cs0,
               rpcFailed E t i (mkState (S k) (endpoint E k) cs0 us)
               = (AwaitOwnerOf (i + 1) (endpoint E (S k)),
                  mkState (S (S k)) (endpoint E (S k))
                          (cs0 ++ [CallOwnerOf (endpoint E (S k)) t]) us)).
    { intros cs0. unfold rpcFailed. rewrite switchProvider_endpoint, length_RPC_LIST.
      destruct (Nat.ltb_spec (i + 1) 4) as [_|Hge]; [reflexivity|lia]. }
    pose proof (Hfail 0%nat ltac:(lia)) as H0. rewrite Nat.add_0_r in H0.
    destruct (ownerOf E (endpoint E k) t) as [o'|] eqn:Ho'.
    + destruct H0 as [H0|H0]; [discriminate|].
      destruct n as [|[|n]]; try lia.
      do 2 rewrite Nat.iter_succ_r.
      rewrite round_lone. cbn [resume]. rewrite Ho'. cbn [fst snd nftContract issue].
      rewrite round_lone. cbn [resume]. rewrite H0.
      unfold issue. cbn [providerIndex nftContract calls upserts]. rewrite Hfailed. cbn [fst snd].
      apply Hnext. lia.
    + destruct n as [|n]; try lia.
      rewrite Nat.iter_succ_r.
      rewrite round_lone. cbn [resume]. rewrite Ho'. rewrite Hfailed. cbn [fst snd].
      apply Hnext. lia.
Qed.

End NftLone.

Section NftExtras.

Import SyncNFTMetadata.

Lemma substring_all (s : string) : substring 0 (String.length s) s = s.
Proof. induction s as [|c s IH]; [reflexivity|]. cbn. rewrite IH. reflexivity. Qed.

Lemma prefix_split (p : string) :
  forall s, String.prefix p s = true ->
            s = p +:+ substring (String.length p) (String.length s - String.length p) s.
Proof.
  induction p as [|a p IH]; intros s H.
  - cbn. rewrite Nat.sub_0_r, substring_all. reflexivity.
  - destruct s as [|b s]; [discriminate|]. cbn in H |- *.
    destruct (ascii_dec a b) as [->|]; [|discriminate].
    change (String b p +:+ ?x) with (String b (p +:+ x)).
    f_equal. apply IH, H.
Qed.

Lemma filter_none {A} (f : A -> bool) (l : list A) :
  (forall x, In x l -> f x = false) -> List.filter f l = [].
Proof.
  induction l as [|x l IH]; intros H; [reflexivity|].
  cbn. rewrite (H x) by (left; reflexivity). apply IH. intros y Hy. apply H. right. exact Hy.
Qed.

(** X9.  Whatever the order in which the promises of a batch resolve,
    the fallback loop is bounded per token: a run sends, for each token
    below [totalSupply], at least one and at most as many [ownerOf]
    calls as there are listed endpoints, and never more [tokenURI] calls
    than [ownerOf] calls; for an identifier at or beyond [totalSupply]
    it sends no call at all. *)
Theorem reads_bounded (E : Env) (sched : list nat) (total t : nat) :
  totalSupply E (nftContract (boot E)) = Some total ->
  let cs := calls (finalState (main E sched)) in
  let o := ownerOfCalls t cs in
  let u := tokenURICalls t cs in
  if (t <? total)%nat
  then (1 <= o <= length (RPC_LIST E))%nat /\ (u <= o)%nat
  else o = 0%nat /\ u = 0%nat.
Proof.
  intros Htotal. unfold main. rewrite Htotal. cbv zeta.
  destruct (batches_calls E total 0 total sched
              (issue (CallTotalSupply (nftContract (boot E))) (boot E)))
    as (_ & Hmid & Hhigh).
  - lia.
  - intros x _. split; reflexivity.
  - rewrite length_RPC_LIST. destruct (Nat.ltb_spec t total) as [Hlt|Hge].
    + apply Hmid. lia.
    + apply Hhigh; lia.
Qed.

Lemma reads_bounded_witness :
  let cs := calls (finalState (main primaryOnly [1; 1; 1; 1]%nat)) in
  let o := ownerOfCalls 2 cs in
  let u := tokenURICalls 2 cs in
  if (2 <? 3)%nat
  then (1 <= o <= length (RPC_LIST primaryOnly))%nat /\ (u <= o)%nat
  else o = 0%nat /\ u = 0%nat.
Proof.
  apply (reads_bounded primaryOnly [1; 1; 1; 1]%nat 3 2). reflexivity.
Defined.

(** X10.  The gateway rewriting turns [ipfs://rest] into
    [https://ipfs.io/ipfs/rest], keeping the rest of the URI intact, and
    leaves every other URI as it is; its result is never an [ipfs://]
    URI, so rewriting twice changes nothing. *)
Theorem toHttp_gateway (uri : string) :
  (forall rest, toHttp ("ipfs://" +:+ rest) = "https://ipfs.io/ipfs/" +:+ rest)
  /\ ((Js.startsWith uri "ipfs://" = false /\ toHttp uri = uri)
      \/ (exists rest, uri = "ipfs://" +:+ rest
                       /\ toHttp uri = "https://ipfs.io/ipfs/" +:+ rest))
  /\ Js.startsWith (toHttp uri) "ipfs://" = false
  /\ toHttp (toHttp uri) = toHttp uri.
Proof.
  assert (Hrest : forall rest, toHttp ("ipfs://" +:+ rest) = "https://ipfs.io/ipfs/" +:+ rest).
  { intros rest. unfold toHttp, Js.startsWith.
    assert (Hp : String.prefix "ipfs://" ("ipfs://" +:+ rest) = true)
      by (destruct rest; reflexivity).
    rewrite Hp.
    change (String.length ("ipfs://" +:+ rest)) with (7 + String.length rest)%nat.
    replace (7 + String.length rest - 7)%nat with (String.length rest) by lia.
    change (substring 7 (String.length rest) ("ipfs://" +:+ rest))
      with (substring 0 (String.length rest) rest).
    rewrite substring_all. reflexivity. }
  assert (Hcases : (Js.startsWith uri "ipfs://" = false /\ toHttp uri = uri)
                   \/ (exists rest, uri = "ipfs://" +:+ rest
                                    /\ toHttp uri = "https://ipfs.io/ipfs/" +:+ rest)).
  { destruct (Js.startsWith uri "ipfs://") eqn:Hp.
    - right. unfold Js.startsWith in Hp. apply prefix_split in Hp.
      eexists. split; [exact Hp|]. rewrite Hp at 1. apply Hrest.
    - left. split; [reflexivity|]. unfold toHttp. rewrite Hp. reflexivity. }
  assert (Hnot : Js.startsWith (toHttp uri) "ipfs://" = false).
  { destruct Hcases as [[Hp ->]|(rest & _ & ->)]; [exact Hp|reflexivity]. }
  split; [exact Hrest|]. split; [exact Hcases|]. split; [exact Hnot|].
  unfold toHttp at 1. rewrite Hnot. reflexivity.
Qed.

(** X11.  A token processed alone takes both reads from one endpoint:
    starting from the endpoint the contract is bound to, the fallback
    loop passes every endpoint that fails [ownerOf] or [tokenURI] and
    stops at the first one, in rotation order, that serves both; the row
    written carries that endpoint's owner and URI, and the contract
    stays bound to it. *)
Theorem lone_token_first_serving (E : Env) (st : State) (t j : nat) (o u : string) :
  validState E st ->
  (j < length (RPC_LIST E))%nat ->
  (forall m, (m < j)%nat ->
             ownerOf E (endpoint E (providerIndex st - 1 + m)) t = None
             \/ tokenURI E (endpoint E (providerIndex st - 1 + m)) t = None) ->
  ownerOf E (endpoint E (providerIndex st - 1 + j)) t = Some o ->
  tokenURI E (endpoint E (providerIndex st - 1 + j)) t = Some u ->
  let started := startAll [t] st in
  let done := snd (allSettled E [] (fst started) (snd started)) in
  fst done = [(t, Saved)]
  /\ upserts (snd done) = upserts st ++ [rowOf E t o (toHttp u)]
  /\ nftContract (snd done) = endpoint E (providerIndex st - 1 + j)
  /\ providerIndex (snd done) = (providerIndex st + j)%nat.
Proof.
  intros (Hp & Hc & _) Hj Hfail Ho Hu.
  destruct st as [p c cs us]. cbn [providerIndex nftContract calls upserts] in *.
  destruct p as [|p]; [lia|]. rewrite Nat.sub_succ, Nat.sub_0_r in *.
  fold (endpoint E p) in Hc. subst c.
  cbn [startAll processNFT fst snd allSettled forallb settled andb nftContract].
  unfold issue. cbn [providerIndex nftContract calls upserts].
  destruct (lone_rounds E t o u us j 0%nat p (cs ++ [CallOwnerOf (endpoint E p) t]) 12%nat)
    as (cs' & Hrun); try assumption.
  - rewrite length_RPC_LIST in Hj. lia.
  - rewrite Hrun. cbn [fst snd upserts nftContract providerIndex].
    repeat split; reflexivity.
Qed.

Lemma lone_token_first_serving_witness :
  let st := boot primaryDown in
  let started := startAll [0%nat] st in
  let done := snd (allSettled primaryDown [] (fst started) (snd started)) in
  fst done = [(0%nat, Saved)]
  /\ upserts (snd done) = upserts st ++ [rowOf primaryDown 0 "0xAAA1" (toHttp "ipfs://meta")]
  /\ nftContract (snd done) = endpoint primaryDown (providerIndex st - 1 + 1)
  /\ providerIndex (snd done) = (providerIndex st + 1)%nat.
Proof.
  apply (lone_token_first_serving primaryDown (boot primaryDown) 0 1 "0xAAA1" "ipfs://meta").
  - apply validState_boot.
  - cbn. lia.
  - intros m Hm. destruct m as [|m]; [left; reflexivity|lia].
  - reflexivity.
  - reflexivity.
Defined.

(** X17.  A token processed alone is given up when each of the listed
    endpoints, tried once in rotation order from the one the contract is
    bound to, fails [ownerOf] or [tokenURI] (not necessarily the same
    read on each): the token ends failed, nothing is written, the
    rotation index has advanced by the number of endpoints and the
    contract is bound again to the endpoint it started from. *)
Theorem lone_token_none_serving (E : Env) (st : State) (t : nat) :
  validState E st ->
  (forall m, (m < length (RPC_LIST E))%nat ->
             ownerOf E (endpoint E (providerIndex st - 1 + m)) t = None
             \/ tokenURI E (endpoint E (providerIndex st - 1 + m)) t = None) ->
  let started := startAll [t] st in
  let done := snd (allSettled E [] (fst started) (snd started)) in
  fst done = [(t, Failed)]
  /\ upserts (snd done) = upserts st
  /\ nftContract (snd done) = nftContract st
  /\ providerIndex (snd done) = (providerIndex st + length (RPC_LIST E))%nat.
Proof.
  intros (Hp & Hc & _) Hfail.
  destruct st as [p c cs us]. cbn [providerIndex nftContract calls upserts] in *.
  destruct p as [|p]; [lia|]. rewrite Nat.sub_succ, Nat.sub_0_r in *.
  fold (endpoint E p) in Hc. subst c.
  cbn [startAll processNFT fst snd allSettled forallb settled andb nftContract].
  unfold issue. cbn [providerIndex nftContract calls upserts].
  rewrite length_RPC_LIST in *.
  destruct (lone_rounds_fail E t us 3 0%nat p (cs ++ [CallOwnerOf (endpoint E p) t]) 12%nat)
    as (cs' & Hrun); try lia.
  - intros m Hm. apply Hfail. lia.
  - rewrite Hrun. cbn [fst snd upserts nftContract providerIndex].
    split; [reflexivity|]. split; [reflexivity|].
    split; [apply endpoint_period|lia].
Qed.

Lemma lone_token_none_serving_witness :
  let st := boot primaryOnly in
  let started := startAll [1%nat] st in
  let done := snd (allSettled primaryOnly [] (fst started) (snd started)) in
  fst done = [(1%nat, Failed)]
  /\ upserts (snd done) = upserts st
  /\ nftContract (snd done) = nftContract st
  /\ providerIndex (snd done) = (providerIndex st + length (RPC_LIST primaryOnly))%nat.
Proof.
  apply (lone_token_none_serving primaryOnly (boot primaryOnly) 1).
  - apply validState_boot.
  - intros m _. left. reflexivity.
Defined.

(** X12.  What a run does to the table.  A token none of whose reads
    can be served keeps the row it had (the sync never deletes or blanks
    a row); a token both of whose reads succeed on every listed endpoint
    ends up with a row built from answers of listed endpoints; a key
    that is not the identifier of a token below [totalSupply] is left
    untouched; and every row of the table after the run was either
    there before or is keyed by the identifier of a token below
    [totalSupply] and built from answers of listed endpoints for that
    token. *)
Theorem table_after_run (E : Env) (sched : list nat) (total : nat)
        (store : gmap string OwnershipRecord) :
  totalSupply E (nftContract (boot E)) = Some total ->
  let out := upserts (finalState (main E sched)) in
  let store' := applyUpserts store out in
  (forall t, unreadable E t -> store' !! Js.toString t = store !! Js.toString t)
  /\ (forall t, (t < total)%nat -> readable E t ->
                exists r, store' !! Js.toString t = Some r /\ validRow E t r)
  /\ (forall k, (forall t, (t < total)%nat -> k <> Js.toString t) ->
                store' !! k = store !! k)
  /\ (forall k r, store' !! k = Some r ->
                  store !! k = Some r
                  \/ exists t, (t < total)%nat /\ k = Js.toString t /\ validRow E t r).
Proof.
  intros Htotal out store'.
  destruct (nft_main_run E sched total Htotal) as (st & Hrun & (_ & _ & Hkeyed) & Hrows & Hnone).
  assert (Hout : out = upserts st) by (subst out; rewrite Hrun; reflexivity).
  assert (Hlook : forall t, store' !! Js.toString t
                            = match last (rowsOf t out) with
                              | Some r => Some r
                              | None => store !! Js.toString t
                              end).
  { intros t. subst store'. rewrite applyUpserts_lookup. reflexivity. }
  assert (Hsettled : forall t, rowsOf t out = []
                               \/ (t < total)%nat /\ exists r, rowsOf t out = [r] /\ validRow E t r).
  { intros t. rewrite Hout. destruct (Nat.lt_ge_cases t total) as [Hlt|Hge].
    - destruct (Hrows t Hlt) as ([Hnil|Hone] & _); [left; exact Hnil|right; split; assumption].
    - left. apply Hnone, Hge. }
  split; [|split; [|split]].
  - intros t Hun. rewrite Hlook.
    assert (Hnil : rowsOf t out = []).
    { rewrite Hout. destruct (Nat.lt_ge_cases t total) as [Hlt|Hge].
      - destruct (Hrows t Hlt) as (_ & _ & Hu). apply Hu, Hun.
      - apply Hnone, Hge. }
    rewrite Hnil. reflexivity.
  - intros t Hlt Hre. rewrite Hlook.
    destruct (Hrows t Hlt) as (_ & Hne & _). specialize (Hne Hre). rewrite <- Hout in Hne.
    destruct (Hsettled t) as [Hnil|(_ & r & Hr & Hv)]; [contradiction|].
    exists r. rewrite Hr. split; [reflexivity|exact Hv].
  - intros k Hk. subst store'. rewrite applyUpserts_lookup.
    rewrite filter_none; [reflexivity|].
    intros r Hr. apply String.eqb_neq. intros Heq.
    rewrite Hout in Hr. rewrite List.Forall_forall in Hkeyed.
    destruct (Hkeyed r Hr) as (t & Ht).
    assert (Hin : In r (rowsOf t out)).
    { unfold rowsOf. apply filter_In. split; [rewrite Hout; exact Hr|].
      apply String.eqb_eq. exact Ht. }
    destruct (Hsettled t) as [Hnil|(Hlt & _)]; [rewrite Hnil in Hin; destruct Hin|].
    apply (Hk t Hlt). congruence.
  - intros k r Hkr. subst store'. rewrite applyUpserts_lookup in Hkr.
    destruct (last (List.filter (fun r0 => String.eqb (token_id r0) k) out)) as [r'|] eqn:Hlast;
      [|left; exact Hkr].
    injection Hkr as ->. right.
    apply last_Some in Hlast as (l' & Hl').
    assert (Hin : In r (List.filter (fun r0 => String.eqb (token_id r0) k) out)).
    { rewrite Hl'. apply in_or_app. right. left. reflexivity. }
    apply filter_In in Hin as [Hr Heq]. apply String.eqb_eq in Heq.
    rewrite Hout in Hr. rewrite List.Forall_forall in Hkeyed.
    destruct (Hkeyed r Hr) as (t & Ht).
    assert (Hin : In r (rowsOf t out)).
    { unfold rowsOf. apply filter_In. split; [rewrite Hout; exact Hr|].
      apply String.eqb_eq. exact Ht. }
    destruct (Hsettled t) as [Hnil|(Hlt & r0 & Hr0 & Hv)]; [rewrite Hnil in Hin; destruct Hin|].
    rewrite Hr0 in Hin. destruct Hin as [<-|[]].
    exists t. split; [exact Hlt|]. split; [congruence|exact Hv].
Qed.

Lemma table_after_run_witness :
  let out := upserts (finalState (main healthy [3; 1; 7; 7; 2]%nat)) in
  let store' := applyUpserts ∅ out in
  (forall t, unreadable healthy t -> store' !! Js.toString t = (∅ : gmap string OwnershipRecord) !! Js.toString t)
  /\ (forall t, (t < 45)%nat -> readable healthy t ->
                exists r, store' !! Js.toString t = Some r /\ validRow healthy t r)
  /\ (forall k, (forall t, (t < 45)%nat -> k <> Js.toString t) ->
                store' !! k = (∅ : gmap string OwnershipRecord) !! k)
  /\ (forall k r, store' !! k = Some r ->
                  (∅ : gmap string OwnershipRecord) !! k = Some r
                  \/ exists t, (t < 45)%nat /\ k = Js.toString t /\ validRow healthy t r).
Proof.
  apply (table_after_run healthy [3; 1; 7; 7; 2]%nat 45 ∅). reflexivity.
Defined.

End NftExtras.

(** * The single-endpoint ownership sync *)

Section LegacyRuns.

Import SyncNFTMetadataLegacy.

Context (E : Env).

Lemma legacy_reaches_trans tasks1 st1 tasks2 st2 tasks3 st3 :
  reaches E tasks1 st1 tasks2 st2 -> reaches E tasks2 st2 tasks3 st3 ->
  reaches E tasks1 st1 tasks3 st3.
Proof.
  intros H12 H23. induction H12 as [|pre t task post st tasks' st' _ IH]; [exact H23|].
  apply reaches_step. apply IH. exact H23.
Qed.

Lemma legacy_reaches_one pre t task post st :
  reaches E (pre ++ (t, task) :: post) st
          (pre ++ (t, fst (resume E t task st)) :: post) (snd (resume E t task st)).
Proof. apply reaches_step. apply reaches_refl. Qed.

Lemma legacy_resumeToken_reaches (c : nat) (tasks : list (nat * Task)) :
  forall pre st,
    reaches E (pre ++ tasks) st
            (pre ++ fst (resumeToken E c tasks st)) (snd (resumeToken E c tasks st)).
Proof.
  induction tasks as [|[t task] rest IH]; intros pre st.
  - apply reaches_refl.
  - cbn [resumeToken]. destruct (t =? c)%nat.
    + destruct (resume E t task st) as [task' st'] eqn:Hr. cbn [fst snd].
      replace task' with (fst (resume E t task st)) by (rewrite Hr; reflexivity).
      replace st' with (snd (resume E t task st)) by (rewrite Hr; reflexivity).
      apply legacy_reaches_one.
    + specialize (IH (pre ++ [(t, task)]) st).
      destruct (resumeToken E c rest st) as [rest' st'].
      cbn [fst snd] in *. rewrite <- !app_assoc in IH. exact IH.
Qed.

Lemma legacy_resumeAll_reaches (tasks : list (nat * Task)) :
  forall pre st,
    reaches E (pre ++ tasks) st
            (pre ++ fst (resumeAll E tasks st)) (snd (resumeAll E tasks st)).
Proof.
  induction tasks as [|[t task] rest IH]; intros pre st.
  - apply reaches_refl.
  - cbn [resumeAll]. destruct (resume E t task st) as [task' st1] eqn:Hr.
    specialize (IH (pre ++ [(t, task')]) st1).
    destruct (resumeAll E rest st1) as [rest' st2]. cbn [fst snd] in *.
    rewrite <- !app_assoc in IH. cbn in IH.
    eapply legacy_reaches_trans; [|exact IH].
    replace task' with (fst (resume E t task st)) by (rewrite Hr; reflexivity).
    replace st1 with (snd (resume E t task st)) by (rewrite Hr; reflexivity).
    apply legacy_reaches_one.
Qed.

Lemma legacy_rounds_reach (n : nat) (tasks : list (nat * Task)) (st : State) :
  reaches E tasks st (fst (Nat.iter n (round E) (tasks, st)))
          (snd (Nat.iter n (round E) (tasks, st))).
Proof.
  induction n as [|n IH]; [apply reaches_refl|].
  cbn [Nat.iter]. eapply legacy_reaches_trans; [exact IH|].
  unfold round at 1 3. apply (legacy_resumeAll_reaches _ []).
Qed.

Lemma legacy_allSettled_reaches (sched : list nat) :
  forall tasks st,
    reaches E tasks st (fst (snd (allSettled E sched tasks st)))
            (snd (snd (allSettled E sched tasks st))).
Proof.
  induction sched as [|c sched IH]; intros tasks st; cbn [allSettled];
    destruct (forallb _ tasks); try apply reaches_refl.
  - apply legacy_rounds_reach.
  - pose proof (legacy_resumeToken_reaches c tasks [] st) as H. cbn [app] in H.
    destruct (resumeToken E c tasks st) as [tasks' st']. cbn [fst snd] in H.
    eapply legacy_reaches_trans; [exact H|apply IH].
Qed.

(** Resuming the task of another token leaves the rows of [t] alone. *)
Lemma legacy_resume_other (t c : nat) (task : Task) (st : State) :
  c <> t ->
  SyncNFTMetadata.rowsOf t (upserts (snd (resume E c task st)))
  = SyncNFTMetadata.rowsOf t (upserts st).
Proof.
  intros Hne. destruct task as [|o|o u| | |]; cbn [resume]; try reflexivity.
  - destruct (SyncNFTMetadata.ownerOf E _ c); reflexivity.
  - destruct (SyncNFTMetadata.tokenURI E _ c); reflexivity.
  - cbn [snd upserts]. rewrite rowsOf_app. unfold rowOf. rewrite rowsOf_rowOf.
    apply Nat.eqb_neq in Hne. rewrite Hne. apply app_nil_r.
Qed.

(** Resuming the task of [t] keeps its rows in step with its state. *)
Lemma legacy_resume_own (t : nat) (task : Task) (st : State) :
  taskInv E t task (SyncNFTMetadata.rowsOf t (upserts st)) ->
  taskInv E t (fst (resume E t task st))
          (SyncNFTMetadata.rowsOf t (upserts (snd (resume E t task st)))).
Proof.
  intros Hinv. destruct task as [|o|o u| | |]; cbn [resume taskInv] in *; try exact Hinv.
  - destruct (SyncNFTMetadata.ownerOf E (nftContract E) t) as [o|] eqn:Ho;
      cbn [fst snd taskInv issue upserts].
    + split; [exact Hinv|exact Ho].
    + split; [exact Hinv|]. unfold expectedRows. rewrite Ho. reflexivity.
  - destruct Hinv as [Hrows Ho].
    destruct (SyncNFTMetadata.tokenURI E (nftContract E) t) as [u|] eqn:Hu;
      cbn [fst snd taskInv].
    + repeat split; assumption.
    + split; [exact Hrows|]. unfold expectedRows. rewrite Ho, Hu. reflexivity.
  - destruct Hinv as (Hrows & Ho & Hu). cbn [fst snd upserts taskInv].
    rewrite rowsOf_app, Hrows. unfold rowOf at 1. rewrite rowsOf_rowOf, Nat.eqb_refl.
    unfold expectedRows. rewrite Ho, Hu. reflexivity.
Qed.

Lemma legacy_batchInv_step pre t task post st :
  batchInv E (pre ++ (t, task) :: post) st ->
  batchInv E (pre ++ (t, fst (resume E t task st)) :: post) (snd (resume E t task st)).
Proof.
  intros (Hnd & Hall).
  assert (Hkeys : List.map fst (pre ++ (t, fst (resume E t task st)) :: post)
                  = List.map fst (pre ++ (t, task) :: post)).
  { rewrite !List.map_app. reflexivity. }
  split; [rewrite Hkeys; exact Hnd|].
  rewrite List.map_app in Hnd. cbn [List.map fst] in Hnd.
  pose proof (NoDup_remove_2 _ _ _ Hnd) as Hfresh.
  apply Forall_app in Hall as [Hpre Hpost]. apply Forall_cons in Hpost as [Hown Hpost].
  assert (Hothers : forall l,
            (forall p, In p l -> In (fst p) (List.map fst pre ++ List.map fst post)) ->
            Forall (fun p => taskInv E (fst p) (snd p)
                               (SyncNFTMetadata.rowsOf (fst p) (upserts st))) l ->
            Forall (fun p => taskInv E (fst p) (snd p)
                               (SyncNFTMetadata.rowsOf (fst p)
                                  (upserts (snd (resume E t task st))))) l).
  { intros l Hl Hf. rewrite List.Forall_forall in Hf |- *. intros p Hp.
    rewrite legacy_resume_other; [apply Hf, Hp|].
    intros ->. apply Hfresh, Hl, Hp. }
  apply Forall_app. split.
  - apply Hothers; [|exact Hpre]. intros p Hp. apply in_or_app. left. apply in_map, Hp.
  - apply Forall_cons. split.
    + cbn [fst snd] in *. apply legacy_resume_own; assumption.
    + apply Hothers; [|exact Hpost]. intros p Hp. apply in_or_app. right. apply in_map, Hp.
Qed.

Lemma legacy_batchInv_reaches tasks st tasks' st' :
  reaches E tasks st tasks' st' ->
  batchInv E tasks st ->
  batchInv E tasks' st'
  /\ List.map fst tasks' = List.map fst tasks
  /\ (forall t, ~ In t (List.map fst tasks) ->
                SyncNFTMetadata.rowsOf t (upserts st') = SyncNFTMetadata.rowsOf t (upserts st)).
Proof.
  intros H. induction H as [|pre t task post st tasks' st' _ IH]; intros Hinv.
  - split; [exact Hinv|]. split; reflexivity.
  - destruct (IH (legacy_batchInv_step _ _ _ _ _ Hinv)) as (Hinv' & Hkeys & Hrows).
    assert (Hk : List.map fst (pre ++ (t, fst (resume E t task st)) :: post)
                 = List.map fst (pre ++ (t, task) :: post)).
    { rewrite !List.map_app. reflexivity. }
    split; [exact Hinv'|]. split; [congruence|].
    intros x Hx. rewrite Hrows by (rewrite Hk; exact Hx).
    apply legacy_resume_other. intros ->. apply Hx.
    rewrite List.map_app. apply in_or_app. right. left. reflexivity.
Qed.

Lemma legacy_stepsLeft_settled (task : Task) : stepsLeft task = 0%nat -> settled task = true.
Proof. destruct task; cbn; (reflexivity || lia). Qed.

Lemma legacy_resume_stepsLeft (t : nat) (task : Task) (st : State) :
  (stepsLeft (fst (resume E t task st)) <= stepsLeft task - 1)%nat.
Proof.
  destruct task as [|o|o u| | |]; cbn [resume].
  - destruct (SyncNFTMetadata.ownerOf E _ t); cbn; lia.
  - destruct (SyncNFTMetadata.tokenURI E _ t); cbn; lia.
  - cbn. lia.
  - cbn. lia.
  - cbn. lia.
  - cbn. lia.
Qed.

Lemma legacy_resumeAll_stepsLeft (n : nat) (tasks : list (nat * Task)) :
  forall st,
    Forall (fun p => (stepsLeft (snd p) <= n)%nat) tasks ->
    Forall (fun p => (stepsLeft (snd p) <= n - 1)%nat) (fst (resumeAll E tasks st)).
Proof.
  induction tasks as [|[t task] rest IH]; intros st Hall; [constructor|].
  apply Forall_cons in Hall as [Hhd Htl]. cbn [resumeAll].
  pose proof (legacy_resume_stepsLeft t task st) as Hstep.
  destruct (resume E t task st) as [task' st1]. specialize (IH st1 Htl).
  destruct (resumeAll E rest st1) as [rest' st2]. cbn [fst snd] in *.
  constructor; [cbn; lia|exact IH].
Qed.

Lemma legacy_rounds_stepsLeft (n : nat) (tasks : list (nat * Task)) (st : State) :
  Forall (fun p => (stepsLeft (snd p) <= 4 - n)%nat) (fst (Nat.iter n (round E) (tasks, st))).
Proof.
  induction n as [|n IH]; cbn [Nat.iter].
  - apply List.Forall_forall. intros [t task] _. destruct task; cbn; lia.
  - unfold round at 1.
    replace (4 - S n)%nat with (4 - n - 1)%nat by lia.
    apply legacy_resumeAll_stepsLeft, IH.
Qed.

Lemma legacy_allSettled_settled (sched : list nat) :
  forall tasks st,
    forallb (fun p => settled (snd p)) (fst (snd (allSettled E sched tasks st))) = true.
Proof.
  induction sched as [|c sched IH]; intros tasks st; cbn [allSettled];
    destruct (forallb _ tasks) eqn:Hdone; try exact Hdone.
  - apply forallb_forall. intros p Hp.
    pose proof (legacy_rounds_stepsLeft 4 tasks st) as H.
    rewrite List.Forall_forall in H. specialize (H p Hp).
    apply legacy_stepsLeft_settled. cbn in H. lia.
  - destruct (resumeToken E c tasks st) as [tasks' st']. apply IH.
Qed.

Lemma legacy_startAll_spec (batch : list nat) :
  forall st,
    fst (startAll E batch st) = List.map (fun t => (t, AwaitOwnerOf)) batch
    /\ upserts (snd (startAll E batch st)) = upserts st
    /\ calls (snd (startAll E batch st))
       = calls st ++ List.map (SyncNFTMetadata.CallOwnerOf (nftContract E)) batch.
Proof.
  induction batch as [|t rest IH]; intros st.
  - cbn. rewrite app_nil_r. repeat split; reflexivity.
  - cbn [startAll processNFT].
    destruct (IH (issue (SyncNFTMetadata.CallOwnerOf (nftContract E) t) st)) as (H1 & H2 & H3).
    destruct (startAll E rest _) as [tasks st2]. cbn [fst snd] in *.
    cbn [issue upserts calls] in *.
    rewrite H1, H2, H3, <- app_assoc. repeat split; reflexivity.
Qed.

Lemma legacy_settled_taskInv (t : nat) (task : Task) (rows : list OwnershipRecord) :
  settled task = true -> taskInv E t task rows -> rows = expectedRows E t.
Proof.
  destruct task; cbn; intros Hs Hinv; try discriminate; [exact Hinv|].
  destruct Hinv as [-> ->]. reflexivity.
Qed.

Lemma legacy_batch_run (sched : list nat) (batch : list nat) (st : State) :
  List.NoDup batch ->
  (forall t, In t batch -> SyncNFTMetadata.rowsOf t (upserts st) = []) ->
  let started := startAll E batch st in
  let st' := snd (snd (allSettled E sched (fst started) (snd started))) in
  (forall t, In t batch -> SyncNFTMetadata.rowsOf t (upserts st') = expectedRows E t)
  /\ (forall t, ~ In t batch ->
                SyncNFTMetadata.rowsOf t (upserts st') = SyncNFTMetadata.rowsOf t (upserts st)).
Proof.
  intros Hnd Hfresh started st'.
  destruct (legacy_startAll_spec batch st) as (Htasks & Hu & _).
  fold started in Htasks, Hu.
  assert (Hkeys : List.map fst (fst started) = batch).
  { rewrite Htasks, List.map_map. cbn. apply List.map_id. }
  assert (Hinv : batchInv E (fst started) (snd started)).
  { split; [rewrite Hkeys; exact Hnd|].
    rewrite Htasks. apply List.Forall_forall. intros p Hp'.
    apply in_map_iff in Hp' as (t & <- & Ht). cbn [fst snd taskInv].
    rewrite Hu. apply Hfresh, Ht. }
  destruct (legacy_batchInv_reaches _ _ _ _
              (legacy_allSettled_reaches sched (fst started) (snd started)) Hinv)
    as ((_ & Hall) & Hkeys' & Hrows).
  fold st' in Hall, Hrows.
  split.
  - intros t Ht.
    assert (Hin : In t (List.map fst (fst (snd (allSettled E sched (fst started) (snd started)))))).
    { rewrite Hkeys', Hkeys. exact Ht. }
    apply in_map_iff in Hin as ([t' task] & Heq & Hin). cbn in Heq. subst t'.
    rewrite List.Forall_forall in Hall. specialize (Hall _ Hin). cbn [fst snd] in Hall.
    pose proof (legacy_allSettled_settled sched (fst started) (snd started)) as Hdone.
    rewrite forallb_forall in Hdone. specialize (Hdone _ Hin). cbn [snd] in Hdone.
    apply (legacy_settled_taskInv t task); assumption.
  - intros t Ht. rewrite Hrows by (rewrite Hkeys; exact Ht). rewrite Hu. reflexivity.
Qed.

Lemma legacy_batches_run (fuel : nat) :
  forall i total sched st,
    (total - i <= fuel)%nat ->
    (forall t, (i <= t)%nat -> SyncNFTMetadata.rowsOf t (upserts st) = []) ->
    exists st',
      batches E fuel i total sched st = Completed st'
      /\ (forall t, (t < i)%nat ->
                    SyncNFTMetadata.rowsOf t (upserts st') = SyncNFTMetadata.rowsOf t (upserts st))
      /\ (forall t, (i <= t < total)%nat ->
                    SyncNFTMetadata.rowsOf t (upserts st') = expectedRows E t)
      /\ (forall t, (i <= t)%nat -> (total <= t)%nat ->
                    SyncNFTMetadata.rowsOf t (upserts st') = []).
Proof.
  induction fuel as [|fuel IH]; intros i total sched st Hfuel Hfresh.
  - assert (Hge : (total <= i)%nat) by lia. apply Nat.ltb_ge in Hge as Hge'.
    exists st. cbn [batches]. rewrite Hge'.
    split; [reflexivity|]. split; [reflexivity|].
    split; [intros; lia|intros; apply Hfresh; assumption].
  - cbn [batches]. destruct (Nat.ltb_spec i total) as [Hlt|Hge].
    2:{ exists st. split; [reflexivity|]. split; [reflexivity|].
        split; [intros; lia|intros; apply Hfresh; assumption]. }
    destruct (legacy_batch_run sched (SyncNFTMetadata.batchOf i total) st (batchOf_NoDup i total))
      as (Hin & Hout).
    { intros t Ht. apply batchOf_In in Ht. apply Hfresh. lia. }
    destruct (startAll E (SyncNFTMetadata.batchOf i total) st) as [tasks st1]. cbn [fst snd] in *.
    destruct (allSettled E sched tasks st1) as [sched' [tasks' st2]]. cbn [fst snd] in *.
    destruct (IH (i + SyncNFTMetadata.BATCH_SIZE)%nat total sched' st2)
      as (st' & Hrun & Hlow & Hmid & Hhigh).
    + unfold SyncNFTMetadata.BATCH_SIZE. lia.
    + intros t Ht. rewrite Hout; [apply Hfresh; lia|].
      rewrite batchOf_In. lia.
    + exists st'. split; [exact Hrun|]. split; [|split].
      * intros t Ht. rewrite Hlow by lia. apply Hout. rewrite batchOf_In. lia.
      * intros t Ht.
        destruct (Nat.lt_ge_cases t (i + SyncNFTMetadata.BATCH_SIZE)) as [Hnear|Hfar].
        -- rewrite Hlow by exact Hnear. apply Hin. apply batchOf_In. lia.
        -- apply Hmid. lia.
      * intros t Hi Ht.
        destruct (Nat.lt_ge_cases t (i + SyncNFTMetadata.BATCH_SIZE)) as [Hnear|Hfar].
        -- rewrite Hlow by exact Hnear. rewrite Hout; [apply Hfresh, Hi|].
           rewrite batchOf_In. lia.
        -- apply Hhigh; assumption.
Qed.

End LegacyRuns.

Section LegacyExtras.

Import SyncNFTMetadataLegacy.

(** The single-endpoint [main], by the answer to [totalSupply]. *)
Lemma legacy_main_run (E : Env) (sched : list nat) (t : nat) :
  match SyncNFTMetadata.totalSupply E (nftContract E) with
  | Some total =>
      exitCode (main E sched) = Some 0
      /\ SyncNFTMetadata.rowsOf t (upserts (finalState (main E sched)))
         = if (t <? total)%nat then expectedRows E t else []
  | None =>
      exitCode (main E sched) = Some 1
      /\ upserts (finalState (main E sched)) = []
      /\ calls (finalState (main E sched)) = [SyncNFTMetadata.CallTotalSupply (nftContract E)]
  end.
Proof.
  unfold main.
  destruct (SyncNFTMetadata.totalSupply E (nftContract E)) as [total|]; [|repeat split].
  destruct (legacy_batches_run E total 0 total sched
              (issue (SyncNFTMetadata.CallTotalSupply (nftContract E)) (mkState [] [])))
    as (st & Hrun & _ & Hmid & Hhigh).
  - lia.
  - intros x _. reflexivity.
  - rewrite Hrun. cbn [exitCode finalState]. split; [reflexivity|].
    destruct (Nat.ltb_spec t total) as [Hlt|Hge].
    + apply Hmid. lia.
    + apply Hhigh; lia.
Qed.

(** X13.  The single-endpoint ownership sync has no race: whatever the
    order in which the promises of its batches resolve, once
    [totalSupply] is read it completes with status 0 and writes, for
    every token below [totalSupply], exactly the row prescribed by the
    endpoint's answers (one row when both reads succeed, none when one
    fails), and nothing for any other identifier, so that two runs
    against the same answers write the same rows.  When [totalSupply]
    cannot be read it exits with status 1 after that one call, without
    writing anything. *)
Theorem legacy_rows_schedule_independent (E : Env) (sched sched' : list nat) (t : nat) :
  let run := main E sched in
  let rows := SyncNFTMetadata.rowsOf t (upserts (finalState run)) in
  rows = SyncNFTMetadata.rowsOf t (upserts (finalState (main E sched')))
  /\ match SyncNFTMetadata.totalSupply E (nftContract E) with
     | Some total =>
         exitCode run = Some 0
         /\ rows = (if (t <? total)%nat then expectedRows E t else [])
         /\ (length rows <= 1)%nat
     | None =>
         exitCode run = Some 1
         /\ upserts (finalState run) = []
         /\ calls (finalState run) = [SyncNFTMetadata.CallTotalSupply (nftContract E)]
     end.
Proof.
  cbv zeta.
  pose proof (legacy_main_run E sched t) as H1.
  pose proof (legacy_main_run E sched' t) as H2.
  destruct (SyncNFTMetadata.totalSupply E (nftContract E)) as [total|].
  - destruct H1 as [He1 Hr1]. destruct H2 as [_ Hr2].
    split; [congruence|]. split; [exact He1|]. split; [exact Hr1|].
    rewrite Hr1. destruct (t <? total)%nat; [|cbn; lia].
    unfold expectedRows.
    destruct (SyncNFTMetadata.ownerOf E (nftContract E) t);
      destruct (SyncNFTMetadata.tokenURI E (nftContract E) t); cbn; lia.
  - destruct H1 as (He1 & Hu1 & Hc1). destruct H2 as (_ & Hu2 & _).
    split; [rewrite Hu1, Hu2; reflexivity|]. repeat split; assumption.
Qed.

(** X14.  The fallback version is a conservative extension of the
    single-endpoint one: when every listed endpoint serves the same
    chain state and no token URI is an [ipfs://] URI, the two versions
    write the same rows for every token, whatever the order in which
    their promises resolve. *)
Theorem fallback_agrees_with_legacy (E : Env) (sched sched' : list nat) (t : nat) :
  SyncNFTMetadata.uniform E ->
  (forall x u, SyncNFTMetadata.tokenURI E (SyncNFTMetadata.APECHAIN_RPC E) x = Some u ->
               Js.startsWith u "ipfs://" = false) ->
  SyncNFTMetadata.rowsOf t
    (SyncNFTMetadata.upserts (SyncNFTMetadata.finalState (SyncNFTMetadata.main E sched)))
  = SyncNFTMetadata.rowsOf t (upserts (finalState (main E sched'))).
Proof.
  intros Hu Hplain.
  rewrite (uniform_rows E sched t Hu).
  pose proof (legacy_main_run E sched' t) as Hl.
  change (SyncNFTMetadata.nftContract (SyncNFTMetadata.boot E)) with (nftContract E).
  destruct (SyncNFTMetadata.totalSupply E (nftContract E)) as [total|].
  - destruct Hl as [_ ->]. destruct (t <? total)%nat; [|reflexivity].
    unfold SyncNFTMetadata.expectedRows, expectedRows, nftContract, rowOf.
    destruct (SyncNFTMetadata.ownerOf E (SyncNFTMetadata.APECHAIN_RPC E) t) as [o|];
      [|reflexivity].
    destruct (SyncNFTMetadata.tokenURI E (SyncNFTMetadata.APECHAIN_RPC E) t) as [u|] eqn:Hu';
      [|reflexivity].
    unfold SyncNFTMetadata.toHttp. rewrite (Hplain t u Hu'). reflexivity.
  - destruct Hl as (_ & -> & _). reflexivity.
Qed.

Lemma fallback_agrees_with_legacy_witness :
  SyncNFTMetadata.rowsOf 2
    (SyncNFTMetadata.upserts
       (SyncNFTMetadata.finalState
          (SyncNFTMetadata.main SyncNFTMetadata.plainLinks [2; 0; 2; 21]%nat)))
  = SyncNFTMetadata.rowsOf 2
      (upserts (finalState (main SyncNFTMetadata.plainLinks [1; 2; 2; 2; 2]%nat))).
Proof.
  apply (fallback_agrees_with_legacy SyncNFTMetadata.plainLinks
           [2; 0; 2; 21]%nat [1; 2; 2; 2; 2]%nat 2).
  - intros c c' t _ _. split; reflexivity.
  - intros x u Hu. cbn in Hu. injection Hu as <-. reflexivity.
Defined.

(** The two versions on the sample: both write the row of token 2 and
    none for the burnt token 4. *)
Example legacy_sync_runs :
  let out := upserts (finalState (main SyncNFTMetadata.plainLinks [1; 2; 2; 2; 2]%nat)) in
  exitCode (main SyncNFTMetadata.plainLinks [1; 2; 2; 2; 2]%nat) = Some 0
  /\ SyncNFTMetadata.rowsOf 2 out
     = [SyncNFTMetadata.mkRecord "2" "0xC0FFEE" "0xabc" (Some "Ape #2"%string)]
  /\ SyncNFTMetadata.rowsOf 4 out = []
  /\ length out = 24%nat.
Proof. vm_compute. repeat split; reflexivity. Qed.

End LegacyExtras.
